(** * pdfio: the cross-reference resolver and object loader of [pdfio-file.c]

    A shallow embedding of [pdfioFileOpen], [load_xref], [load_obj_stream],
    [load_pages], [add_obj] and [pdfioFileFindObject], with the state of a
    [pdfio_file_t] passed explicitly, followed by the properties of the
    resolver that the specification states.

    Conventions.
    - A [char] array is a [list ascii]; a C string is the part of the array
      before its first NUL ([cstr]).
    - [size_t], [intmax_t], [long], [int] and [unsigned short] values are
      integers of [Z] with the conversions between them written out
      ([to_size_t], [to_intmax], [to_int], [to_ushort]); the platform is
      LP64 ([long] and [intmax_t] have 64 bits, [int] has 32).
    - The objects of a file live in a store ([pdf_heap]); a
      [pdfio_obj_t *] is the index of the object in that store, and
      [pdf_objs] is the array of pointers that [add_obj] keeps sorted.
    - [calloc] and [realloc] are taken to succeed, so the capacity
      bookkeeping ([alloc_objs], [alloc_pages]) is not modelled.
    - PDF numbers are modelled as integers. *)

From Stdlib Require Import ZArith Ascii String List Lia Bool.
From Stdlib Require Import Sorting.Sorted Sorting.Permutation.
From stdpp Require Import base list strings sorting.

Local Open Scope Z_scope.

(** ** The C library functions the resolver calls *)

Module C.

Definition lit (s : string) : list ascii := list_ascii_of_string s.

Definition NUL : ascii := "000"%char.
Definition LF : ascii := "010"%char.
Definition CR : ascii := "013"%char.

(** [c & 255] for a [char] [c]. *)
Definition code (c : ascii) : Z := Z.of_N (N_of_ascii c).

(** The string held by a [char] array: everything before the first NUL. *)
Fixpoint cstr (s : list ascii) : list ascii :=
  match s with
  | [] => []
  | c :: r => if Ascii.eqb c NUL then [] else c :: cstr r
  end.

Definition strlen (s : list ascii) : nat := length (cstr s).

(** [strcmp a b == 0]. *)
Definition streq (a b : list ascii) : bool := bool_decide (cstr a = cstr b).

(** [strncmp a b n == 0]. *)
Definition strneq (a b : list ascii) (n : nat) : bool :=
  bool_decide (take n (cstr a) = take n (cstr b)).

(** [s[i]], reading the terminating NUL at and after the end. *)
Definition char_at (s : list ascii) (i : nat) : ascii := nth i (cstr s) NUL.

Definition isdigit (c : Z) : bool := (48 <=? c) && (c <=? 57).
Definition isspace (c : Z) : bool := (c =? 32) || ((9 <=? c) && (c <=? 13)).

(** [strstr hay needle]: the suffix of [hay] at the first occurrence. *)
Fixpoint strstr (hay needle : list ascii) : option (list ascii) :=
  match hay with
  | [] => if bool_decide (needle = []) then Some [] else None
  | c :: r =>
      if bool_decide (take (length needle) hay = needle) then Some hay
      else strstr r needle
  end.

(** Integer types. *)
Definition wrap_unsigned (bits : Z) (x : Z) : Z := x mod 2 ^ bits.
Definition wrap_signed (bits : Z) (x : Z) : Z :=
  (x + 2 ^ (bits - 1)) mod 2 ^ bits - 2 ^ (bits - 1).

Definition to_size_t : Z -> Z := wrap_unsigned 64.
Definition to_ushort : Z -> Z := wrap_unsigned 16.
Definition to_int : Z -> Z := wrap_signed 32.
Definition to_intmax : Z -> Z := wrap_signed 64.

Definition INTMAX_MAX : Z := 2 ^ 63 - 1.
Definition INTMAX_MIN : Z := - 2 ^ 63.

Definition clamp (x : Z) : Z := Z.max INTMAX_MIN (Z.min INTMAX_MAX x).

Fixpoint skip_space (s : list ascii) : list ascii :=
  match s with
  | c :: r => if isspace (code c) then skip_space r else s
  | [] => []
  end.

Fixpoint digits (acc : Z) (s : list ascii) : Z * list ascii :=
  match s with
  | c :: r => if isdigit (code c) then digits (acc * 10 + (code c - 48)) r
              else (acc, s)
  | [] => (acc, [])
  end.

Definition sign (s : list ascii) : bool * list ascii :=
  match s with
  | c :: r => if Ascii.eqb c "-" then (true, r)
              else if Ascii.eqb c "+" then (false, r)
              else (false, s)
  | [] => (false, [])
  end.

(** One decimal conversion: white space, an optional sign, digits.
    [None] when there is no digit. *)
Definition convert (s : list ascii) : option (Z * list ascii) :=
  let '(neg, s2) := sign (skip_space s) in
  match s2 with
  | c :: _ =>
      if isdigit (code c)
      then let '(v, rest) := digits 0 s2 in
           Some (clamp (if neg then - v else v), rest)
      else None
  | [] => None
  end.

(** [strtoimax s &ptr 10] (and [strtol], of the same width): the value
    and the new [ptr]; without a digit the value is 0 and [ptr] is [s]. *)
Definition strtoimax (s : list ascii) : Z * list ascii :=
  match convert (cstr s) with
  | Some r => r
  | None => (0, cstr s)
  end.

Definition strtol : list ascii -> Z * list ascii := strtoimax.

(** [sscanf line "%jd%jd" &a &b == 2], with the two values. *)
Definition sscanf_jd_jd (line : list ascii) : option (Z * Z) :=
  match convert (cstr line) with
  | Some (a, r) =>
      match convert r with
      | Some (b, _) => Some (a, b)
      | None => None
      end
  | None => None
  end.

End C.

Import C.

(** ** Data model *)

(** Modelled from the spec: the tagged value variant of sections 3 and 9
    ([_pdfio_value_t] is declared in [pdfio-private.h], which is not part
    of the sources at hand).  [VNone] is [PDFIO_VALTYPE_NONE], the type of
    a value that has not been read. *)
#[local] Unset Elimination Schemes.
Inductive pdfio_value : Type :=
| VNone
| VNull
| VBool (b : bool)
| VNumber (n : Z)
| VName (s : string)
| VString (s : list ascii)
| VArray (a : list pdfio_value)
| VDict (d : list (string * pdfio_value))
| VIndirect (number generation : Z).
#[local] Set Elimination Schemes.

Abbreviation pdfio_dict_t := (list (string * pdfio_value)).
Abbreviation pdfio_array_t := (list pdfio_value).

(** [pdfio_obj_t]: one indirect object record. *)
Record pdfio_obj_t : Type := mk_obj {
  obj_number : Z;          (* size_t *)
  obj_generation : Z;      (* unsigned short *)
  obj_offset : Z;          (* off_t *)
  obj_value : pdfio_value;
  obj_stream_offset : Z    (* off_t *)
}.

(** A [pdfio_obj_t *]: the index of the object in [pdf_heap]. *)
Abbreviation obj_ptr := nat.

(** [pdfio_file_t], opened for reading.  [pdf_errors] is the list of
    messages handed to the error callback, oldest first; [pdf_streams] is
    the list of objects whose decode stream is open. *)
Record pdfio_file_t : Type := mk_pdf {
  pdf_data : list ascii;               (* the bytes behind [fd] *)
  pdf_pos : Z;                         (* the current read position *)
  pdf_version : option (list ascii);
  pdf_heap : list pdfio_obj_t;
  pdf_objs : list obj_ptr;             (* objs[0 .. num_objs) *)
  pdf_trailer : option pdfio_dict_t;
  pdf_root : option obj_ptr;
  pdf_info : option obj_ptr;
  pdf_encrypt : option obj_ptr;
  pdf_id_array : option pdfio_array_t;
  pdf_pages : list obj_ptr;
  pdf_errors : list string;
  pdf_streams : list obj_ptr
}.

Definition set_pos (pdf : pdfio_file_t) (pos : Z) : pdfio_file_t :=
  mk_pdf (pdf_data pdf) pos (pdf_version pdf) (pdf_heap pdf) (pdf_objs pdf)
    (pdf_trailer pdf) (pdf_root pdf) (pdf_info pdf) (pdf_encrypt pdf)
    (pdf_id_array pdf) (pdf_pages pdf) (pdf_errors pdf) (pdf_streams pdf).

Definition set_version (pdf : pdfio_file_t) (v : list ascii) : pdfio_file_t :=
  mk_pdf (pdf_data pdf) (pdf_pos pdf) (Some v) (pdf_heap pdf) (pdf_objs pdf)
    (pdf_trailer pdf) (pdf_root pdf) (pdf_info pdf) (pdf_encrypt pdf)
    (pdf_id_array pdf) (pdf_pages pdf) (pdf_errors pdf) (pdf_streams pdf).

Definition set_index (pdf : pdfio_file_t) (heap : list pdfio_obj_t)
    (objs : list obj_ptr) : pdfio_file_t :=
  mk_pdf (pdf_data pdf) (pdf_pos pdf) (pdf_version pdf) heap objs
    (pdf_trailer pdf) (pdf_root pdf) (pdf_info pdf) (pdf_encrypt pdf)
    (pdf_id_array pdf) (pdf_pages pdf) (pdf_errors pdf) (pdf_streams pdf).

Definition set_heap (pdf : pdfio_file_t) (heap : list pdfio_obj_t)
    : pdfio_file_t :=
  set_index pdf heap (pdf_objs pdf).

Definition set_trailer (pdf : pdfio_file_t) (d : pdfio_dict_t) : pdfio_file_t :=
  mk_pdf (pdf_data pdf) (pdf_pos pdf) (pdf_version pdf) (pdf_heap pdf)
    (pdf_objs pdf) (Some d) (pdf_root pdf) (pdf_info pdf) (pdf_encrypt pdf)
    (pdf_id_array pdf) (pdf_pages pdf) (pdf_errors pdf) (pdf_streams pdf).

Definition set_root (pdf : pdfio_file_t) (r : option obj_ptr) : pdfio_file_t :=
  mk_pdf (pdf_data pdf) (pdf_pos pdf) (pdf_version pdf) (pdf_heap pdf)
    (pdf_objs pdf) (pdf_trailer pdf) r (pdf_info pdf) (pdf_encrypt pdf)
    (pdf_id_array pdf) (pdf_pages pdf) (pdf_errors pdf) (pdf_streams pdf).

Definition set_info (pdf : pdfio_file_t) (i e : option obj_ptr)
    (ids : option pdfio_array_t) : pdfio_file_t :=
  mk_pdf (pdf_data pdf) (pdf_pos pdf) (pdf_version pdf) (pdf_heap pdf)
    (pdf_objs pdf) (pdf_trailer pdf) (pdf_root pdf) i e ids
    (pdf_pages pdf) (pdf_errors pdf) (pdf_streams pdf).

Definition set_pages (pdf : pdfio_file_t) (pages : list obj_ptr) : pdfio_file_t :=
  mk_pdf (pdf_data pdf) (pdf_pos pdf) (pdf_version pdf) (pdf_heap pdf)
    (pdf_objs pdf) (pdf_trailer pdf) (pdf_root pdf) (pdf_info pdf)
    (pdf_encrypt pdf) (pdf_id_array pdf) pages (pdf_errors pdf)
    (pdf_streams pdf).

Definition set_errors (pdf : pdfio_file_t) (errs : list string) : pdfio_file_t :=
  mk_pdf (pdf_data pdf) (pdf_pos pdf) (pdf_version pdf) (pdf_heap pdf)
    (pdf_objs pdf) (pdf_trailer pdf) (pdf_root pdf) (pdf_info pdf)
    (pdf_encrypt pdf) (pdf_id_array pdf) (pdf_pages pdf) errs
    (pdf_streams pdf).

Definition set_streams (pdf : pdfio_file_t) (sts : list obj_ptr) : pdfio_file_t :=
  mk_pdf (pdf_data pdf) (pdf_pos pdf) (pdf_version pdf) (pdf_heap pdf)
    (pdf_objs pdf) (pdf_trailer pdf) (pdf_root pdf) (pdf_info pdf)
    (pdf_encrypt pdf) (pdf_id_array pdf) (pdf_pages pdf) (pdf_errors pdf) sts.

(** The structure [calloc] returns in [pdfioFileOpen], once [open]
    succeeded on a file holding [data]. *)
Definition new_pdf (data : list ascii) : pdfio_file_t :=
  mk_pdf data 0 None [] [] None None None None None [] [] [].

(** ** Control flow: state, [return (false)] and loops that may not end *)

Inductive result (A : Type) : Type :=
| Ret (a : A) (pdf : pdfio_file_t)   (* the block ran to its end *)
| Fail (pdf : pdfio_file_t)          (* [return (false)] or [return (NULL)] *)
| Hang.                              (* the loop is still running *)
Arguments Ret {A} a pdf.
Arguments Fail {A} pdf.
Arguments Hang {A}.

Definition M (A : Type) : Type := pdfio_file_t -> result A.

#[global] Instance M_ret : MRet M := fun A a pdf => Ret a pdf.
#[global] Instance M_bind : MBind M := fun A B k m pdf =>
  match m pdf with
  | Ret a pdf' => k a pdf'
  | Fail pdf' => Fail pdf'
  | Hang => Hang
  end.

Definition get : M pdfio_file_t := fun pdf => Ret pdf pdf.
Definition modify (f : pdfio_file_t -> pdfio_file_t) : M unit :=
  fun pdf => Ret tt (f pdf).
Definition fail {A : Type} : M A := fun pdf => Fail pdf.

(** [_pdfioFileError pdf msg]: one invocation of the error callback. *)
Definition _pdfioFileError (msg : string) : M unit :=
  modify (fun pdf => set_errors pdf (pdf_errors pdf ++ [msg])).

(** [_pdfioFileError (...); return (false);] *)
Definition error {A : Type} (msg : string) : M A :=
  _ ← _pdfioFileError msg; fail.

(** The error kinds of section 7, by the message the code reports
    (without the values it interpolates). *)
Definition bad_header : string := "Bad header.".
Definition io_startxref : string := "Unable to read startxref data.".
Definition malformed_trailer : string := "Unable to find start of xref table.".
Definition io_seek : string := "Unable to seek to start of xref table.".
Definition io_read_xref : string := "Unable to read start of xref table.".
Definition malformed_xref_header : string := "Bad xref table header.".
Definition malformed_xref_section : string := "Malformed xref table section.".
Definition malformed_xref_entry : string := "Malformed xref table entry.".
Definition missing_trailer : string := "Missing trailer.".
Definition bad_trailer : string := "Unable to read trailer dictionary.".
Definition trailer_not_dict : string := "Trailer is not a dictionary.".
Definition bad_xref_dict : string :=
  "Unable to read cross-reference stream dictionary.".
Definition xref_not_dict : string :=
  "Cross-reference stream does not have a dictionary.".
Definition no_stream_after_dict : string :=
  "Unable to get stream after xref dictionary.".
Definition unsupported_xref_index : string :=
  "Multiple indices not supported in cross-reference stream.".
Definition missing_W : string :=
  "Cross-reference stream does not have required W key.".
Definition invalid_W : string := "Cross-reference stream has invalid W key.".
Definition cannot_open_xref_stream : string :=
  "Unable to open cross-reference stream.".
Definition dangling_object_stream : string :=
  "Unable to find compressed object stream.".
Definition cannot_open_object_stream : string :=
  "Unable to open compressed object stream.".
Definition too_many_objects : string :=
  "Too many compressed objects in one stream.".
Definition missing_catalog : string := "Missing Root object.".
Definition no_pages_object : string := "Unable to find pages object.".
Definition no_pages_dict : string := "No dictionary for pages object.".
Definition cannot_open_file : string := "Unable to open file.".

(** ** Byte Source *)

(** Modelled from the spec: the Byte Source of section 4.1
    ([_pdfioFileSeek], [_pdfioFileRead], [_pdfioFileGets] and
    [_pdfioFileTell] are defined in [pdfio-common.c], which is not part of
    the sources at hand).  None of them invokes the error callback: their
    callers report. *)

(** [_pdfioFileSeek pdf offset SEEK_SET]: the new position, or -1. *)
Definition _pdfioFileSeek_SET (offset : Z) : M Z := fun pdf =>
  if offset <? 0 then Ret (-1) pdf else Ret offset (set_pos pdf offset).

(** [_pdfioFileSeek pdf offset SEEK_END]. *)
Definition _pdfioFileSeek_END (offset : Z) : M Z := fun pdf =>
  let target := Z.of_nat (length (pdf_data pdf)) + offset in
  if target <? 0 then Ret (-1) pdf else Ret target (set_pos pdf target).

(** [_pdfioFileRead pdf buffer bytes]: the bytes read, fewer than asked
    for at the end of the file. *)
Definition _pdfioFileRead (bytes : nat) : M (list ascii) := fun pdf =>
  let got := take bytes (drop (Z.to_nat (pdf_pos pdf)) (pdf_data pdf)) in
  Ret got (set_pos pdf (pdf_pos pdf + Z.of_nat (length got))).

(** The line at the head of [s], without its terminator (LF, CR or
    CR LF), whether a terminator was found, and the bytes consumed.  At
    most [room] characters fit the buffer: a longer line is a failed read
    that leaves the first [room] characters in the buffer and nothing to
    read. *)
Fixpoint gets_scan (room : nat) (s : list ascii) : bool * list ascii * nat :=
  match s with
  | [] => (false, [], 0%nat)
  | c :: r =>
      if Ascii.eqb c LF then (true, [], 1%nat)
      else if Ascii.eqb c CR then
        match r with
        | c' :: _ => if Ascii.eqb c' LF then (true, [], 2%nat)
                     else (true, [], 1%nat)
        | [] => (true, [], 1%nat)
        end
      else
        match room with
        | O => (false, [], length s)
        | S room' =>
            let '(eol, l, n) := gets_scan room' r in (eol, c :: l, S n)
        end
  end.

(** [_pdfioFileGets pdf buffer bufsize]: whether a whole line was read,
    and the buffer. *)
Definition _pdfioFileGets (bufsize : nat) : M (bool * list ascii) := fun pdf =>
  let '(eol, l, n) :=
    gets_scan (bufsize - 1) (drop (Z.to_nat (pdf_pos pdf)) (pdf_data pdf)) in
  Ret (eol, l) (set_pos pdf (pdf_pos pdf + Z.of_nat n)).

(** ** Dictionaries and arrays *)

(** Modelled from the spec: the accessor helpers of section 9, which
    encapsulate the tag check and return a sentinel on mismatch (0 for a
    number, NULL otherwise); [pdfio-dict.c] and [pdfio-array.c] are not part
    of the sources at hand. *)
Fixpoint _pdfioDictGetValue (d : pdfio_dict_t) (key : string)
    : option pdfio_value :=
  match d with
  | [] => None
  | (k, v) :: r => if String.eqb k key then Some v else _pdfioDictGetValue r key
  end.

Definition pdfioDictGetArray (d : pdfio_dict_t) (key : string)
    : option pdfio_array_t :=
  match _pdfioDictGetValue d key with
  | Some (VArray a) => Some a
  | _ => None
  end.

Definition pdfioDictGetNumber (d : pdfio_dict_t) (key : string) : Z :=
  match _pdfioDictGetValue d key with
  | Some (VNumber n) => n
  | _ => 0
  end.

Definition pdfioDictGetName (d : pdfio_dict_t) (key : string) : option string :=
  match _pdfioDictGetValue d key with
  | Some (VName s) => Some s
  | _ => None
  end.

Definition pdfioArrayGetNumber (a : pdfio_array_t) (n : nat) : Z :=
  match a !! n with
  | Some (VNumber x) => x
  | _ => 0
  end.

Definition pdfioArrayGetSize (a : pdfio_array_t) : nat := length a.

(** ** The external collaborators *)

(** The contracts of section 6 that the resolver consumes and that are
    implemented outside [pdfio-file.c]: the token reader ([pdfio-token.c]),
    the value reader ([pdfio-value.c]), the object loader
    ([pdfio-object.c]) and the decode pipeline ([pdfio-stream.c]).  The
    resolver is verified for every implementation of them.

    A token reader is created over the file at its current position or
    over the payload of an open stream.  [_pdfioTokenGet tb buffer] is
    given the present content of the caller's buffer and returns whether a
    token was read, the new content of the buffer, and the reader.
    [_pdfioTokenTell tb] is what [_pdfioFileTell] answers after the reads
    made through [tb]. *)
Class Externals : Type := {
  token_state : Type;
  _pdfioTokenInit_file : list ascii -> Z -> token_state;
  _pdfioTokenInit_stream : list ascii -> token_state;
  _pdfioTokenGet : token_state -> list ascii -> bool * list ascii * token_state;
  _pdfioTokenPush : token_state -> list ascii -> token_state;
  _pdfioTokenFlush : token_state -> token_state;
  _pdfioTokenTell : token_state -> Z;
  _pdfioValueRead : token_state -> option (pdfio_value * token_state);
  (** The value of an object read at its offset, and the offset of its
      stream payload (0 when it has none). *)
  _pdfioObjLoad : list ascii -> pdfio_obj_t -> option (pdfio_value * Z);
  (** The decoded payload of the stream of a loaded object. *)
  _pdfioStreamOpen : list ascii -> pdfio_obj_t -> option (list ascii)
}.

(** ** The Object Index *)

(** ['compare_objs()' - Compare the object numbers of two objects.] *)
Definition compare_objs (a b : pdfio_obj_t) : Z :=
  if obj_number a <? obj_number b then -1
  else if obj_number a =? obj_number b then 0
  else 1.

(** [*p] for a pointer [p]; a pointer outside the store reads as an
    object of zeros (there is none in a state the resolver builds). *)
Definition deref (heap : list pdfio_obj_t) (p : obj_ptr) : pdfio_obj_t :=
  match heap !! p with
  | Some o => o
  | None => mk_obj 0 0 0 VNone 0
  end.

(** [qsort (objs, num_objs, sizeof (pdfio_obj_t * ), compare_objs)].  The C
    library leaves the algorithm open; this is an insertion sort, which
    keeps elements that compare equal in the order they had. *)
Fixpoint qsort_insert (heap : list pdfio_obj_t) (p : obj_ptr)
    (l : list obj_ptr) : list obj_ptr :=
  match l with
  | [] => [p]
  | q :: r =>
      if compare_objs (deref heap p) (deref heap q) <=? 0 then p :: q :: r
      else q :: qsort_insert heap p r
  end.

Definition qsort (heap : list pdfio_obj_t) (objs : list obj_ptr)
    : list obj_ptr :=
  foldr (qsort_insert heap) [] objs.

(** [bsearch (&keyptr, objs, num_objs, sizeof (pdfio_obj_t * ),
    compare_objs)], as the C library does it: halve the range [l, u)
    until the element in the middle compares equal. *)
Fixpoint bsearch (fuel : nat) (heap : list pdfio_obj_t) (key : pdfio_obj_t)
    (base : list obj_ptr) (l u : nat) : option obj_ptr :=
  match fuel with
  | O => None
  | S fuel' =>
      if (l <? u)%nat then
        let idx := ((l + u) / 2)%nat in
        match base !! idx with
        | None => None
        | Some p =>
            let c := compare_objs key (deref heap p) in
            if c <? 0 then bsearch fuel' heap key base l idx
            else if 0 <? c then bsearch fuel' heap key base (S idx) u
            else Some p
        end
      else None
  end.

(** ['pdfioFileFindObject()' - Find an object using its object number.] *)
Definition pdfioFileFindObject (pdf : pdfio_file_t) (number : Z)
    : option obj_ptr :=
  if (0 <? length (pdf_objs pdf))%nat then
    let key := mk_obj number 0 0 VNone 0 in
    bsearch (S (length (pdf_objs pdf))) (pdf_heap pdf) key (pdf_objs pdf)
      0%nat (length (pdf_objs pdf))
  else None.

(** ['pdfioFileGetNumObjects()'], ['pdfioFileGetObject()'] and
    ['pdfioFileGetVersion()'] on a handle that is not NULL. *)
Definition pdfioFileGetNumObjects (pdf : pdfio_file_t) : nat :=
  length (pdf_objs pdf).

Definition pdfioFileGetObject (pdf : pdfio_file_t) (n : nat)
    : option pdfio_obj_t :=
  if (length (pdf_objs pdf) <=? n)%nat then None
  else deref (pdf_heap pdf) <$> pdf_objs pdf !! n.


(** ['pdfioFileGetNumPages()'], ['pdfioFileGetPage()'] and
    ['pdfioFileGetID()'] on a handle that is not NULL.
    [pdfioDictGetArray] answers NULL for a dictionary that is NULL. *)
Definition pdfioFileGetNumPages (pdf : pdfio_file_t) : nat :=
  length (pdf_pages pdf).

Definition pdfioFileGetPage (pdf : pdfio_file_t) (n : nat)
    : option pdfio_obj_t :=
  if (length (pdf_pages pdf) <=? n)%nat then None
  else deref (pdf_heap pdf) <$> pdf_pages pdf !! n.

Definition pdfioFileGetID (pdf : pdfio_file_t) : option pdfio_array_t :=
  match pdf_trailer pdf with
  | Some trailer => pdfioDictGetArray trailer "ID"
  | None => None
  end.

(** [add_obj pdf number generation offset]: allocate the object, append
    its pointer to [objs], and re-sort when the tail is out of order.
    [calloc] and [realloc] are taken to succeed: the two branches that
    report a failed allocation and return NULL, and the branches of the
    callers that test for NULL, have no counterpart here. *)
Definition add_obj (number generation offset : Z) : M obj_ptr := fun pdf =>
  let obj := length (pdf_heap pdf) in
  let heap := pdf_heap pdf ++ [mk_obj number generation offset VNone 0] in
  let objs := pdf_objs pdf ++ [obj] in
  let num_objs := length objs in
  let resort :=
    (1 <? num_objs)%nat &&
    match objs !! (num_objs - 2)%nat with
    | Some q => number <? obj_number (deref heap q)
    | None => false
    end in
  Ret obj (set_index pdf heap (if resort then qsort heap objs else objs)).

(** [obj->value = v] and [obj->stream_offset = off]. *)
Definition set_obj_value (v : pdfio_value) (o : pdfio_obj_t) : pdfio_obj_t :=
  mk_obj (obj_number o) (obj_generation o) (obj_offset o) v
    (obj_stream_offset o).

Definition set_obj_stream_offset (off : Z) (o : pdfio_obj_t) : pdfio_obj_t :=
  mk_obj (obj_number o) (obj_generation o) (obj_offset o) (obj_value o) off.

Definition update_obj (obj : obj_ptr) (f : pdfio_obj_t -> pdfio_obj_t)
    : M unit :=
  modify (fun pdf => set_heap pdf (alter f obj (pdf_heap pdf))).

Definition is_VNone (v : pdfio_value) : bool :=
  match v with VNone => true | _ => false end.

(** [pdfioDictGetObject dict key] and [pdfioArrayGetObject a n]: the
    object an indirect reference names, by its number. *)
Definition value_object (pdf : pdfio_file_t) (v : option pdfio_value)
    : option obj_ptr :=
  match v with
  | Some (VIndirect number _) => pdfioFileFindObject pdf number
  | _ => None
  end.

Definition pdfioDictGetObject (pdf : pdfio_file_t) (d : option pdfio_dict_t)
    (key : string) : option obj_ptr :=
  match d with
  | Some dict => value_object pdf (_pdfioDictGetValue dict key)
  | None => None
  end.

Definition pdfioArrayGetObject (pdf : pdfio_file_t) (a : pdfio_array_t)
    (n : nat) : option obj_ptr :=
  value_object pdf (a !! n).

(** ** The resolver *)

Section Resolver.

Context {E : Externals}.

(** *** Objects and their streams *)

(** Modelled from the spec: a placeholder's value is materialised on
    demand (glossary), by [_pdfioObjLoad] of [pdfio-object.c], before its
    dictionary or its stream is used.  [false] when the load fails. *)
Definition load_value (obj : obj_ptr) : M bool :=
  pdf ← get;
  let o := deref (pdf_heap pdf) obj in
  if is_VNone (obj_value o) then
    match _pdfioObjLoad (pdf_data pdf) o with
    | Some (v, off) =>
        _ ← update_obj obj (fun o => set_obj_stream_offset off (set_obj_value v o));
        mret true
    | None => mret false
    end
  else mret true.

(** Modelled from the spec: [pdfioObjGetDict obj], the dictionary of
    the object or NULL. *)
Definition pdfioObjGetDict (obj : obj_ptr) : M (option pdfio_dict_t) :=
  loaded ← load_value obj;
  pdf ← get;
  match loaded, obj_value (deref (pdf_heap pdf) obj) with
  | true, VDict d => mret (Some d)
  | _, _ => mret None
  end.

(** Modelled from the spec: [pdfioObjOpenStream obj true], the decode
    pipeline of section 6.  The view it returns is the decoded payload
    that is left to read; the stream is recorded as open until
    [pdfioStreamClose]. *)
Definition pdfioObjOpenStream (obj : obj_ptr) : M (option (list ascii)) :=
  loaded ← load_value obj;
  pdf ← get;
  let o := deref (pdf_heap pdf) obj in
  match loaded, obj_value o with
  | true, VDict _ =>
      if obj_stream_offset o =? 0 then mret None
      else
        match _pdfioStreamOpen (pdf_data pdf) o with
        | Some payload =>
            _ ← modify (fun pdf => set_streams pdf (pdf_streams pdf ++ [obj]));
            mret (Some payload)
        | None => mret None
        end
  | _, _ => mret None
  end.

(** [l] without the first, and without the last, occurrence of [obj]. *)
Fixpoint remove_first (obj : obj_ptr) (l : list obj_ptr) : list obj_ptr :=
  match l with
  | [] => []
  | q :: r => if (q =? obj)%nat then r else q :: remove_first obj r
  end.

Definition remove_last (obj : obj_ptr) (l : list obj_ptr) : list obj_ptr :=
  rev (remove_first obj (rev l)).

Definition pdfioStreamClose (st : obj_ptr) : M unit :=
  modify (fun pdf => set_streams pdf (remove_last st (pdf_streams pdf))).

(** [pdfioStreamRead st buffer bytes]: the bytes read and the view that
    is left. *)
Definition pdfioStreamRead (st : list ascii) (bytes : nat)
    : list ascii * list ascii :=
  (take bytes st, drop bytes st).

(** *** ['load_obj_stream()' - Load an object stream.] *)

(** The first loop: the object numbers at the beginning of the stream.
    [room] is what is left of [objs[1000]]; the result is the token
    buffer and the reader as the loop leaves them, and the objects
    added. *)
Fixpoint read_numbers (st : obj_ptr) (room : nat) (tb : token_state)
    (buffer : list ascii) (objs : list obj_ptr)
    : M (list ascii * token_state * list obj_ptr) :=
  let '(more, buffer, tb) := _pdfioTokenGet tb buffer in
  if negb more then mret (buffer, tb, objs)
  else if negb (isdigit (code (char_at buffer 0))) then mret (buffer, tb, objs)
  else
    match room with
    | O =>
        _ ← _pdfioFileError too_many_objects;
        _ ← pdfioStreamClose st;
        fail
    | S room' =>
        obj ← add_obj (to_size_t (fst (strtoimax buffer))) 0 0;
        let '(_, buffer, tb) := _pdfioTokenGet tb buffer in
        read_numbers st room' tb buffer (objs ++ [obj])
    end.

(** The second loop: the objects themselves. *)
Fixpoint read_values (st : obj_ptr) (tb : token_state) (objs : list obj_ptr)
    : M unit :=
  match objs with
  | [] => mret tt
  | obj :: rest =>
      match _pdfioValueRead tb with
      | None => _ ← pdfioStreamClose st; fail
      | Some (v, tb) =>
          _ ← update_obj obj (set_obj_value v);
          read_values st tb rest
      end
  end.

(** [buffer[32]] is not initialised; it is taken to start empty. *)
Definition load_obj_stream (obj : obj_ptr) : M unit :=
  st ← pdfioObjOpenStream obj;
  match st with
  | None => error cannot_open_object_stream
  | Some payload =>
      let tb := _pdfioTokenInit_stream payload in
      '(buffer, tb, objs) ← read_numbers obj 1000 tb [] [];
      if bool_decide (cstr buffer = []) then
        _ ← pdfioStreamClose obj; fail
      else
        let tb := _pdfioTokenPush tb buffer in
        _ ← read_values obj tb objs;
        pdfioStreamClose obj
  end.

(** *** ['load_pages()' - Load pages in the document.] *)

Fixpoint load_pages (fuel : nat) (obj : option obj_ptr) : M unit :=
  match fuel with
  | O => fun _ => Hang
  | S fuel' =>
      match obj with
      | None => error no_pages_object
      | Some p =>
          dict ← pdfioObjGetDict p;
          match dict with
          | None => error no_pages_dict
          | Some dict =>
              match pdfioDictGetName dict "Type" with
              | None => fail
              | Some type =>
                  if negb (String.eqb type "Pages") && negb (String.eqb type "Page")
                  then fail
                  else
                    match pdfioDictGetArray dict "Kids" with
                    | Some kids =>
                        (fix kids_loop (i : list nat) : M unit :=
                           match i with
                           | [] => mret tt
                           | n :: rest =>
                               pdf ← get;
                               _ ← load_pages fuel' (pdfioArrayGetObject pdf kids n);
                               kids_loop rest
                           end) (seq 0 (pdfioArrayGetSize kids))
                    | None =>
                        modify (fun pdf => set_pages pdf (pdf_pages pdf ++ [p]))
                    end
              end
          end
      end
  end.

(** *** ['load_xref()' - Load an XREF table...] *)

(** **** Cross-reference stream *)

(** [buffer[i]] of [unsigned char buffer[32]]; a read outside the array
    (undefined in C) gives 0. *)
Definition buf_at (buffer : list Z) (i : Z) : Z :=
  if i <? 0 then 0 else nth (Z.to_nat i) buffer 0.

(** [for (i = 1, offset = buffer[w_2]; i < w[1]; i ++)
       offset = (offset << 8) | buffer[w_2 + i];]
    in [intmax_t]. *)
Definition field2 (buffer : list Z) (w_2 w1 : Z) : Z :=
  fold_left
    (fun offset i =>
       to_intmax (Z.lor (Z.shiftl offset 8) (buf_at buffer (w_2 + Z.of_nat i))))
    (seq 1 (Z.to_nat w1 - 1))
    (buf_at buffer w_2).

(** [switch (w[2])]. *)
Definition field3 (buffer : list Z) (w_3 w2 : Z) : Z :=
  if w2 =? 1 then buf_at buffer w_3
  else if w2 =? 2 then
    Z.lor (Z.shiftl (buf_at buffer w_3) 8) (buf_at buffer (w_3 + 1))
  else 0.

(** The list of object streams to load later: [sobjs[1000]] with
    [num_sobjs] entries in use. *)
Definition queue_parent (sobjs : list Z) (parent : Z) : list Z :=
  if negb (existsb (Z.eqb parent) sobjs) && (length sobjs <? 1000)%nat
  then sobjs ++ [parent]
  else sobjs.

(** The body of the [while (pdfioStreamRead (...) > 0)] loop for the
    record in [buffer]; [number] is incremented on every path.  The
    result is the list of object streams to load later. *)
Definition xref_record (w0 w1 w2 : Z) (buffer : list Z) (number : Z)
    (sobjs : list Z) : M (list Z) :=
  let w_2 := w0 in
  let w_3 := to_size_t (w0 + w1) in
  if (0 <? w0) && (buf_at buffer 0 =? 0) then
    mret sobjs                               (* Ignore free objects... *)
  else
    let offset := field2 buffer w_2 w1 in
    let generation := field3 buffer w_3 w2 in
    pdf ← get;
    match pdfioFileFindObject pdf (to_size_t number) with
    | Some _ => mret sobjs                   (* Don't replace newer object... *)
    | None =>
        if (0 <? w0) && (buf_at buffer 0 =? 2) then
          match pdfioFileFindObject pdf (to_size_t offset) with
          | Some obj => _ ← load_obj_stream obj; mret sobjs
          | None => mret (queue_parent sobjs (to_size_t offset))
          end
        else
          _ ← add_obj (to_size_t number) (to_ushort generation) offset;
          mret sobjs
    end.

Fixpoint xref_records (fuel : nat) (w0 w1 w2 : Z) (st : list ascii)
    (buffer : list Z) (number : Z) (sobjs : list Z) : M (list Z) :=
  match fuel with
  | O => fun _ => Hang
  | S fuel' =>
      let w_total := to_size_t (w0 + w1 + w2) in
      let '(got, st) := pdfioStreamRead st (Z.to_nat w_total) in
      if (length got =? 0)%nat then mret sobjs
      else
        let buffer := map code got ++ drop (length got) buffer in
        sobjs ← xref_record w0 w1 w2 buffer number sobjs;
        xref_records fuel' w0 w1 w2 st buffer (number + 1) sobjs
  end.

(** [// Load any object streams that are left...] *)
Fixpoint load_queued (sobjs : list Z) : M unit :=
  match sobjs with
  | [] => mret tt
  | parent :: rest =>
      pdf ← get;
      match pdfioFileFindObject pdf parent with
      | Some obj => _ ← load_obj_stream obj; load_queued rest
      | None => error dangling_object_stream
      end
  end.

(** [number], the first object number of the section, from /Index. *)
Definition xref_index (dict : pdfio_dict_t) : M Z :=
  match pdfioDictGetArray dict "Index" with
  | Some index_array =>
      if (2 <? length index_array)%nat then error unsupported_xref_index
      else mret (to_intmax (pdfioArrayGetNumber index_array 0))
  | None => mret 0
  end.

(** From the /W key to the end of the branch, for the stream object
    [obj] with dictionary [dict] and the first object number [number].
    [buffer[32]] is not initialised; it is taken to start as zeros. *)
Definition xref_stream_from (obj : obj_ptr) (dict : pdfio_dict_t)
    (number : Z) : M unit :=
  match pdfioDictGetArray dict "W" with
  | None => error missing_W
  | Some w_array =>
      let w0 := to_size_t (pdfioArrayGetNumber w_array 0) in
      let w1 := to_size_t (pdfioArrayGetNumber w_array 1) in
      let w2 := to_size_t (pdfioArrayGetNumber w_array 2) in
      let w_total := to_size_t (w0 + w1 + w2) in
      if (w1 =? 0) || (2 <? w2) || (32 <? w_total) then error invalid_W
      else
        st ← pdfioObjOpenStream obj;
        match st with
        | None => error cannot_open_xref_stream
        | Some payload =>
            sobjs ← xref_records (S (length payload)) w0 w1 w2 payload
                      (repeat 0 32) number [];
            _ ← pdfioStreamClose obj;
            load_queued sobjs
        end
  end.

Definition xref_stream_entries (obj : obj_ptr) (dict : pdfio_dict_t)
    : M unit :=
  number ← xref_index dict;
  xref_stream_from obj dict number.

(** The header line ["N G obj"]. *)
Definition xref_stream_header (line : list ascii) : M (Z * Z) :=
  let '(number, ptr) := strtoimax line in
  if number <? 1 then error malformed_xref_header
  else
    let '(g, ptr) := strtol ptr in
    let generation := to_int g in
    if (generation <? 0) || (65535 <? generation)
    then error malformed_xref_header
    else
      if negb (streq (skip_space ptr) (lit "obj"))
      then error malformed_xref_header
      else mret (number, generation).

(** From the header line to [obj->stream_offset = _pdfioFileTell (pdf)]:
    the stream object and its dictionary. *)
Definition xref_stream_object (line : list ascii) (xref_offset : Z)
    : M (obj_ptr * pdfio_dict_t) :=
  '(number, generation) ← xref_stream_header line;
  obj ← add_obj (to_size_t number) (to_ushort generation) xref_offset;
  pdf ← get;
  let tb := _pdfioTokenInit_file (pdf_data pdf) (pdf_pos pdf) in
  match _pdfioValueRead tb with
  | None => error bad_xref_dict
  | Some (VDict dict, tb) =>
      _ ← update_obj obj (set_obj_value (VDict dict));
      let '(more, line, tb) := _pdfioTokenGet tb line in
      if negb more || negb (streq line (lit "stream"))
      then error no_stream_after_dict
      else
        let tb := _pdfioTokenFlush tb in
        _ ← modify (fun pdf => set_pos pdf (_pdfioTokenTell tb));
        _ ← update_obj obj (set_obj_stream_offset (_pdfioTokenTell tb));
        mret (obj, dict)
  | Some (_, _) => error xref_not_dict
  end.

Definition load_xref_stream (line : list ascii) (xref_offset : Z)
    : M pdfio_dict_t :=
  '(obj, dict) ← xref_stream_object line xref_offset;
  _ ← xref_stream_entries obj dict;
  mret dict.

(** **** Classical table *)

Definition eol_ok (eol : list ascii) : bool :=
  streq eol [CR; LF] || streq eol [" "%char; LF] || streq eol [" "%char; CR].

(** The body of the [for (; num_objects > 0; ...)] loop: one entry of
    the table, for the object [number]. *)
Definition xref_entry (number : Z) : M unit :=
  line ← _pdfioFileRead 20;
  if negb (length line =? 20)%nat then fail
  else
    if negb (eol_ok (drop 18 line)) then error malformed_xref_entry
    else
      let line := take 18 line in
      let '(offset, ptr) := strtoimax line in
      if offset <? 0 then error malformed_xref_entry
      else
        let '(g, ptr) := strtol ptr in
        let generation := to_int g in
        if (generation <? 0) || (65535 <? generation)
        then error malformed_xref_entry
        else
          if negb (Ascii.eqb (char_at ptr 0) " ")
          then error malformed_xref_entry
          else
            let t := char_at ptr 1 in
            if negb (Ascii.eqb t "f") && negb (Ascii.eqb t "n")
            then error malformed_xref_entry
            else
              if Ascii.eqb t "f" then mret tt
              else
                pdf ← get;
                match pdfioFileFindObject pdf (to_size_t number) with
                | Some _ => mret tt
                | None =>
                    _ ← add_obj (to_size_t number) (to_ushort generation) offset;
                    mret tt
                end.

Fixpoint xref_group (fuel : nat) (number num_objects : Z) : M unit :=
  match fuel with
  | O => fun _ => Hang
  | S fuel' =>
      if 0 <? num_objects then
        _ ← xref_entry number;
        xref_group fuel' (number + 1) (num_objects - 1)
      else mret tt
  end.

(** The [while (_pdfioFileGets (...))] loop; the result is [line] as
    the loop leaves it. *)
Fixpoint xref_groups (fuel : nat) : M (list ascii) :=
  match fuel with
  | O => fun _ => Hang
  | S fuel' =>
      '(more, line) ← _pdfioFileGets 1024;
      if negb more then mret line
      else if streq line (lit "trailer") then mret line
      else
        match sscanf_jd_jd line with
        | None => error malformed_xref_section
        | Some (number, num_objects) =>
            pdf ← get;
            _ ← xref_group (S (length (pdf_data pdf))) number num_objects;
            xref_groups fuel'
        end
  end.

Definition load_xref_table : M pdfio_dict_t :=
  pdf ← get;
  line ← xref_groups (S (length (pdf_data pdf)));
  if negb (streq line (lit "trailer")) then error missing_trailer
  else
    pdf ← get;
    let tb := _pdfioTokenInit_file (pdf_data pdf) (pdf_pos pdf) in
    match _pdfioValueRead tb with
    | None => error bad_trailer
    | Some (VDict dict, tb) =>
        let tb := _pdfioTokenFlush tb in
        _ ← modify (fun pdf => set_pos pdf (_pdfioTokenTell tb));
        mret dict
    | Some (_, _) => error trailer_not_dict
    end.

(** **** The chain of sections *)

(** One turn of the [while (!done)] loop up to the trailer dictionary
    of the section at [xref_offset]. *)
Definition load_xref_section (xref_offset : Z) : M pdfio_dict_t :=
  pos ← _pdfioFileSeek_SET xref_offset;
  if negb (pos =? xref_offset) then error io_seek
  else
    '(more, line) ← _pdfioFileGets 1024;
    if negb more then error io_read_xref
    else
      if isdigit (code (char_at line 0)) && (4 <? strlen line)%nat
         && streq (drop (strlen line - 4) (cstr line)) (lit " obj")
      then load_xref_stream line xref_offset
      else if streq line (lit "xref") then load_xref_table
      else error malformed_xref_header.

Fixpoint load_xref_chain (fuel : nat) (xref_offset : Z) : M unit :=
  match fuel with
  | O => fun _ => Hang
  | S fuel' =>
      trailer ← load_xref_section xref_offset;
      pdf ← get;
      _ ← match pdf_trailer pdf with
          | None => modify (fun pdf => set_trailer pdf trailer)
          | Some _ => mret tt
          end;
      let xref_offset := pdfioDictGetNumber trailer "Prev" in
      if xref_offset <=? 0 then mret tt
      else load_xref_chain fuel' xref_offset
  end.

Definition load_xref (fuel : nat) (xref_offset : Z) : M unit :=
  _ ← load_xref_chain fuel xref_offset;
  pdf ← get;
  match pdfioDictGetObject pdf (pdf_trailer pdf) "Root" with
  | None => error missing_catalog
  | Some root =>
      let trailer := default [] (pdf_trailer pdf) in
      _ ← modify (fun pdf => set_root pdf (Some root));
      _ ← modify (fun pdf =>
            set_info pdf (pdfioDictGetObject pdf (Some trailer) "Info")
              (pdfioDictGetObject pdf (Some trailer) "Encrypt")
              (pdfioDictGetArray trailer "ID"));
      dict ← pdfioObjGetDict root;
      pdf ← get;
      load_pages fuel (pdfioDictGetObject pdf dict "Pages")
  end.

(** *** ['pdfioFileOpen()' - Open a PDF file for reading.] *)

Definition header_ok (line : list ascii) : bool :=
  (strneq line (lit "%PDF-1.") 7 || strneq line (lit "%PDF-2.") 7)
  && isdigit (code (char_at line 7)).

(** From [// Read the header from the first line...] to
    [return (pdf)]; [Fail] is [goto error]. *)
Definition read_file (fuel : nat) : M unit :=
  '(more, line) ← _pdfioFileGets 1024;
  if negb more then fail
  else
    if negb (header_ok line) then error bad_header
    else
      _ ← modify (fun pdf => set_version pdf (drop 5 (cstr line)));
      _ ← _pdfioFileSeek_END (-32);
      line ← _pdfioFileRead 32;
      if (length line <? 32)%nat then error io_startxref
      else
        match strstr (cstr line) (lit "startxref") with
        | None => error malformed_trailer
        | Some ptr =>
            let xref_offset := fst (strtol (drop 9 ptr)) in
            load_xref fuel xref_offset
        end.

(** What [pdfioFileOpen] returns.  [Null] carries the state of the
    structure when [pdfioFileClose] frees it, or of the dummy structure
    the callback was given: the messages reported and the streams that
    were still open are read from it. *)
Inductive open_result : Type :=
| Opened (pdf : pdfio_file_t)
| Null (last : pdfio_file_t)
| Running.

(** [filename] is NULL or a name; [file] is the content that
    [open (filename, O_RDONLY)] gives access to, if it succeeds. *)
Definition pdfioFileOpen (fuel : nat) (filename : option string)
    (file : option (list ascii)) : open_result :=
  match filename with
  | None => Null (new_pdf [])
  | Some _ =>
      match file with
      | None => Null (set_errors (new_pdf []) [cannot_open_file])
      | Some data =>
          match read_file fuel (new_pdf data) with
          | Ret _ pdf => Opened pdf
          | Fail pdf => Null pdf
          | Hang => Running
          end
      end
  end.

End Resolver.

(** ** The writer *)

(** [pdf->mode]. *)
Inductive _pdfio_mode_t : Type :=
| _PDFIO_MODE_READ
| _PDFIO_MODE_WRITE.

(** A [pdfio_file_t] with the two fields that [pdfioFileOpen] and
    [pdfioFileCreate] set once and the resolver never reads: [mode] and
    [filename].  For a file that is written, [pdf_data] is what has been
    written to it and [pdf_pos] is the position [_pdfioFileTell]
    answers. *)
Record pdfio_handle : Type := mk_handle {
  file_mode : _pdfio_mode_t;
  file_name : string;
  file_pdf : pdfio_file_t
}.

Definition with_pdf (h : pdfio_handle) (pdf : pdfio_file_t) : pdfio_handle :=
  mk_handle (file_mode h) (file_name h) pdf.

(** The handle [pdfioFileOpen (filename, ...)] returns with [pdf]. *)
Definition opened_handle (filename : string) (pdf : pdfio_file_t)
    : pdfio_handle :=
  mk_handle _PDFIO_MODE_READ filename pdf.

(** Modelled from the C library: [_pdfioFilePrintf (pdf, format, ...)]
    with the text [format] expands to.  Whether the write goes through is
    the environment's: [ok]. *)
Definition _pdfioFilePrintf (ok : bool) (text : list ascii)
    (pdf : pdfio_file_t) : bool * pdfio_file_t :=
  if ok then
    (true,
     mk_pdf (pdf_data pdf ++ text)
       (pdf_pos pdf + Z.of_nat (length text)) (pdf_version pdf)
       (pdf_heap pdf) (pdf_objs pdf) (pdf_trailer pdf) (pdf_root pdf)
       (pdf_info pdf) (pdf_encrypt pdf) (pdf_id_array pdf) (pdf_pages pdf)
       (pdf_errors pdf) (pdf_streams pdf))
  else (false, pdf).

Definition _pdfioFileTell (pdf : pdfio_file_t) : Z := pdf_pos pdf.

(** ['write_trailer()' - Write the PDF catalog object, xref table, and
    trailer.]  [// TODO: Write trailer] *)
Definition write_trailer (pdf : pdfio_handle) : bool := false.

(** ['pdfioFileClose()' - Close a PDF file and free all memory used for
    it.]  [closed] is whether [close (pdf->fd)] succeeds. *)
Definition pdfioFileClose (pdf : option pdfio_handle) (closed : bool) : bool :=
  match pdf with
  | None => false
  | Some h =>
      let ret :=
        match file_mode h with
        | _PDFIO_MODE_WRITE => write_trailer h
        | _PDFIO_MODE_READ => true
        end in
      if negb closed then false else ret
  end.

(** The two lines of the standard PDF header:
    ["%%PDF-%s\n%%\342\343\317\323\n"] with [version]. *)
Definition header_text (version : list ascii) : list ascii :=
  lit "%PDF-" ++ version ++ [LF] ++
  ["%"%char; ascii_of_nat 226; ascii_of_nat 227; ascii_of_nat 207;
   ascii_of_nat 211; LF].

Definition cannot_create_file : string := "Unable to create file.".
Definition missing_object_dictionary : string := "Missing object dictionary.".

(** What [pdfioFileCreate] returns: the handle, or NULL with the
    messages that were reported. *)
Inductive create_result : Type :=
| Created (pdf : pdfio_handle)
| NotCreated (errors : list string).

(** ['pdfioFileCreate()' - Create a PDF file.]  [created] is whether
    [open (filename, O_WRONLY | O_CREAT | O_TRUNC)] succeeds, [written]
    whether the header can be written, [closed] whether the file can be
    closed after a header that could not. *)
Definition pdfioFileCreate (filename : option string)
    (version : option (list ascii)) (created written closed : bool)
    : create_result :=
  match filename with
  | None => NotCreated []
  | Some filename =>
      let version := default (lit "2.0") version in
      let pdf :=
        mk_pdf [] 0 (Some (cstr version)) [] [] None None None None None
          [] [] [] in
      if negb created then NotCreated [cannot_create_file]
      else
        let '(ok, pdf) :=
          _pdfioFilePrintf written (header_text (cstr version)) pdf in
        let h := mk_handle _PDFIO_MODE_WRITE filename pdf in
        if negb ok then
          let _ := pdfioFileClose (Some h) closed in
          NotCreated (pdf_errors pdf)
        else Created h
  end.

(** ['pdfioFileCreateObject()' - Create a new object in a PDF file.]
    The result is the object or NULL, and the file after the call.  A
    dictionary is a value here and belongs to no file, so that
    [pdfioDictCopy] has nothing to do. *)
Definition pdfioFileCreateObject (pdf : option pdfio_handle)
    (dict : option pdfio_dict_t) : option obj_ptr * option pdfio_handle :=
  match pdf, dict with
  | None, _ => (None, None)
  | Some h, None =>
      let f := file_pdf h in
      (None,
       Some (with_pdf h
               (set_errors f (pdf_errors f ++ [missing_object_dictionary]))))
  | Some h, Some dict =>
      match file_mode h with
      | _PDFIO_MODE_READ => (None, Some h)
      | _PDFIO_MODE_WRITE =>
          let f := file_pdf h in
          let obj := length (pdf_heap f) in
          let objs := pdf_objs f ++ [obj] in
          let o :=
            mk_obj (Z.of_nat (length objs)) 0 (_pdfioFileTell f) (VDict dict)
              0 in
          (Some obj, Some (with_pdf h (set_index f (pdf_heap f ++ [o]) objs)))
      end
  end.

(** ['pdfioFileCreatePage()' - Create a page in a PDF file.]
    [// TODO: Implement me] *)
Definition pdfioFileCreatePage (pdf : option pdfio_handle)
    (dict : option pdfio_dict_t) : option obj_ptr :=
  None.

(** ['pdfioFileGetName()' - Get a PDF's filename.] *)
Definition pdfioFileGetName (pdf : option pdfio_handle) : option string :=
  file_name <$> pdf.

(** ** A reference implementation of the external collaborators *)

(** A small token reader, value reader, object loader and decode
    pipeline, on which the resolver can be run on the bytes of a file.
    Tokens are separated by white space; a dictionary is [<< /Key value
    ... >>], an array [[ value ... ]], a reference [N G R]; a stream has
    no filter and its payload is the [/Length] bytes after the line of
    the [stream] keyword. *)
Module Reference.

Record tokens : Type := mk_tokens {
  tk_rest : list ascii;            (* what is left to read *)
  tk_pos : Z;                      (* the offset of [tk_rest] *)
  tk_stack : list (list ascii)     (* tokens pushed back *)
}.

Definition white (c : ascii) : bool := isspace (code c) || Ascii.eqb c NUL.

(** The rest of [s] after its leading white space, and the number of
    characters skipped. *)
Fixpoint skip_white (s : list ascii) : list ascii * Z :=
  match s with
  | c :: r => if white c then let '(r', n) := skip_white r in (r', n + 1)
              else (s, 0)
  | [] => ([], 0)
  end.

(** The token at the head of [s], the rest, and the length of the
    token. *)
Fixpoint word (s : list ascii) : list ascii * list ascii * Z :=
  match s with
  | c :: r => if white c then ([], s, 0)
              else let '(w, r', n) := word r in (c :: w, r', n + 1)
  | [] => ([], [], 0)
  end.

Definition advance (tb : tokens) (rest : list ascii) (n : Z) : tokens :=
  mk_tokens rest (tk_pos tb + n) (tk_stack tb).

Definition token_get (tb : tokens) (buffer : list ascii)
    : bool * list ascii * tokens :=
  match tk_stack tb with
  | t :: stack => (true, t, mk_tokens (tk_rest tb) (tk_pos tb) stack)
  | [] =>
      match skip_white (tk_rest tb) with
      | ([], n) => (false, buffer, advance tb [] n)
      | (s, n) => let '(w, r, m) := word s in (true, w, advance tb r (n + m))
      end
  end.

Definition token_push (tb : tokens) (t : list ascii) : tokens :=
  mk_tokens (tk_rest tb) (tk_pos tb) (t :: tk_stack tb).

(** The rest of [s] after the white space up to and including the next
    end of line, and the number of characters dropped. *)
Fixpoint flush_line (s : list ascii) : list ascii * Z :=
  match s with
  | c :: r =>
      if Ascii.eqb c LF then (r, 1)
      else if Ascii.eqb c CR then
        match r with
        | c' :: r' => if Ascii.eqb c' LF then (r', 2) else (r, 1)
        | [] => ([], 1)
        end
      else if white c then let '(r', n) := flush_line r in (r', n + 1)
      else (s, 0)
  | [] => ([], 0)
  end.

Definition token_flush (tb : tokens) : tokens :=
  let '(rest, n) := flush_line (tk_rest tb) in advance tb rest n.

Definition is_tok (t : list ascii) (s : string) : bool :=
  bool_decide (t = lit s).

(** A token that is a whole decimal number. *)
Definition number_of_token (t : list ascii) : option Z :=
  let '(neg, s) := sign t in
  match s with
  | c :: _ =>
      if isdigit (code c) then
        match digits 0 s with
        | (n, []) => Some (if neg then - n else n)
        | _ => None
        end
      else None
  | [] => None
  end.

Fixpoint value_read (fuel : nat) (tb : tokens)
    : option (pdfio_value * tokens) :=
  match fuel with
  | O => None
  | S fuel' =>
      let '(more, t, tb) := token_get tb [] in
      if negb more then None
      else if is_tok t "<<" then dict_items fuel' tb []
      else if is_tok t "[" then array_items fuel' tb []
      else if is_tok t "null" then Some (VNull, tb)
      else if is_tok t "true" then Some (VBool true, tb)
      else if is_tok t "false" then Some (VBool false, tb)
      else
        match t with
        | "/"%char :: name => Some (VName (string_of_list_ascii name), tb)
        | _ =>
            match number_of_token t with
            | None => None
            | Some n =>
                let '(more2, t2, tb2) := token_get tb [] in
                if negb more2 then Some (VNumber n, tb2)
                else
                  match number_of_token t2 with
                  | None => Some (VNumber n, token_push tb2 t2)
                  | Some g =>
                      let '(more3, t3, tb3) := token_get tb2 [] in
                      if more3 && is_tok t3 "R" then Some (VIndirect n g, tb3)
                      else
                        let tb3 := if more3 then token_push tb3 t3 else tb3 in
                        Some (VNumber n, token_push tb3 t2)
                  end
            end
        end
  end
with dict_items (fuel : nat) (tb : tokens) (acc : pdfio_dict_t)
    : option (pdfio_value * tokens) :=
  match fuel with
  | O => None
  | S fuel' =>
      let '(more, t, tb) := token_get tb [] in
      if negb more then None
      else if is_tok t ">>" then Some (VDict acc, tb)
      else
        match t with
        | "/"%char :: key =>
            match value_read fuel' tb with
            | Some (v, tb) =>
                dict_items fuel' tb (acc ++ [(string_of_list_ascii key, v)])
            | None => None
            end
        | _ => None
        end
  end
with array_items (fuel : nat) (tb : tokens) (acc : pdfio_array_t)
    : option (pdfio_value * tokens) :=
  match fuel with
  | O => None
  | S fuel' =>
      let '(more, t, tb) := token_get tb [] in
      if negb more then None
      else if is_tok t "]" then Some (VArray acc, tb)
      else
        match value_read fuel' (token_push tb t) with
        | Some (v, tb) => array_items fuel' tb (acc ++ [v])
        | None => None
        end
  end.

(** Values of up to 1000 tokens are read. *)
Definition value_read_all (tb : tokens) : option (pdfio_value * tokens) :=
  value_read 1000 tb.

(** The object at [obj_offset]: [N G obj], a value, and maybe
    [stream]. *)
Definition obj_load (data : list ascii) (o : pdfio_obj_t)
    : option (pdfio_value * Z) :=
  if obj_offset o <? 0 then None
  else
    let tb := mk_tokens (drop (Z.to_nat (obj_offset o)) data) (obj_offset o) [] in
    let '(_, n, tb) := token_get tb [] in
    let '(_, g, tb) := token_get tb [] in
    let '(_, kw, tb) := token_get tb [] in
    if bool_decide (number_of_token n = Some (obj_number o)) && is_tok kw "obj"
    then
      match value_read_all tb with
      | Some (v, tb) =>
          let '(more, t, tb) := token_get tb [] in
          if more && is_tok t "stream"
          then Some (v, tk_pos (token_flush tb))
          else Some (v, 0)
      | None => None
      end
    else None.

Definition stream_open (data : list ascii) (o : pdfio_obj_t)
    : option (list ascii) :=
  match obj_value o with
  | VDict d =>
      match _pdfioDictGetValue d "Filter" with
      | Some _ => None
      | None =>
          Some (take (Z.to_nat (pdfioDictGetNumber d "Length"))
                  (drop (Z.to_nat (obj_stream_offset o)) data))
      end
  | _ => None
  end.

#[global] Instance externals : Externals := {|
  token_state := tokens;
  _pdfioTokenInit_file := fun data pos =>
    mk_tokens (drop (Z.to_nat pos) data) pos [];
  _pdfioTokenInit_stream := fun payload => mk_tokens payload 0 [];
  _pdfioTokenGet := token_get;
  _pdfioTokenPush := token_push;
  _pdfioTokenFlush := token_flush;
  _pdfioTokenTell := tk_pos;
  _pdfioValueRead := value_read_all;
  _pdfioObjLoad := obj_load;
  _pdfioStreamOpen := stream_open
|}.

(** Writing files. *)
Definition ln (s : string) : list ascii := lit s ++ [LF].
Definition bytes (l : list Z) : list ascii :=
  map (fun z => ascii_of_N (Z.to_N z)) l.
Definition offset_of (prefix : list ascii) : Z := Z.of_nat (length prefix).

End Reference.

Module Examples.
Import Reference.

(** Scenario S1: three objects and a classical table at offset 164. *)
Definition classic_file : list ascii :=
  ln "%PDF-1.4" ++
  ln "1 0 obj << /Type /Catalog /Pages 2 0 R >> endobj" ++
  ln "2 0 obj << /Type /Pages /Kids [ 3 0 R ] /Count 1 >> endobj" ++
  ln "3 0 obj << /Type /Page /Parent 2 0 R >> endobj" ++
  ln "xref" ++
  ln "0 4" ++
  ln "0000000000 65535 f " ++
  ln "0000000009 00000 n " ++
  ln "0000000058 00000 n " ++
  ln "0000000117 00000 n " ++
  ln "trailer" ++
  ln "<< /Size 4 /Root 1 0 R >>" ++
  ln "startxref" ++
  ln "164" ++
  ln "%%EOF".


(** Object 4 was rewritten as an object of its own (offset 181) while
    the object stream 2 (offset 58) still carries its old copy, next to
    object 5.  The cross-reference stream is object 3 (offset 225):
    object 0 is free, 1 to 4 are at file offsets, 5 is in stream 2. *)
Definition stale_copy_file : list ascii :=
  ln "%PDF-1.5" ++
  ln "1 0 obj << /Type /Catalog /Pages 4 0 R >> endobj" ++
  ln "2 0 obj << /Type /ObjStm /N 2 /First 9 /Length 45 >> stream" ++
  lit "4 0 5 18 << /Type /Page >> << /Type /Font >> " ++ ln "" ++
  ln "endstream endobj" ++
  ln "4 0 obj << /Type /Page /Rotate 90 >> endobj" ++
  ln "3 0 obj" ++
  ln "<< /Type /XRef /Size 6 /W [ 1 2 1 ] /Root 1 0 R /Length 24 >>" ++
  ln "stream" ++
  bytes [0;0;0;0;  1;0;9;0;  1;0;58;0;  1;0;225;0;  1;0;181;0;  2;0;2;1] ++
  ln "" ++
  ln "endstream endobj" ++
  ln "startxref" ++
  ln "225" ++
  ln "%%EOF".

(** Objects 3 and 4 are named by the cross-reference stream (object 6,
    offset 191) as compressed in the object stream 5 (offset 91), which
    comes later in the table and carries object 3 only. *)
Definition forward_parent_file : list ascii :=
  ln "%PDF-1.5" ++
  ln "1 0 obj << /Type /Catalog /Pages 2 0 R >> endobj" ++
  ln "2 0 obj << /Type /Page >> endobj" ++
  ln "5 0 obj << /Type /ObjStm /N 1 /First 4 /Length 22 >> stream" ++
  lit "3 0 << /Type /Font >> " ++ ln "" ++
  ln "endstream endobj" ++
  ln "6 0 obj" ++
  ln "<< /Type /XRef /Size 7 /W [ 1 1 1 ] /Root 1 0 R /Length 21 >>" ++
  ln "stream" ++
  bytes [0;0;0;  1;9;0;  1;58;0;  2;5;0;  2;5;1;  1;91;0;  1;191;0] ++
  ln "" ++
  ln "endstream endobj" ++
  ln "startxref" ++
  ln "191" ++
  ln "%%EOF".

(** A classical table (offset 9) that announces one entry; the file
    ends 18 bytes after the subsection header. *)
Definition truncated_table_file : list ascii :=
  ln "%PDF-1.4" ++
  ln "xref" ++
  ln "0 1" ++
  ln "startxref" ++
  ln "9" ++
  ln "%%EOF".

(** The cross-reference stream (object 3, offset 58) names object 2 as
    compressed in object 1, which is the catalog and has no stream. *)
Definition bad_parent_file : list ascii :=
  ln "%PDF-1.5" ++
  ln "1 0 obj << /Type /Catalog /Pages 2 0 R >> endobj" ++
  ln "3 0 obj" ++
  ln "<< /Type /XRef /Size 4 /W [ 1 1 1 ] /Root 1 0 R /Length 9 >>" ++
  ln "stream" ++
  bytes [0;0;0;  1;9;0;  2;1;0] ++
  ln "" ++
  ln "endstream endobj" ++
  ln "startxref" ++
  ln "58" ++
  ln "%%EOF".

(** Two classical tables: [startxref] gives the one at offset 91, whose
    /Prev is the one at offset 164, further down the file (as in a
    linearized file, whose first-page table precedes the main one). *)
Definition forward_prev_file : list ascii :=
  ln "%PDF-1.4" ++
  ln "1 0 obj << /Type /Catalog /Pages 2 0 R >> endobj" ++
  ln "2 0 obj << /Type /Page >> endobj" ++
  ln "xref" ++
  ln "1 1" ++
  ln "0000000009 00000 n " ++
  ln "trailer" ++
  ln "<< /Size 3 /Root 1 0 R /Prev 164 >>" ++
  ln "xref" ++
  ln "2 1" ++
  ln "0000000058 00000 n " ++
  ln "trailer" ++
  ln "<< /Size 3 /Root 1 0 R >>" ++
  ln "startxref" ++
  ln "91" ++
  ln "%%EOF".

(** A cross-reference stream (object 1, offset 9) whose widths are
    2^63, 2^63 and 0.  The same object serves as catalog and page. *)
Definition wide_fields_file : list ascii :=
  ln "%PDF-1.5" ++
  ln "1 0 obj" ++
  ln "<< /Type /Page /W [ 9223372036854775808 9223372036854775808 0 ] /Root 1 0 R /Pages 1 0 R /Length 3 >>" ++
  ln "stream" ++
  bytes [1;9;0] ++
  ln "" ++
  ln "endstream endobj" ++
  ln "startxref" ++
  ln "9" ++
  ln "%%EOF".


(** Decimal and big-endian writing, for files with many objects. *)
Definition digit (n : nat) : ascii := ascii_of_nat (48 + n mod 10).
Definition dec (width n : nat) : list ascii :=
  rev (map (fun i => digit (n / 10 ^ i)) (seq 0 width)).
Definition be (width : nat) (n : Z) : list Z :=
  rev (map (fun i => (n / 256 ^ Z.of_nat i) mod 256) (seq 0 width)).

(** A file with 1001 compressed objects, each in an object stream of
    its own.  The cross-reference stream (object 1, at offset 65165) names
    the objects [k] = 2 .. 1002 as compressed in the object streams
    1001 + [k], which come later in the table, at the offsets
    100 + 65 ([k] - 2); the catalog is object 2004 and the page object
    2005.  The object streams 1003 and 2003 carry their object (2 and
    1002); the others are empty. *)
Definition crowded_parent (k : nat) : list ascii :=
  dec 4 (1001 + k) ++ ln " 0 obj << /Length 12 >> stream" ++
  (if (k =? 2)%nat || (k =? 1002)%nat then dec 4 k ++ lit " 0 null "
   else lit "null        ") ++
  ln "" ++ ln "endstream endobj".

Definition crowded_records : list Z :=
  [0; 0; 0; 0; 0] ++
  [1] ++ be 3 65165 ++ [0] ++
  flat_map (fun k => [2] ++ be 3 (Z.of_nat (1001 + k)) ++ [0]) (seq 2 1001) ++
  flat_map (fun k => [1] ++ be 3 (100 + 65 * Z.of_nat (k - 2)) ++ [0])
    (seq 2 1001) ++
  [1; 0; 0; 9; 0] ++ [1; 0; 0; 64; 0].

Definition crowded_file : list ascii :=
  ln "%PDF-1.5" ++
  ln "2004 0 obj << /Type /Catalog /Pages 2005 0 R >> endobj" ++
  ln "2005 0 obj << /Type /Page >> endobj" ++
  flat_map crowded_parent (seq 2 1001) ++
  ln "1 0 obj" ++
  ln "<< /Type /XRef /Size 2006 /W [ 1 3 1 ] /Root 2004 0 R /Length 10030 >>" ++
  ln "stream" ++
  bytes crowded_records ++
  ln "" ++
  ln "endstream endobj" ++
  ln "startxref" ++
  ln "65165" ++
  ln "%%EOF".

(** An object stream (object 5, at offset 0) whose header has 1001
    pairs, for the objects 1001 .. 2001. *)
Definition long_header_file : list ascii :=
  ln "5 0 obj << /Length 7012 >> stream" ++
  flat_map (fun k => dec 4 (1000 + k) ++ lit " 0 ") (seq 1 1001) ++
  lit "null " ++
  ln "" ++
  ln "endstream endobj".

End Examples.

(** * Properties *)

(** ** Relations that every step of the resolver respects *)

(** A relation between the state before and the state after, that holds
    across a change of the read position, of the messages reported and of
    the streams open, across [add_obj], and across a write to an object
    that leaves its number, its generation and its offset alone. *)
Class Frame (R : relation pdfio_file_t) : Prop := {
  frame_refl pdf : R pdf pdf;
  frame_trans pdf1 pdf2 pdf3 : R pdf1 pdf2 -> R pdf2 pdf3 -> R pdf1 pdf3;
  frame_pos pdf pos : R pdf (set_pos pdf pos);
  frame_errors pdf errs : R pdf (set_errors pdf errs);
  frame_streams pdf sts : R pdf (set_streams pdf sts);
  frame_add_obj pdf number generation offset obj pdf' :
    add_obj number generation offset pdf = Ret obj pdf' -> R pdf pdf';
  frame_update pdf obj f :
    (forall o, obj_number (f o) = obj_number o /\
               obj_generation (f o) = obj_generation o /\
               obj_offset (f o) = obj_offset o) ->
    R pdf (set_heap pdf (alter f obj (pdf_heap pdf)))
}.

(** One that also holds across the write of the chain loop of
    [load_xref]: the composite trailer. *)
Class FrameChain (R : relation pdfio_file_t) : Prop := {
  frame_chain_frame :: Frame R;
  frame_trailer pdf d : R pdf (set_trailer pdf d)
}.

(** One that also holds across the writes that end [load_xref]: the
    catalog and the other objects the trailer names, and a page added
    to the list of pages. *)
Class FrameXref (R : relation pdfio_file_t) : Prop := {
  frame_xref_chain :: FrameChain R;
  frame_root pdf r : R pdf (set_root pdf r);
  frame_info pdf i e ids : R pdf (set_info pdf i e ids);
  frame_pages pdf p : R pdf (set_pages pdf (pdf_pages pdf ++ [p]))
}.

(** One that holds across the whole of [pdfioFileOpen], which writes the
    version as well. *)
Class FrameOpen (R : relation pdfio_file_t) : Prop := {
  frame_open_xref :: FrameXref R;
  frame_version pdf v : R pdf (set_version pdf v)
}.

Definition keeps (R : relation pdfio_file_t) {A : Type} (m : M A) : Prop :=
  forall pdf,
    match m pdf with
    | Ret _ pdf' | Fail pdf' => R pdf pdf'
    | Hang => True
    end.

(** The bytes of the file, the version and the composite trailer are
    written by [pdfioFileOpen] and by the chain loop of [load_xref] only. *)
Definition same_file (pdf pdf' : pdfio_file_t) : Prop :=
  pdf_data pdf' = pdf_data pdf /\
  pdf_version pdf' = pdf_version pdf /\
  pdf_trailer pdf' = pdf_trailer pdf.

(** The bytes of the file and the version are left alone by [load_xref]
    as a whole. *)
Definition same_source (pdf pdf' : pdfio_file_t) : Prop :=
  pdf_data pdf' = pdf_data pdf /\ pdf_version pdf' = pdf_version pdf.

#[global] Instance same_file_frame : Frame same_file.
Proof.
  split; try (intros; repeat split; fail).
  - intros pdf1 pdf2 pdf3 (D1 & V1 & T1) (D2 & V2 & T2).
    repeat split; congruence.
  - intros pdf number generation offset obj pdf'. unfold add_obj.
    intros [= <- <-]. repeat split.
Qed.

#[global] Instance same_source_frame : FrameXref same_source.
Proof.
  split; [split; [split |..] |..]; try (intros; split; reflexivity).
  - intros pdf1 pdf2 pdf3 (D1 & V1) (D2 & V2). split; congruence.
  - intros pdf number generation offset obj pdf'. unfold add_obj.
    intros [= <- <-]. split; reflexivity.
Qed.

(** Unfold the plumbing of [M]. *)
Ltac munfold :=
  unfold error, _pdfioFileError, update_obj, mbind, M_bind, mret, M_ret, get,
    modify, fail in *.

Section Frames.

Context {E : Externals} (R : relation pdfio_file_t) {HR : Frame R}.

Lemma keeps_ret {A} (a : A) : keeps R (mret a).
Proof. intros pdf. apply frame_refl. Qed.

Lemma keeps_fail {A} : keeps R (@fail A).
Proof. intros pdf. apply frame_refl. Qed.

Lemma keeps_get : keeps R get.
Proof. intros pdf. apply frame_refl. Qed.

Lemma keeps_hang {A} : keeps R (fun _ => @Hang A).
Proof. intros pdf. exact I. Qed.

Lemma keeps_bind {A B} (m : M A) (k : A -> M B) :
  keeps R m -> (forall a, keeps R (k a)) -> keeps R (m ≫= k).
Proof.
  intros Hm Hk pdf. specialize (Hm pdf).
  unfold mbind, M_bind. destruct (m pdf) as [a pdf1 | pdf1 |]; auto.
  specialize (Hk a pdf1). destruct (k a pdf1); auto;
    eapply frame_trans; eauto.
Qed.

Lemma keeps_modify (f : pdfio_file_t -> pdfio_file_t) :
  (forall pdf, R pdf (f pdf)) -> keeps R (modify f).
Proof. intros Hf pdf. apply Hf. Qed.

Lemma keeps_report msg : keeps R (_pdfioFileError msg).
Proof. apply keeps_modify. intros pdf. apply frame_errors. Qed.

Lemma keeps_error {A} msg : keeps R (@error A msg).
Proof.
  unfold error. apply keeps_bind; [apply keeps_report | intros; apply keeps_fail].
Qed.

Lemma keeps_seek_set offset : keeps R (_pdfioFileSeek_SET offset).
Proof.
  intros pdf. unfold _pdfioFileSeek_SET.
  destruct (offset <? 0); [apply frame_refl | apply frame_pos].
Qed.

Lemma keeps_seek_end offset : keeps R (_pdfioFileSeek_END offset).
Proof.
  intros pdf. unfold _pdfioFileSeek_END.
  destruct (_ <? 0); [apply frame_refl | apply frame_pos].
Qed.

Lemma keeps_read bytes : keeps R (_pdfioFileRead bytes).
Proof. intros pdf. apply frame_pos. Qed.

Lemma keeps_gets bufsize : keeps R (_pdfioFileGets bufsize).
Proof.
  intros pdf. unfold _pdfioFileGets.
  destruct (gets_scan _ _) as [[eol l] n]. apply frame_pos.
Qed.

Lemma keeps_add_obj number generation offset :
  keeps R (add_obj number generation offset).
Proof.
  intros pdf. destruct (add_obj number generation offset pdf) eqn:Hadd;
    try discriminate.
  eapply frame_add_obj; eauto.
Qed.

Lemma keeps_update_obj obj f :
  (forall o, obj_number (f o) = obj_number o /\
             obj_generation (f o) = obj_generation o /\
             obj_offset (f o) = obj_offset o) ->
  keeps R (update_obj obj f).
Proof. intros Hf pdf. by apply frame_update. Qed.

Lemma keeps_close st : keeps R (pdfioStreamClose st).
Proof. intros pdf. apply frame_streams. Qed.

Create HintDb keeps.
Hint Resolve keeps_ret keeps_fail keeps_get keeps_hang keeps_report
  keeps_error keeps_seek_set keeps_seek_end keeps_read keeps_gets
  keeps_add_obj keeps_close : keeps.

(** One step of a proof that a block respects [R]: split a bind, or take
    a [match], an [if] or a [let] of the block apart. *)
Ltac keeps_step :=
  match goal with
  | |- keeps _ (_ ≫= _) => apply keeps_bind; [| intros]
  | |- keeps _ (let '(_, _) := ?x in _) => destruct x
  | |- keeps _ (match ?x with _ => _ end) => destruct x
  | |- keeps _ (if ?b then _ else _) => destruct b
  | |- keeps _ (update_obj _ _) =>
      apply keeps_update_obj; intros; repeat split
  | |- keeps _ (modify (fun pdf => set_streams pdf _)) =>
      apply keeps_modify; intros; apply frame_streams
  | |- keeps _ (modify (fun pdf => set_pos pdf _)) =>
      apply keeps_modify; intros; apply frame_pos
  | |- keeps _ _ => solve [eauto with keeps]
  end.

Ltac keeps_auto := repeat keeps_step.

Lemma keeps_load_value obj : keeps R (load_value obj).
Proof. unfold load_value. keeps_auto. Qed.
Hint Resolve keeps_load_value : keeps.

Lemma keeps_get_dict obj : keeps R (pdfioObjGetDict obj).
Proof. unfold pdfioObjGetDict. keeps_auto. Qed.

Lemma keeps_open_stream obj : keeps R (pdfioObjOpenStream obj).
Proof. unfold pdfioObjOpenStream. keeps_auto. Qed.
Hint Resolve keeps_get_dict keeps_open_stream : keeps.

Lemma keeps_read_numbers st room :
  forall tb buffer objs, keeps R (read_numbers st room tb buffer objs).
Proof.
  induction room as [| room IH]; intros tb buffer objs; simpl; keeps_auto.
Qed.

Lemma keeps_read_values st :
  forall objs tb, keeps R (read_values st tb objs).
Proof.
  induction objs as [| obj objs IH]; intros tb; simpl; keeps_auto.
Qed.
Hint Resolve keeps_read_numbers keeps_read_values : keeps.

Lemma keeps_load_obj_stream obj : keeps R (load_obj_stream obj).
Proof. unfold load_obj_stream. keeps_auto. Qed.
Hint Resolve keeps_load_obj_stream : keeps.

Lemma keeps_xref_record w0 w1 w2 buffer number sobjs :
  keeps R (xref_record w0 w1 w2 buffer number sobjs).
Proof. unfold xref_record. keeps_auto. Qed.
Hint Resolve keeps_xref_record : keeps.

Lemma keeps_xref_records fuel w0 w1 w2 :
  forall st buffer number sobjs,
    keeps R (xref_records fuel w0 w1 w2 st buffer number sobjs).
Proof.
  induction fuel as [| fuel IH]; intros; simpl; keeps_auto.
Qed.

Lemma keeps_load_queued sobjs : keeps R (load_queued sobjs).
Proof. induction sobjs as [| parent rest IH]; simpl; keeps_auto. Qed.
Hint Resolve keeps_xref_records keeps_load_queued : keeps.

Lemma keeps_xref_stream_entries obj dict :
  keeps R (xref_stream_entries obj dict).
Proof.
  unfold xref_stream_entries, xref_index, xref_stream_from. keeps_auto.
Qed.

Lemma keeps_xref_stream_object line xref_offset :
  keeps R (xref_stream_object line xref_offset).
Proof.
  unfold xref_stream_object, xref_stream_header. keeps_auto.
Qed.
Hint Resolve keeps_xref_stream_entries keeps_xref_stream_object : keeps.

Lemma keeps_xref_entry number : keeps R (xref_entry number).
Proof. unfold xref_entry. keeps_auto. Qed.
Hint Resolve keeps_xref_entry : keeps.

Lemma keeps_xref_group fuel :
  forall number num_objects, keeps R (xref_group fuel number num_objects).
Proof. induction fuel as [| fuel IH]; intros; simpl; keeps_auto. Qed.
Hint Resolve keeps_xref_group : keeps.

Lemma keeps_xref_groups fuel : keeps R (xref_groups fuel).
Proof. induction fuel as [| fuel IH]; simpl; keeps_auto. Qed.
Hint Resolve keeps_xref_groups : keeps.

Lemma keeps_load_xref_section xref_offset :
  keeps R (load_xref_section xref_offset).
Proof.
  unfold load_xref_section, load_xref_stream, load_xref_table. keeps_auto.
Qed.

End Frames.

Section FramesChain.

Context {E : Externals} (R : relation pdfio_file_t) {HR : FrameChain R}.

Ltac bind := apply (keeps_bind R); [| intros].
Ltac write := apply (keeps_modify R); intros.

Lemma keeps_load_xref_chain fuel :
  forall xref_offset, keeps R (load_xref_chain fuel xref_offset).
Proof.
  induction fuel as [| fuel IH]; intros xref_offset; simpl;
    [apply (keeps_hang R) |].
  bind; [apply (keeps_load_xref_section R) |].
  bind; [apply (keeps_get R) |].
  bind.
  - destruct (pdf_trailer _); [apply (keeps_ret R) |].
    write. apply frame_trailer.
  - destruct (_ <=? 0); [apply (keeps_ret R) | apply IH].
Qed.

End FramesChain.

Section FramesXref.

Context {E : Externals} (R : relation pdfio_file_t) {HR : FrameXref R}.

Ltac bind := apply (keeps_bind R); [| intros].
Ltac write := apply (keeps_modify R); intros.

Lemma keeps_load_pages fuel : forall obj, keeps R (load_pages fuel obj).
Proof.
  induction fuel as [| fuel IH]; intros obj; simpl; [apply (keeps_hang R) |].
  destruct obj as [p |]; [| apply (keeps_error R)].
  bind; [apply (keeps_get_dict R) |].
  match goal with |- keeps R (match ?d with _ => _ end) =>
    destruct d as [dict |] end; [| apply (keeps_error R)].
  destruct (pdfioDictGetName dict "Type"); [| apply (keeps_fail R)].
  destruct (_ && _); [apply (keeps_fail R) |].
  destruct (pdfioDictGetArray dict "Kids") as [kids |].
  - generalize (seq 0 (pdfioArrayGetSize kids)).
    intros ks; induction ks as [| k ks IHks]; [apply (keeps_ret R) |].
    bind; [apply (keeps_get R) |].
    bind; [apply IH | apply IHks].
  - write. apply frame_pages.
Qed.

Lemma keeps_load_xref fuel xref_offset : keeps R (load_xref fuel xref_offset).
Proof.
  unfold load_xref.
  bind; [apply (keeps_load_xref_chain R) |].
  bind; [apply (keeps_get R) |].
  destruct (pdfioDictGetObject _ _ "Root") as [root |];
    [| apply (keeps_error R)].
  bind; [write; apply frame_root |].
  bind; [write; apply frame_info |].
  bind; [apply (keeps_get_dict R) |].
  bind; [apply (keeps_get R) |].
  apply keeps_load_pages.
Qed.

End FramesXref.

Section FramesOpen.

Context {E : Externals} (R : relation pdfio_file_t) {HR : FrameOpen R}.

Ltac bind := apply (keeps_bind R); [| intros].
Ltac write := apply (keeps_modify R); intros.

Lemma keeps_read_file fuel : keeps R (read_file fuel).
Proof.
  unfold read_file.
  bind; [apply (keeps_gets R) |].
  match goal with |- keeps _ (let '(_, _) := ?x in _) => destruct x end.
  destruct (negb _); [apply (keeps_fail R) |].
  destruct (negb _); [apply (keeps_error R) |].
  bind; [write; apply frame_version |].
  bind; [apply (keeps_seek_end R) |].
  bind; [apply (keeps_read R) |].
  destruct (_ <? 32)%nat; [apply (keeps_error R) |].
  destruct (strstr _ _); [apply (keeps_load_xref R) | apply (keeps_error R)].
Qed.

End FramesOpen.

Section ResolverFacts.

Context {E : Externals}.

(** [_pdfioFileError (pdf, msg)] on a state. *)
Definition reported (pdf : pdfio_file_t) (msg : string) : pdfio_file_t :=
  set_errors pdf (pdf_errors pdf ++ [msg]).


(** *** The header line *)

Lemma cstr_app_lit pre rest s :
  cstr s = pre ++ rest -> take (length pre) (cstr s) = pre.
Proof. intros ->. by rewrite take_app_length. Qed.






(** *** The chain of sections and the composite trailer *)

(** [pdf->trailer] after a section whose dictionary is [trailer]. *)
Definition retain_trailer (pdf : pdfio_file_t) (trailer : pdfio_dict_t)
    : pdfio_file_t :=
  match pdf_trailer pdf with
  | None => set_trailer pdf trailer
  | Some _ => pdf
  end.

(** [walk xref_offset pdf sections pdf']: starting at [xref_offset] in
    state [pdf] the sections loaded are [sections], each with its offset
    and its trailer dictionary, and the loop ends in state [pdf'].  The
    offset of a section that is not the first is the /Prev of the one
    before it, which is positive; the /Prev of the last section is
    absent (read as 0) or not positive. *)
Inductive walk : Z -> pdfio_file_t -> list (Z * pdfio_dict_t) ->
                 pdfio_file_t -> Prop :=
| walk_last xref_offset pdf trailer pdf1 :
    load_xref_section xref_offset pdf = Ret trailer pdf1 ->
    pdfioDictGetNumber trailer "Prev" <= 0 ->
    walk xref_offset pdf [(xref_offset, trailer)] (retain_trailer pdf1 trailer)
| walk_prev xref_offset pdf trailer pdf1 sections pdf' :
    load_xref_section xref_offset pdf = Ret trailer pdf1 ->
    0 < pdfioDictGetNumber trailer "Prev" ->
    walk (pdfioDictGetNumber trailer "Prev") (retain_trailer pdf1 trailer)
      sections pdf' ->
    walk xref_offset pdf ((xref_offset, trailer) :: sections) pdf'.

Lemma chain_step fuel xref_offset pdf :
  load_xref_chain (S fuel) xref_offset pdf =
  match load_xref_section xref_offset pdf with
  | Ret trailer pdf1 =>
      if pdfioDictGetNumber trailer "Prev" <=? 0
      then Ret tt (retain_trailer pdf1 trailer)
      else load_xref_chain fuel (pdfioDictGetNumber trailer "Prev")
             (retain_trailer pdf1 trailer)
  | Fail pdf1 => Fail pdf1
  | Hang => Hang
  end.
Proof.
  simpl. munfold.
  destruct (load_xref_section xref_offset pdf) as [trailer pdf1 | |]; auto.
  unfold retain_trailer.
  destruct (pdf_trailer pdf1); simpl; destruct (_ <=? 0); reflexivity.
Qed.

Lemma chain_walk fuel :
  forall xref_offset pdf pdf',
    load_xref_chain fuel xref_offset pdf = Ret tt pdf' ->
    exists sections,
      walk xref_offset pdf sections pdf' /\ (length sections <= fuel)%nat.
Proof.
  induction fuel as [| fuel IH]; intros xref_offset pdf pdf' H;
    [discriminate |].
  rewrite chain_step in H.
  destruct (load_xref_section xref_offset pdf) as [trailer pdf1 | |] eqn:Hs;
    try discriminate.
  destruct (pdfioDictGetNumber trailer "Prev" <=? 0) eqn:Hp.
  - inversion H; subst. exists [(xref_offset, trailer)]. split.
    + apply walk_last; [exact Hs | lia].
    + simpl. lia.
  - apply IH in H as (sections & Hw & Hl).
    exists ((xref_offset, trailer) :: sections). split.
    + eapply walk_prev; eauto. lia.
    + simpl. lia.
Qed.

Lemma walk_chain xref_offset pdf sections pdf' :
  walk xref_offset pdf sections pdf' ->
  forall fuel, (length sections <= fuel)%nat ->
    load_xref_chain fuel xref_offset pdf = Ret tt pdf'.
Proof.
  induction 1 as [xref_offset pdf trailer pdf1 Hs Hp
                 | xref_offset pdf trailer pdf1 sections pdf' Hs Hp Hw IH];
    intros fuel Hf; (destruct fuel as [| fuel]; [simpl in Hf; lia |]);
    rewrite chain_step, Hs.
  - destruct (_ <=? 0) eqn:Hc; [reflexivity | lia].
  - destruct (_ <=? 0) eqn:Hc; [lia |]. apply IH. simpl in Hf. lia.
Qed.

Lemma walk_keeps_trailer xref_offset pdf sections pdf' :
  walk xref_offset pdf sections pdf' ->
  forall t, pdf_trailer pdf = Some t -> pdf_trailer pdf' = Some t.
Proof.
  induction 1 as [xref_offset pdf trailer pdf1 Hs Hp
                 | xref_offset pdf trailer pdf1 sections pdf' Hs Hp Hw IH];
    intros t Ht;
    pose proof (keeps_load_xref_section same_file xref_offset pdf) as Hk;
    rewrite Hs in Hk; destruct Hk as (_ & _ & Hk); rewrite Ht in Hk.
  - unfold retain_trailer. by rewrite Hk.
  - apply IH. unfold retain_trailer. by rewrite Hk.
Qed.

(** C5, as the code has it.  When the chain loop ends, the sections it
    loaded are linked by their /Prev entries, the loop having stopped at
    the first section whose /Prev is absent or not positive, and the
    composite trailer is the dictionary of the first section, the one at
    the offset that follows [startxref].  Conversely a chain of sections
    so linked is walked to its end, given fuel for its length. *)
Theorem composite_trailer_is_first fuel xref_offset pdf pdf' :
  pdf_trailer pdf = None ->
  load_xref_chain fuel xref_offset pdf = Ret tt pdf' ->
  exists first rest,
    walk xref_offset pdf ((xref_offset, first) :: rest) pdf' /\
    pdf_trailer pdf' = Some first /\
    (forall sections pdf'' fuel',
       walk xref_offset pdf sections pdf'' ->
       (length sections <= fuel')%nat ->
       load_xref_chain fuel' xref_offset pdf = Ret tt pdf'').
Proof.
  intros Hnone Hchain.
  apply chain_walk in Hchain as (sections & Hw & _).
  assert (Hfirst : exists first rest pdf1,
             sections = (xref_offset, first) :: rest /\
             load_xref_section xref_offset pdf = Ret first pdf1 /\
             pdf_trailer (retain_trailer pdf1 first) = Some first).
  { pose proof (keeps_load_xref_section same_file xref_offset pdf) as Hk.
    inversion Hw as [o p trailer pdf1 Hs Hp | o p trailer pdf1 ss p' Hs Hp Hw'];
      subst; rewrite Hs in Hk; destruct Hk as (_ & _ & Hk);
      rewrite Hnone in Hk; eexists _, _, pdf1; (split; [reflexivity |]);
      (split; [exact Hs |]); unfold retain_trailer; by rewrite Hk. }
  destruct Hfirst as (first & rest & pdf1 & -> & Hs & Hr).
  exists first, rest. split; [exact Hw |]. split.
  - inversion Hw as [o p trailer pdf1' Hs' Hp | o p trailer pdf1' ss p' Hs' Hp Hw'];
      subst; rewrite Hs in Hs'; inversion Hs'; subst; [exact Hr |].
    eapply walk_keeps_trailer; eauto.
  - intros sections pdf'' fuel' Hw' Hl. eapply walk_chain; eauto.
Qed.

(** *** Cross-reference streams: /Index *)



(** *** Classical tables: one entry *)

Definition entry_eol (eol : list ascii) : Prop :=
  eol = [CR; LF] \/ eol = [" "%char; LF] \/ eol = [" "%char; CR].

Lemma eol_ok_spec eol :
  length eol = 2%nat -> eol_ok eol = true <-> entry_eol eol.
Proof.
  destruct eol as [| a [| b [| ? ?]]]; try discriminate. intros _.
  unfold eol_ok, entry_eol, streq. rewrite !orb_true_iff, !bool_decide_eq_true.
  simpl.
  destruct (Ascii.eqb_spec a NUL) as [-> | Ha];
    [split; [intros [[H | H] | H]; discriminate H
            | intros [H | [H | H]]; discriminate H] |].
  destruct (Ascii.eqb_spec b NUL) as [-> | Hb];
    [split; [intros [[H | H] | H]; discriminate H
            | intros [H | [H | H]]; discriminate H] |].
  tauto.
Qed.

Lemma to_ushort_small g : 0 <= g <= 65535 -> to_ushort g = g.
Proof.
  intros H. unfold to_ushort, wrap_unsigned.
  apply Z.mod_small. change (2 ^ 16) with 65536. lia.
Qed.

(** The fields of an entry as the loader reads them: the offset, the
    generation, the character after the generation, and the type
    character that follows it. *)
Definition entry_offset (entry : list ascii) : Z :=
  fst (strtoimax (take 18 entry)).
Definition entry_generation (entry : list ascii) : Z :=
  to_int (fst (strtol (snd (strtoimax (take 18 entry))))).
Definition entry_separator (entry : list ascii) : ascii :=
  char_at (snd (strtol (snd (strtoimax (take 18 entry))))) 0.
Definition entry_type (entry : list ascii) : ascii :=
  char_at (snd (strtol (snd (strtoimax (take 18 entry))))) 1.

Definition entry_well_formed (entry : list ascii) : Prop :=
  entry_eol (drop 18 entry) /\
  0 <= entry_offset entry /\
  0 <= entry_generation entry <= 65535 /\
  entry_separator entry = " "%char /\
  (entry_type entry = "f"%char \/ entry_type entry = "n"%char).

(** An entry of 20 bytes as the loader reads it.  It is accepted only
    if its last two characters are CR LF, SP LF or SP CR, its offset and
    its generation parse and are in range, and the character after the
    generation is a space followed by [f] or [n]; any other entry of 20
    bytes fails with one malformed-xref report.  An accepted entry of
    type [f] is skipped; one of type [n] whose object number
    [pdfioFileFindObject] finds is skipped; otherwise [add_obj] inserts
    a placeholder with the offset and the generation parsed. *)
Lemma xref_entry_reading number pdf :
  let entry := take 20 (drop (Z.to_nat (pdf_pos pdf)) (pdf_data pdf)) in
  let pdf1 := set_pos pdf (pdf_pos pdf + 20) in
  length entry = 20%nat ->
  (~ entry_well_formed entry ->
   xref_entry number pdf = Fail (reported pdf1 malformed_xref_entry)) /\
  (entry_well_formed entry ->
   entry_eol (drop 18 entry) /\
   (entry_type entry = "f"%char \/ entry_type entry = "n"%char) /\
   (entry_type entry = "f"%char -> xref_entry number pdf = Ret tt pdf1) /\
   (entry_type entry = "n"%char ->
    match pdfioFileFindObject pdf1 (to_size_t number) with
    | Some _ => xref_entry number pdf = Ret tt pdf1
    | None =>
        xref_entry number pdf =
        (add_obj (to_size_t number) (entry_generation entry)
           (entry_offset entry) ≫= fun _ => mret tt) pdf1
    end)).
Proof.
  intros entry pdf1 Hlen.
  unfold xref_entry. munfold. unfold _pdfioFileRead. fold entry.
  rewrite Hlen. change (Z.of_nat 20) with 20. fold pdf1.
  { rewrite Nat.eqb_refl. simpl negb. cbv iota.
    assert (Heol : length (drop 18 entry) = 2%nat)
      by (rewrite length_drop, Hlen; reflexivity).
    pose proof (eol_ok_spec _ Heol) as Hspec.
    unfold entry_well_formed, entry_offset, entry_generation,
      entry_separator, entry_type.
    destruct (strtoimax (take 18 entry)) as [offset p1]. cbn [fst snd].
    destruct (strtol p1) as [g p2]. cbn [fst snd].
    destruct (eol_ok (drop 18 entry)) eqn:He; cbn [negb].
    2: { split; [reflexivity |]. intros (H & _).
         apply Hspec in H. discriminate. }
    destruct (offset <? 0) eqn:Ho.
    { split; [reflexivity |]. intros (_ & H & _). lia. }
    destruct ((to_int g <? 0) || (65535 <? to_int g)) eqn:Hg.
    { split; [reflexivity |]. intros (_ & _ & H & _).
      apply orb_true_iff in Hg. lia. }
    apply orb_false_iff in Hg as [Hg1 Hg2].
    destruct (Ascii.eqb_spec (char_at p2 0) " ") as [Hsp | Hsp]; cbn [negb].
    2: { split; [reflexivity |]. intros (_ & _ & _ & H & _). contradiction. }
    destruct (Ascii.eqb_spec (char_at p2 1) "f") as [Hf | Hf];
      destruct (Ascii.eqb_spec (char_at p2 1) "n") as [Hn | Hn];
      cbn [negb andb].
    + rewrite Hf in Hn. discriminate.
    + split; [intros H; exfalso; apply H; repeat split; auto; try lia;
              by apply Hspec |].
      intros _. split; [by apply Hspec |]. split; [auto |]. split; [auto |].
      intros H. congruence.
    + split; [intros H; exfalso; apply H; repeat split; auto; try lia;
              by apply Hspec |].
      intros _. split; [by apply Hspec |]. split; [auto |].
      split; [intros H; congruence |]. intros _.
      rewrite to_ushort_small by lia.
      destruct (pdfioFileFindObject pdf1 (to_size_t number)); reflexivity.
    + split; [reflexivity |]. intros (_ & _ & _ & _ & [H | H]); contradiction. }
Qed.


(** *** The Object Index under [add_obj] *)

Lemma qsort_insert_perm heap p l : Permutation (qsort_insert heap p l) (p :: l).
Proof.
  induction l as [| q r IH]; simpl; [reflexivity |].
  destruct (_ <=? 0); [reflexivity |].
  rewrite IH. apply perm_swap.
Qed.

Lemma qsort_perm heap l : Permutation (qsort heap l) l.
Proof.
  induction l as [| p l IH]; simpl; [reflexivity |].
  rewrite qsort_insert_perm. by constructor.
Qed.

(** [grows pdf news pdf']: [pdf'] is [pdf] with the objects [news]
    allocated after those of [pdf] and their pointers added to the
    index; nothing else differs. *)
Definition grows (pdf : pdfio_file_t) (news : list pdfio_obj_t)
    (pdf' : pdfio_file_t) : Prop :=
  pdf' = set_index pdf (pdf_heap pdf ++ news) (pdf_objs pdf') /\
  Permutation (pdf_objs pdf')
    (pdf_objs pdf ++ seq (length (pdf_heap pdf)) (length news)).

Lemma grows_nil pdf : grows pdf [] pdf.
Proof.
  split; [destruct pdf; simpl; by rewrite app_nil_r |].
  simpl. by rewrite app_nil_r.
Qed.

Lemma add_obj_grows number generation offset pdf :
  exists pdf',
    add_obj number generation offset pdf = Ret (length (pdf_heap pdf)) pdf' /\
    grows pdf [mk_obj number generation offset VNone 0] pdf'.
Proof.
  unfold add_obj. eexists. split; [reflexivity |]. split; [reflexivity |].
  simpl. destruct (_ && _); [apply qsort_perm | reflexivity].
Qed.

Lemma grows_trans pdf1 news1 pdf2 news2 pdf3 :
  grows pdf1 news1 pdf2 -> grows pdf2 news2 pdf3 ->
  grows pdf1 (news1 ++ news2) pdf3.
Proof.
  intros [E1 P1] [E2 P2]. split.
  - rewrite E2. rewrite E1 at 1 2. simpl. by rewrite app_assoc.
  - rewrite P2, P1. rewrite E1 at 1. simpl.
    rewrite !length_app, seq_app, app_assoc. reflexivity.
Qed.

(** What [bsearch] finds is in the index and has the number asked for. *)
Lemma bsearch_sound fuel heap key base :
  forall l u p,
    bsearch fuel heap key base l u = Some p ->
    p ∈ base /\ obj_number (deref heap p) = obj_number key.
Proof.
  induction fuel as [| fuel IH]; intros l u p; cbn [bsearch]; [discriminate |].
  destruct (l <? u)%nat; [| discriminate].
  destruct (base !! ((l + u) / 2)%nat) as [q |] eqn:Hq; [| discriminate].
  unfold compare_objs.
  destruct (obj_number key <? obj_number (deref heap q)) eqn:H1; cbn [Z.ltb Z.compare].
  { apply IH. }
  destruct (obj_number key =? obj_number (deref heap q)) eqn:H2; cbn [Z.ltb Z.compare].
  - intros [= <-]. split; [by eapply list_elem_of_lookup_2 |].
    apply Z.eqb_eq in H2. congruence.
  - apply IH.
Qed.

Lemma find_object_sound pdf number p :
  pdfioFileFindObject pdf number = Some p ->
  p ∈ pdf_objs pdf /\ obj_number (deref (pdf_heap pdf) p) = number.
Proof.
  unfold pdfioFileFindObject. destruct (0 <? _)%nat; [| discriminate].
  intros H. by apply bsearch_sound in H.
Qed.

(** *** The Object Index stays sorted *)

(** The object numbers in the order of the index. *)
Definition index_numbers (pdf : pdfio_file_t) : list Z :=
  map (fun p => obj_number (deref (pdf_heap pdf) p)) (pdf_objs pdf).

(** The pointers of the index are allocated and the numbers do not
    decrease along it. *)
Definition index_ok (pdf : pdfio_file_t) : Prop :=
  Forall (fun p => (p < length (pdf_heap pdf))%nat) (pdf_objs pdf) /\
  Sorted Z.le (index_numbers pdf).

Lemma compare_objs_le a b :
  (compare_objs a b <=? 0) = (obj_number a <=? obj_number b).
Proof.
  unfold compare_objs.
  destruct (obj_number a <? obj_number b) eqn:H1; [simpl; symmetry; lia |].
  destruct (obj_number a =? obj_number b) eqn:H2; simpl; symmetry; lia.
Qed.

Lemma qsort_insert_sorted heap p l :
  Sorted Z.le (map (fun p => obj_number (deref heap p)) l) ->
  Sorted Z.le (map (fun p => obj_number (deref heap p)) (qsort_insert heap p l)).
Proof.
  induction l as [| q r IH]; simpl; intros Hs; [repeat constructor |].
  rewrite compare_objs_le.
  destruct (obj_number (deref heap p) <=? obj_number (deref heap q)) eqn:Hle;
    simpl.
  - constructor; [exact Hs |]. constructor. lia.
  - inversion Hs as [| ? ? Hr Hhd]; subst.
    constructor; [by apply IH |].
    destruct r as [| q' r']; simpl.
    + constructor. lia.
    + rewrite compare_objs_le.
      destruct (obj_number (deref heap p) <=? obj_number (deref heap q'));
        simpl; constructor; [lia | by inversion Hhd].
Qed.

Lemma qsort_sorted heap l :
  Sorted Z.le (map (fun p => obj_number (deref heap p)) (qsort heap l)).
Proof.
  induction l as [| p l IH]; simpl; [constructor |].
  by apply qsort_insert_sorted.
Qed.

Lemma deref_app heap news p :
  (p < length heap)%nat -> deref (heap ++ news) p = deref heap p.
Proof. intros H. unfold deref. by rewrite lookup_app_l. Qed.

(** [add_obj] keeps the index sorted by object number; it does not keep
    the numbers apart. *)
Lemma add_obj_index_ok number generation offset pdf obj pdf' :
  index_ok pdf ->
  add_obj number generation offset pdf = Ret obj pdf' ->
  index_ok pdf'.
Proof.
  intros [Hvalid Hsorted]. unfold add_obj. intros [= <- <-].
  set (new := mk_obj number generation offset VNone 0).
  set (heap' := pdf_heap pdf ++ [new]).
  assert (Hvalid' : Forall (fun p => (p < length heap')%nat)
                      (pdf_objs pdf ++ [length (pdf_heap pdf)])).
  { apply Forall_app. subst heap'. rewrite length_app. simpl. split.
    - eapply Forall_impl; [exact Hvalid |]. simpl. intros. lia.
    - repeat constructor. lia. }
  assert (Hkeys : map (fun p => obj_number (deref heap' p))
                    (pdf_objs pdf ++ [length (pdf_heap pdf)]) =
                  index_numbers pdf ++ [number]).
  { rewrite map_app. simpl. f_equal.
    - unfold index_numbers. apply map_ext_Forall.
      eapply Forall_impl; [exact Hvalid |]. simpl. intros p Hp.
      subst heap'. by rewrite deref_app.
    - unfold deref. subst heap'.
      rewrite lookup_app_r, Nat.sub_diag by lia. reflexivity. }
  unfold index_ok, index_numbers. simpl. fold new. fold heap'.
  match goal with |- context [if ?c then _ else _] => destruct c eqn:Hresort end.
  - split; [| apply qsort_sorted].
    rewrite qsort_perm. exact Hvalid'.
  - split; [exact Hvalid' |]. rewrite Hkeys.
    apply Sorted_snoc; [exact Hsorted |].
    unfold index_numbers.
    destruct (pdf_objs pdf) as [| p0 l0 _] using rev_ind; [constructor |].
    rewrite map_app. simpl. constructor.
    rewrite !length_app in Hresort. simpl in Hresort.
    replace (length l0 + 1 + 1 - 2)%nat with (length l0) in Hresort by lia.
    rewrite <- app_assoc in Hresort. simpl in Hresort.
    rewrite lookup_app_r, Nat.sub_diag in Hresort by lia. simpl in Hresort.
    replace (1 <? length l0 + 1 + 1)%nat with true in Hresort
      by (symmetry; apply Nat.ltb_lt; lia).
    simpl in Hresort. apply Z.ltb_ge in Hresort.
    apply Forall_app in Hvalid as [_ Hp0]. inversion Hp0; subst.
    fold new in Hresort. fold heap' in Hresort.
    subst heap'. rewrite deref_app in Hresort by assumption. exact Hresort.
Qed.

Lemma sorted_lookup (l : list Z) :
  Sorted Z.le l ->
  forall i j x y,
    (i <= j)%nat -> l !! i = Some x -> l !! j = Some y -> x <= y.
Proof.
  intros Hs. apply Sorted_StronglySorted in Hs; [| intros ? ? ?; lia].
  induction Hs as [| a l Hs IH Hall]; intros i j x y Hij Hi Hj;
    [discriminate |].
  destruct i as [| i], j as [| j]; simpl in *; try lia.
  - inversion Hi; inversion Hj; subst. lia.
  - inversion Hi; subst. rewrite Forall_forall in Hall.
    apply Hall. by eapply list_elem_of_lookup_2.
  - eapply IH; [| exact Hi | exact Hj]. lia.
Qed.

(** On a sorted index [bsearch] finds every number that is there. *)
Lemma bsearch_complete heap key base :
  Sorted Z.le (map (fun p => obj_number (deref heap p)) base) ->
  forall fuel l u,
    (u <= length base)%nat ->
    (u - l < fuel)%nat ->
    (exists i p, (l <= i < u)%nat /\ base !! i = Some p /\
                 obj_number (deref heap p) = obj_number key) ->
    bsearch fuel heap key base l u <> None.
Proof.
  intros Hs. induction fuel as [| fuel IH]; intros l u Hu Hf (i & p & Hi & Hp & Hk);
    [lia |].
  cbn [bsearch].
  destruct (l <? u)%nat eqn:Hlu; [| apply Nat.ltb_ge in Hlu; lia].
  apply Nat.ltb_lt in Hlu.
  assert (Hmid : (l <= (l + u) / 2 < u)%nat).
  { split; [apply Nat.div_le_lower_bound; lia
           | apply Nat.Div0.div_lt_upper_bound; lia]. }
  destruct (base !! ((l + u) / 2)%nat) as [q |] eqn:Hq;
    [| apply lookup_ge_None in Hq; lia].
  assert (Hord : forall a b x y, (a <= b)%nat -> base !! a = Some x ->
             base !! b = Some y ->
             obj_number (deref heap x) <= obj_number (deref heap y)).
  { intros a b x y Hab Ha Hb.
    eapply (sorted_lookup _ Hs a b); [exact Hab | |];
      rewrite list_lookup_fmap; [rewrite Ha | rewrite Hb]; reflexivity. }
  unfold compare_objs.
  destruct (obj_number key <? obj_number (deref heap q)) eqn:H1; cbn [Z.ltb Z.compare].
  - apply IH; [lia | lia |]. exists i, p. split; [| auto].
    split; [lia |].
    destruct (Nat.lt_ge_cases i ((l + u) / 2)) as [Hlt | Hge]; [exact Hlt |].
    pose proof (Hord _ _ _ _ Hge Hq Hp). apply Z.ltb_lt in H1. lia.
  - destruct (obj_number key =? obj_number (deref heap q)) eqn:H2;
      cbn [Z.ltb Z.compare]; [discriminate |].
    apply IH; [lia | lia |]. exists i, p. split; [| auto].
    split; [| lia].
    destruct (Nat.lt_ge_cases ((l + u) / 2) i) as [Hlt | Hge]; [exact Hlt |].
    pose proof (Hord _ _ _ _ Hge Hp Hq).
    apply Z.ltb_ge in H1. apply Z.eqb_neq in H2. lia.
Qed.

(** On an index that [add_obj] built, [pdfioFileFindObject] agrees with
    a linear scan: it finds a number exactly when a record of the index
    has it. *)
Lemma find_object_scan pdf number :
  index_ok pdf ->
  pdfioFileFindObject pdf number <> None <-> number ∈ index_numbers pdf.
Proof.
  intros [_ Hs]. unfold index_numbers in *. split.
  - destruct (pdfioFileFindObject pdf number) as [p |] eqn:Hf; [| congruence].
    intros _. apply find_object_sound in Hf as [Hin Hn].
    apply list_elem_of_fmap. exists p. split; [by symmetry | exact Hin].
  - intros Hin. apply list_elem_of_fmap in Hin as (p & Hn & Hin).
    apply list_elem_of_lookup in Hin as [i Hi].
    unfold pdfioFileFindObject.
    destruct (0 <? length (pdf_objs pdf))%nat eqn:Hlen.
    + apply bsearch_complete; [exact Hs | lia | lia |].
      exists i, p. split; [| split; [exact Hi | by symmetry]].
      apply lookup_lt_Some in Hi. lia.
    + apply Nat.ltb_ge in Hlen. apply lookup_lt_Some in Hi. lia.
Qed.

(** *** Object streams *)

Lemma remove_last_app obj l : remove_last obj (l ++ [obj]) = l.
Proof.
  unfold remove_last. rewrite rev_app_distr. simpl.
  rewrite Nat.eqb_refl. apply rev_involutive.
Qed.

(** The header of an object stream, as the first loop reads it from the
    reader [tb] with [buffer] in the token buffer: pairs of a token that
    starts with a digit (the object number) and any token (the offset,
    which is skipped), up to the first token that does not start with a
    digit or to the end of the tokens.  [nums] are the number tokens;
    [buffer'] and [tb'] are the token buffer and the reader at the
    end. *)
Inductive header : token_state -> list ascii -> list (list ascii) ->
                   list ascii -> token_state -> Prop :=
| header_end tb buffer more buffer' tb' :
    _pdfioTokenGet tb buffer = (more, buffer', tb') ->
    more = false \/ isdigit (code (char_at buffer' 0)) = false ->
    header tb buffer [] buffer' tb'
| header_pair tb buffer num tb1 more off tb2 nums buffer' tb' :
    _pdfioTokenGet tb buffer = (true, num, tb1) ->
    isdigit (code (char_at num 0)) = true ->
    _pdfioTokenGet tb1 num = (more, off, tb2) ->
    header tb2 off nums buffer' tb' ->
    header tb buffer (num :: nums) buffer' tb'.

(** A header with more than [room] pairs. *)
Inductive crowded : token_state -> list ascii -> nat -> Prop :=
| crowded_full tb buffer num tb1 :
    _pdfioTokenGet tb buffer = (true, num, tb1) ->
    isdigit (code (char_at num 0)) = true ->
    crowded tb buffer 0
| crowded_pair tb buffer num tb1 more off tb2 room :
    _pdfioTokenGet tb buffer = (true, num, tb1) ->
    isdigit (code (char_at num 0)) = true ->
    _pdfioTokenGet tb1 num = (more, off, tb2) ->
    crowded tb2 off room ->
    crowded tb buffer (S room).

(** The values read one after the other from [tb]. *)
Inductive values : token_state -> list pdfio_value -> Prop :=
| values_nil tb : values tb []
| values_cons tb v tb' vs :
    _pdfioValueRead tb = Some (v, tb') ->
    values tb' vs ->
    values tb (v :: vs).

(** The object number a header token declares, and the record
    [load_obj_stream] makes for it. *)
Definition declared (num : list ascii) : Z := to_size_t (fst (strtoimax num)).
Definition placeholder (num : list ascii) : pdfio_obj_t :=
  mk_obj (declared num) 0 0 VNone 0.
Definition expanded (num : list ascii) (v : pdfio_value) : pdfio_obj_t :=
  mk_obj (declared num) 0 0 v 0.

Lemma read_numbers_header st tb buffer nums buffer' tb' :
  header tb buffer nums buffer' tb' ->
  forall room objs pdf,
    (length nums <= room)%nat ->
    exists pdf',
      read_numbers st room tb buffer objs pdf =
        Ret (buffer', tb', objs ++ seq (length (pdf_heap pdf)) (length nums)) pdf'
      /\ grows pdf (map placeholder nums) pdf'.
Proof.
  induction 1 as [tb buffer more buffer' tb' Hget Hstop
                 | tb buffer num tb1 more off tb2 nums buffer' tb'
                     Hget Hdigit Hskip Hrest IH];
    intros room objs pdf Hroom.
  - exists pdf. split; [| apply grows_nil].
    simpl. rewrite app_nil_r.
    destruct room; simpl; rewrite Hget;
      (destruct Hstop as [-> | Hd]; [reflexivity |]);
      (destruct more; [rewrite Hd |]; reflexivity).
  - destruct room as [| room]; [simpl in Hroom; lia |].
    simpl. rewrite Hget, Hdigit. simpl. munfold.
    destruct (add_obj_grows (declared num) 0 0 pdf) as (pdf1 & Hadd & Hg1).
    fold (declared num). rewrite Hadd, Hskip.
    destruct (IH room (objs ++ [length (pdf_heap pdf)]) pdf1) as (pdf' & Hrd & Hg2);
      [simpl in Hroom; lia |].
    exists pdf'. split.
    + rewrite Hrd. f_equal. f_equal.
      destruct Hg1 as [E1 _]. rewrite E1. simpl.
      rewrite length_app. simpl. rewrite <- app_assoc. simpl.
      by rewrite Nat.add_1_r.
    + change (placeholder num :: map placeholder nums)
        with ([placeholder num] ++ map placeholder nums).
      eapply grows_trans; eauto.
Qed.

Lemma read_numbers_crowded st tb buffer room :
  crowded tb buffer room ->
  forall objs pdf,
    exists pdf',
      read_numbers st room tb buffer objs pdf = Fail pdf' /\
      pdf_errors pdf' = pdf_errors pdf ++ [too_many_objects] /\
      pdf_streams pdf' = remove_last st (pdf_streams pdf).
Proof.
  induction 1 as [tb buffer num tb1 Hget Hdigit
                 | tb buffer num tb1 more off tb2 room Hget Hdigit Hskip Hrest IH];
    intros objs pdf.
  - simpl. rewrite Hget, Hdigit. simpl. munfold. unfold pdfioStreamClose.
    munfold. eexists. split; [reflexivity |]. split; reflexivity.
  - simpl. rewrite Hget, Hdigit. simpl. munfold.
    destruct (add_obj_grows (declared num) 0 0 pdf) as (pdf1 & Hadd & [E1 _]).
    fold (declared num). rewrite Hadd, Hskip.
    destruct (IH (objs ++ [length (pdf_heap pdf)]) pdf1) as (pdf' & Hrd & He & Hs).
    exists pdf'. split; [exact Hrd |].
    rewrite He, Hs, E1. split; reflexivity.
Qed.

(** The heap after the values [vs] were stored through the pointers
    [objs]. *)
Definition store_values (heap : list pdfio_obj_t) (objs : list obj_ptr)
    (vs : list pdfio_value) : list pdfio_obj_t :=
  fold_left (fun h pv => alter (set_obj_value (snd pv)) (fst pv) h)
    (zip objs vs) heap.

Lemma read_values_spec st tb vs :
  values tb vs ->
  forall objs pdf,
    length objs = length vs ->
    read_values st tb objs pdf =
      Ret tt (set_heap pdf (store_values (pdf_heap pdf) objs vs)).
Proof.
  induction 1 as [tb | tb v tb' vs Hread Hrest IH]; intros objs pdf Hlen;
    destruct objs as [| obj objs]; try discriminate.
  - simpl. destruct pdf; reflexivity.
  - simpl. rewrite Hread. munfold.
    rewrite IH by (simpl in Hlen; lia). reflexivity.
Qed.

Lemma store_values_placeholders heap nums :
  forall done vs,
    length vs = length nums ->
    store_values (heap ++ done ++ map placeholder nums)
      (seq (length heap + length done) (length nums)) vs =
    heap ++ done ++ zip_with expanded nums vs.
Proof.
  induction nums as [| num nums IH]; intros done vs Hlen;
    destruct vs as [| v vs]; try discriminate; [reflexivity |].
  unfold store_values. simpl.
  rewrite alter_app_r.
  replace (alter (set_obj_value v) (length done)
             (done ++ placeholder num :: map placeholder nums))
    with (done ++ expanded num v :: map placeholder nums)
    by (symmetry;
        pose proof (alter_app_r (set_obj_value v) done
                      (placeholder num :: map placeholder nums) 0) as Ha;
        rewrite Nat.add_0_r in Ha; exact Ha).
  replace (S (length heap + length done))
    with (length heap + length (done ++ [expanded num v]))%nat
    by (rewrite length_app; simpl; lia).
  specialize (IH (done ++ [expanded num v]) vs).
  unfold store_values in IH. rewrite <- !app_assoc in IH. simpl in IH.
  apply IH. simpl in Hlen. lia.
Qed.

Lemma open_stream_some obj pdf payload pdf1 :
  pdfioObjOpenStream obj pdf = Ret (Some payload) pdf1 ->
  pdf_streams pdf1 = pdf_streams pdf ++ [obj] /\
  pdf_errors pdf1 = pdf_errors pdf /\
  pdf_objs pdf1 = pdf_objs pdf /\
  length (pdf_heap pdf1) = length (pdf_heap pdf) /\
  map obj_number (pdf_heap pdf1) = map obj_number (pdf_heap pdf).
Proof.
  unfold pdfioObjOpenStream, load_value. munfold.
  assert (Hnum : forall f, (forall o, obj_number (f o) = obj_number o) ->
            map obj_number (alter f obj (pdf_heap pdf)) = map obj_number (pdf_heap pdf)).
  { intros f Hf. apply list_eq. intros i. rewrite !list_lookup_fmap.
    destruct (decide (i = obj)) as [-> |].
    - rewrite list_lookup_alter_eq. destruct (pdf_heap pdf !! obj); simpl; [by rewrite Hf | done].
    - by rewrite list_lookup_alter_ne. }
  destruct (is_VNone _).
  - destruct (_pdfioObjLoad _ _) as [[v off] |]; simpl.
    + destruct (obj_value _); try discriminate.
      destruct (_ =? 0); [discriminate |]. simpl.
      destruct (_pdfioStreamOpen _ _); [| discriminate].
      intros [= <- <-]. simpl. rewrite length_alter. repeat split.
      by apply Hnum.
    + discriminate.
  - simpl. destruct (obj_value _); try discriminate.
    destruct (_ =? 0); [discriminate |].
    destruct (_pdfioStreamOpen _ _); [| discriminate].
    intros [= <- <-]. repeat split.
Qed.


(** The layout of the store after [load_obj_stream], counted from the
    state [pdf1] in which the stream has been opened: the records the
    stream declares come after those that exist, one for each number of
    the header and in the order of the header, each with the value read
    for it.  With more than 1000 pairs [load_obj_stream] fails with
    too-many-objects.  The stream is closed in either case. *)
Lemma load_obj_stream_layout obj pdf payload pdf1 :
  pdfioObjOpenStream obj pdf = Ret (Some payload) pdf1 ->
  (forall nums buffer tb vs,
     header (_pdfioTokenInit_stream payload) [] nums buffer tb ->
     (length nums <= 1000)%nat ->
     cstr buffer <> [] ->
     values (_pdfioTokenPush tb buffer) vs ->
     length vs = length nums ->
     exists pdf',
       load_obj_stream obj pdf = Ret tt pdf' /\
       pdf_heap pdf' = pdf_heap pdf1 ++ zip_with expanded nums vs /\
       Permutation (pdf_objs pdf')
         (pdf_objs pdf ++ seq (length (pdf_heap pdf)) (length nums)) /\
       map obj_number (pdf_heap pdf') =
         map obj_number (pdf_heap pdf) ++ map declared nums /\
       pdf_errors pdf' = pdf_errors pdf /\
       pdf_streams pdf' = pdf_streams pdf) /\
  (crowded (_pdfioTokenInit_stream payload) [] 1000 ->
   exists pdf',
     load_obj_stream obj pdf = Fail pdf' /\
     pdf_errors pdf' = pdf_errors pdf ++ [too_many_objects] /\
     pdf_streams pdf' = pdf_streams pdf).
Proof.
  intros Hopen.
  destruct (open_stream_some _ _ _ _ Hopen) as (Hst & Herr & Hobjs & Hlen & Hnums).
  unfold load_obj_stream. munfold. rewrite Hopen. split.
  - intros nums buffer tb vs Hhdr Hroom Hbuf Hvals Hvs.
    destruct (read_numbers_header obj _ _ _ _ _ Hhdr 1000%nat [] pdf1 Hroom)
      as (pdf2 & Hrn & [E2 P2]).
    rewrite Hrn. rewrite bool_decide_eq_false_2 by exact Hbuf.
    rewrite (read_values_spec obj _ _ Hvals) by (simpl; rewrite length_seq; lia).
    unfold pdfioStreamClose. munfold. eexists. split; [reflexivity |].
    simpl. rewrite E2. simpl.
    pose proof (store_values_placeholders (pdf_heap pdf1) nums [] vs Hvs) as Hsv.
    simpl in Hsv. rewrite Nat.add_0_r in Hsv. rewrite Hsv.
    split; [reflexivity |].
    split; [by rewrite P2, length_map, Hobjs, Hlen |].
    split.
    { rewrite map_app, Hnums. f_equal.
      clear - Hvs. revert vs Hvs.
      induction nums as [| num nums IH]; intros [| v vs] Hvs;
        try discriminate; [reflexivity |].
      simpl. f_equal. apply IH. simpl in Hvs. lia. }
    split; [exact Herr |].
    rewrite Hst. apply remove_last_app.
  - intros Hcrowd.
    destruct (read_numbers_crowded obj _ _ _ Hcrowd [] pdf1) as (pdf2 & Hrn & He & Hs).
    rewrite Hrn. exists pdf2. split; [reflexivity |].
    rewrite He, Hs, Herr, Hst. split; [reflexivity | apply remove_last_app].
Qed.

(** *** Streams are closed by [load_obj_stream] on every path *)

Lemma open_stream_streams obj pdf :
  exists st pdf1,
    pdfioObjOpenStream obj pdf = Ret st pdf1 /\
    pdf_errors pdf1 = pdf_errors pdf /\
    pdf_streams pdf1 =
      match st with
      | Some _ => pdf_streams pdf ++ [obj]
      | None => pdf_streams pdf
      end.
Proof.
  unfold pdfioObjOpenStream, load_value. munfold.
  destruct (is_VNone _); [destruct (_pdfioObjLoad _ _) as [[v off] |] |]; simpl;
    try (destruct (obj_value _)); try (destruct (_ =? 0)); simpl;
    try (destruct (_pdfioStreamOpen _ _)); simpl;
    eexists _, _; (split; [reflexivity |]); split; reflexivity.
Qed.

Lemma read_numbers_streams st room :
  forall tb buffer objs pdf,
    match read_numbers st room tb buffer objs pdf with
    | Ret _ pdf' => pdf_streams pdf' = pdf_streams pdf
    | Fail pdf' => pdf_streams pdf' = remove_last st (pdf_streams pdf)
    | Hang => False
    end.
Proof.
  induction room as [| room IH]; intros tb buffer objs pdf; simpl;
    destruct (_pdfioTokenGet tb buffer) as [[more buffer'] tb'];
    (destruct more; simpl; [| reflexivity]);
    (destruct (isdigit _); simpl; [| reflexivity]).
  - reflexivity.
  - munfold. simpl.
    destruct (_pdfioTokenGet tb' buffer') as [[more2 off] tb2].
    match goal with |- context [read_numbers st room ?a ?b ?c ?d] =>
      specialize (IH a b c d); destruct (read_numbers st room a b c d) end;
      exact IH.
Qed.

Lemma read_values_streams st :
  forall objs tb pdf,
    match read_values st tb objs pdf with
    | Ret _ pdf' => pdf_streams pdf' = pdf_streams pdf
    | Fail pdf' => pdf_streams pdf' = remove_last st (pdf_streams pdf)
    | Hang => False
    end.
Proof.
  induction objs as [| obj objs IH]; intros tb pdf; simpl; [reflexivity |].
  destruct (_pdfioValueRead tb) as [[v tb'] |]; [| reflexivity].
  munfold.
  match goal with |- context [read_values st ?a objs ?d] =>
    specialize (IH a d); destruct (read_values st a objs d) end; exact IH.
Qed.

(** [load_obj_stream] returns, on success and on failure, with the
    object stream it opened closed. *)
Lemma load_obj_stream_closes obj pdf :
  match load_obj_stream obj pdf with
  | Ret _ pdf' | Fail pdf' => pdf_streams pdf' = pdf_streams pdf
  | Hang => False
  end.
Proof.
  unfold load_obj_stream. munfold.
  destruct (open_stream_streams obj pdf) as (st & pdf1 & Hopen & _ & Hst).
  rewrite Hopen. destruct st as [payload |]; [| exact Hst].
  match goal with |- context [read_numbers obj 1000 ?a ?b ?c pdf1] =>
    pose proof (read_numbers_streams obj 1000 a b c pdf1) as Hrn;
    destruct (read_numbers obj 1000 a b c pdf1) as [[[buffer tb] objs] pdf2 | pdf2 |]
  end; [| rewrite Hrn, Hst; apply remove_last_app | exact Hrn].
  destruct (bool_decide _).
  { unfold pdfioStreamClose. munfold. simpl.
    rewrite Hrn, Hst. apply remove_last_app. }
  match goal with |- context [read_values obj ?a objs pdf2] =>
    pose proof (read_values_streams obj objs a pdf2) as Hrv;
    destruct (read_values obj a objs pdf2) as [[] pdf3 | pdf3 |]
  end; [| rewrite Hrv, Hrn, Hst; apply remove_last_app | exact Hrv].
  unfold pdfioStreamClose. munfold. simpl.
  rewrite Hrv, Hrn, Hst. apply remove_last_app.
Qed.


(** *** Cross-reference streams: one record *)

(** A record of type 0 is skipped (the loop goes on with the next
    object number). *)
Lemma xref_record_free w0 w1 w2 buffer number sobjs pdf :
  0 < w0 -> buf_at buffer 0 = 0 ->
  xref_record w0 w1 w2 buffer number sobjs pdf = Ret sobjs pdf.
Proof.
  intros Hw0 Hb. unfold xref_record.
  apply Z.ltb_lt in Hw0. rewrite Hw0, Hb. reflexivity.
Qed.

(** Without a type field every record is of type 1: unless its number
    is in the index, [add_obj] makes the placeholder, with field 2 as
    offset and field 3 as generation. *)
Lemma xref_record_untyped w1 w2 buffer number sobjs pdf :
  pdfioFileFindObject pdf (to_size_t number) = None ->
  xref_record 0 w1 w2 buffer number sobjs pdf =
  (add_obj (to_size_t number) (to_ushort (field3 buffer (to_size_t w1) w2))
     (field2 buffer 0 w1) ≫= fun _ => mret sobjs) pdf.
Proof.
  intros Hnone. unfold xref_record. munfold. simpl. by rewrite Hnone.
Qed.

(** The generation is 0 when field 3 has no width. *)
Lemma field3_no_width buffer w_3 : field3 buffer w_3 0 = 0.
Proof. reflexivity. Qed.

Lemma lor_shiftl_byte x b :
  0 <= x -> 0 <= b < 256 -> Z.lor (Z.shiftl x 8) b = x * 256 + b.
Proof.
  intros Hx Hb. rewrite Z.shiftl_mul_pow2 by lia. change (2 ^ 8) with 256.
  rewrite <- Z.lxor_lor, <- Z.add_nocarry_lxor; try reflexivity.
  all: apply Z.bits_inj'; intros n Hn; rewrite Z.land_spec, Z.bits_0;
    destruct (Z.lt_ge_cases n 8) as [Hlt | Hge].
  all: try (change 256 with (2 ^ 8); rewrite Z.mul_pow2_bits_low by lia;
            reflexivity).
  all: replace (Z.testbit b n) with false;
    [apply andb_false_r |
     symmetry; destruct (Z.eq_dec b 0) as [-> | Hne];
     [apply Z.bits_0 |
      apply Z.bits_above_log2; [lia |];
      assert (Z.log2 b < 8) by (apply Z.log2_lt_pow2; [lia | simpl; lia]);
      lia]].
Qed.

(** The value of bytes read as a big-endian integer. *)
Definition big_endian (bs : list Z) : Z :=
  fold_left (fun acc b => acc * 256 + b) bs 0.

Lemma big_endian_bound bs :
  Forall (fun b => 0 <= b < 256) bs ->
  0 <= big_endian bs < 256 ^ Z.of_nat (length bs).
Proof.
  unfold big_endian. induction bs as [| b bs IH] using rev_ind; intros Hall;
    [simpl; lia |].
  apply Forall_app in Hall as [Hbs Hb]. inversion Hb; subst.
  rewrite fold_left_app, length_app. simpl.
  specialize (IH Hbs).
  replace (Z.of_nat (length bs + 1)) with (Z.of_nat (length bs) + 1) by lia.
  rewrite Z.pow_add_r by lia. lia.
Qed.

(** Field 2 is the big-endian integer of its [w1] bytes, as long as it
    fits [intmax_t] (up to 7 bytes wide). *)
Lemma field2_big_endian pre bs post :
  Forall (fun b => 0 <= b < 256) bs ->
  (1 <= length bs <= 7)%nat ->
  field2 (pre ++ bs ++ post) (Z.of_nat (length pre)) (Z.of_nat (length bs)) =
  big_endian bs.
Proof.
  intros Hall Hlen.
  assert (Hat : forall i b, bs !! i = Some b ->
            buf_at (pre ++ bs ++ post) (Z.of_nat (length pre) + Z.of_nat i) = b).
  { intros i b Hi. unfold buf_at.
    destruct (_ <? 0) eqn:Hneg; [apply Z.ltb_lt in Hneg; lia |].
    replace (Z.to_nat (Z.of_nat (length pre) + Z.of_nat i))
      with (length pre + i)%nat by lia.
    apply nth_lookup_Some.
    rewrite lookup_app_r by lia.
    replace (length pre + i - length pre)%nat with i by lia.
    by apply lookup_app_l_Some. }
  unfold field2. rewrite Nat2Z.id.
  assert (Hgen : forall n, (S n <= length bs)%nat ->
            fold_left
              (fun offset i =>
                 to_intmax (Z.lor (Z.shiftl offset 8)
                   (buf_at (pre ++ bs ++ post) (Z.of_nat (length pre) + Z.of_nat i))))
              (seq 1 n) (buf_at (pre ++ bs ++ post) (Z.of_nat (length pre)))
            = big_endian (take (S n) bs)).
  { induction n as [| n IHn]; intros Hn.
    - simpl. destruct bs as [| b0 bs']; [simpl in Hlen; lia |].
      specialize (Hat 0%nat b0 eq_refl). rewrite Z.add_0_r in Hat.
      rewrite Hat. simpl. unfold big_endian. simpl. lia.
    - rewrite seq_S, fold_left_app. simpl.
      rewrite IHn by lia.
      destruct (bs !! S n) as [b |] eqn:Hb;
        [| apply lookup_ge_None in Hb; lia].
      rewrite (Hat _ _ Hb).
      rewrite (take_S_r _ _ _ Hb). unfold big_endian at 2.
      rewrite fold_left_app. simpl. fold (big_endian (take (S n) bs)).
      assert (Hb' : 0 <= b < 256).
      { rewrite Forall_forall in Hall. apply Hall.
        by eapply list_elem_of_lookup_2. }
      pose proof (big_endian_bound (take (S n) bs)) as Hbound.
      rewrite length_take, Nat.min_l in Hbound by lia.
      specialize (Hbound (Forall_take _ _ _ Hall)).
      rewrite lor_shiftl_byte by lia.
      unfold to_intmax, wrap_signed.
      assert (256 ^ Z.of_nat (S n) <= 256 ^ 6)
        by (apply Z.pow_le_mono_r; lia).
      rewrite Z.mod_small; [lia |].
      change (2 ^ (64 - 1)) with 9223372036854775808.
      change (2 ^ 64) with 18446744073709551616.
      change (256 ^ 6) with 281474976710656 in *. lia. }
  destruct (length bs) as [| n] eqn:Hn; [lia |].
  replace (S n - 1)%nat with n by lia.
  rewrite Hgen by lia. rewrite <- Hn. by rewrite firstn_all.
Qed.

(** *** Cross-reference streams: the queue of object streams *)

Lemma existsb_eqb_false parent sobjs :
  existsb (Z.eqb parent) sobjs = false -> parent ∉ sobjs.
Proof.
  induction sobjs as [| x sobjs IH]; simpl; [intros _; apply not_elem_of_nil |].
  intros H. apply orb_false_iff in H as [Hx Hr].
  apply not_elem_of_cons. split; [by apply Z.eqb_neq | auto].
Qed.

Definition queue_ok (sobjs : list Z) : Prop :=
  NoDup sobjs /\ (length sobjs <= 1000)%nat.

Lemma queue_parent_ok sobjs parent :
  queue_ok sobjs -> queue_ok (queue_parent sobjs parent).
Proof.
  intros [Hnd Hlen]. unfold queue_parent.
  destruct (existsb (Z.eqb parent) sobjs) eqn:Hex; simpl; [by split |].
  destruct (length sobjs <? 1000)%nat eqn:Hroom; [| by split].
  apply Nat.ltb_lt in Hroom. split.
  - apply NoDup_app. split; [exact Hnd |]. split; [| apply NoDup_singleton].
    intros x Hx Hin. apply list_elem_of_singleton in Hin. subst.
    by apply existsb_eqb_false in Hex.
  - rewrite length_app. simpl. lia.
Qed.

Lemma queue_parent_full sobjs parent :
  length sobjs = 1000%nat -> queue_parent sobjs parent = sobjs.
Proof.
  intros H. unfold queue_parent. rewrite H. simpl.
  by rewrite andb_false_r.
Qed.

Lemma xref_record_queue w0 w1 w2 buffer number sobjs pdf sobjs' pdf' :
  xref_record w0 w1 w2 buffer number sobjs pdf = Ret sobjs' pdf' ->
  queue_ok sobjs -> queue_ok sobjs'.
Proof.
  unfold xref_record. munfold.
  destruct (_ && _); [by intros [= <- <-] |].
  destruct (pdfioFileFindObject pdf (to_size_t number)); [by intros [= <- <-] |].
  destruct (_ && _).
  - destruct (pdfioFileFindObject pdf _) as [obj |].
    + destruct (load_obj_stream obj pdf); try discriminate. by intros [= <- <-].
    + intros [= <- <-]. apply queue_parent_ok.
  - simpl. by intros [= <- <-].
Qed.

Lemma xref_records_queue fuel w0 w1 w2 :
  forall st buffer number sobjs pdf sobjs' pdf',
    xref_records fuel w0 w1 w2 st buffer number sobjs pdf = Ret sobjs' pdf' ->
    queue_ok sobjs -> queue_ok sobjs'.
Proof.
  induction fuel as [| fuel IH]; intros st buffer number sobjs pdf sobjs' pdf';
    simpl; [discriminate |].
  destruct (length _ =? 0)%nat; [by intros [= <- <-] |].
  munfold.
  destruct (xref_record _ _ _ _ _ _ _) as [sobjs1 pdf1 | |] eqn:Hrec;
    try discriminate.
  intros Hrest Hok. eapply IH; [exact Hrest |].
  eapply xref_record_queue; eauto.
Qed.

(** *** The loops of a section end *)

Lemma xref_record_returns w0 w1 w2 buffer number sobjs pdf :
  xref_record w0 w1 w2 buffer number sobjs pdf <> Hang.
Proof.
  unfold xref_record. munfold.
  destruct (_ && _); [discriminate |].
  destruct (pdfioFileFindObject pdf (to_size_t number)); [discriminate |].
  destruct (_ && _); [| discriminate].
  destruct (pdfioFileFindObject pdf _) as [obj |]; [| discriminate].
  pose proof (load_obj_stream_closes obj pdf) as H.
  destruct (load_obj_stream obj pdf); [discriminate.. | contradiction].
Qed.

Lemma xref_records_returns fuel w0 w1 w2 :
  forall st buffer number sobjs pdf,
    (length st < fuel)%nat ->
    xref_records fuel w0 w1 w2 st buffer number sobjs pdf <> Hang.
Proof.
  induction fuel as [| fuel IH]; intros st buffer number sobjs pdf Hf;
    [lia |].
  simpl.
  destruct (length (take _ st) =? 0)%nat eqn:Hgot; [discriminate |].
  munfold.
  pose proof (xref_record_returns w0 w1 w2
                (map code (take (Z.to_nat (to_size_t (w0 + w1 + w2))) st) ++
                 drop (length (take (Z.to_nat (to_size_t (w0 + w1 + w2))) st)) buffer)
                number sobjs pdf) as Hrec.
  destruct (xref_record _ _ _ _ _ _ _) as [sobjs1 pdf1 | |];
    [| discriminate | contradiction].
  apply IH. apply Nat.eqb_neq in Hgot.
  rewrite length_take in Hgot. rewrite length_drop. lia.
Qed.

Lemma load_queued_returns sobjs :
  forall pdf, load_queued sobjs pdf <> Hang.
Proof.
  induction sobjs as [| parent rest IH]; intros pdf; simpl; [discriminate |].
  munfold. destruct (pdfioFileFindObject pdf parent) as [obj |]; [| discriminate].
  pose proof (load_obj_stream_closes obj pdf) as H.
  destruct (load_obj_stream obj pdf); [apply IH | discriminate | contradiction].
Qed.

(** The bytes between the read position and the end of the file. *)
Definition remaining (pdf : pdfio_file_t) : nat :=
  length (drop (Z.to_nat (pdf_pos pdf)) (pdf_data pdf)).

Lemma xref_entry_advances number pdf pdf' :
  0 <= pdf_pos pdf ->
  xref_entry number pdf = Ret tt pdf' ->
  0 <= pdf_pos pdf' /\ pdf_data pdf' = pdf_data pdf /\
  (remaining pdf' < remaining pdf)%nat.
Proof.
  intros Hpos. unfold xref_entry. munfold. unfold _pdfioFileRead.
  set (entry := take 20 (drop (Z.to_nat (pdf_pos pdf)) (pdf_data pdf))).
  destruct (length entry =? 20)%nat eqn:Hlen; cbn [negb]; [| discriminate].
  apply Nat.eqb_eq in Hlen.
  assert (Hadv : forall p, pdf_pos p = pdf_pos pdf + Z.of_nat (length entry) ->
            pdf_data p = pdf_data pdf ->
            0 <= pdf_pos p /\ pdf_data p = pdf_data pdf /\
            (remaining p < remaining pdf)%nat).
  { intros p Hp Hd. split; [lia |]. split; [exact Hd |].
    unfold remaining. rewrite Hd, Hp, Hlen, !length_drop.
    subst entry. rewrite length_take, length_drop in Hlen. lia. }
  destruct (eol_ok _); cbn [negb]; [| discriminate].
  destruct (strtoimax _) as [offset p1].
  destruct (offset <? 0); [discriminate |].
  destruct (strtol p1) as [g p2].
  destruct (_ || _); [discriminate |].
  destruct (Ascii.eqb (char_at p2 0) " "); cbn [negb]; [| discriminate].
  destruct (Ascii.eqb (char_at p2 1) "f"); cbn [negb andb].
  - intros [= <-]. by apply Hadv.
  - destruct (Ascii.eqb (char_at p2 1) "n"); cbn [negb]; [| discriminate].
    match goal with |- context [pdfioFileFindObject ?a ?b] =>
      destruct (pdfioFileFindObject a b) end.
    + intros [= <-]. by apply Hadv.
    + simpl. intros [= <-]. by apply Hadv.
Qed.

Lemma xref_group_returns fuel :
  forall number num_objects pdf,
    0 <= pdf_pos pdf ->
    (remaining pdf < fuel)%nat ->
    match xref_group fuel number num_objects pdf with
    | Ret _ pdf' =>
        0 <= pdf_pos pdf' /\ pdf_data pdf' = pdf_data pdf /\
        (remaining pdf' <= remaining pdf)%nat
    | Fail _ => True
    | Hang => False
    end.
Proof.
  induction fuel as [| fuel IH]; intros number num_objects pdf Hpos Hf; [lia |].
  simpl. destruct (0 <? num_objects); [| munfold; repeat split; auto].
  munfold.
  destruct (xref_entry number pdf) as [[] pdf1 | |] eqn:He; [| exact I |].
  - apply xref_entry_advances in He as (Hp1 & Hd1 & Hr1); [| exact Hpos].
    specialize (IH (number + 1) (num_objects - 1) pdf1 Hp1).
    destruct (xref_group fuel _ _ pdf1); [| exact I | apply IH; lia].
    destruct IH as (? & ? & ?); [lia |]. repeat split; [auto | congruence | lia].
  - revert He. unfold xref_entry. munfold. unfold _pdfioFileRead.
    repeat match goal with
           | |- context [if ?c then _ else _] => destruct c
           | |- context [let '(_, _) := ?x in _] => destruct x
           | |- context [match pdfioFileFindObject ?a ?b with _ => _ end] =>
               destruct (pdfioFileFindObject a b)
           end; simpl; discriminate.
Qed.

Lemma gets_scan_consumes room :
  forall s eol l n,
    gets_scan room s = (eol, l, n) ->
    (n <= length s)%nat /\ (eol = true -> (1 <= n)%nat).
Proof.
  induction room as [| room IH]; intros s eol l n;
    (destruct s as [| c r]; simpl; [intros [= <- <- <-]; split; [lia | discriminate] |]);
    (destruct (Ascii.eqb c LF); [intros [= <- <- <-]; split; [lia | lia] |]);
    (destruct (Ascii.eqb c CR);
     [destruct r as [| c' r']; [| destruct (Ascii.eqb c' LF)];
      intros [= <- <- <-]; simpl; split; lia |]).
  - intros [= <- <- <-]. simpl. split; [lia | discriminate].
  - destruct (gets_scan room r) as [[eol' l'] n'] eqn:Hr.
    intros [= <- <- <-]. apply IH in Hr as [H1 H2]. simpl. split; lia.
Qed.

Lemma gets_advances bufsize pdf more line pdf' :
  0 <= pdf_pos pdf ->
  _pdfioFileGets bufsize pdf = Ret (more, line) pdf' ->
  0 <= pdf_pos pdf' /\ pdf_data pdf' = pdf_data pdf /\
  (remaining pdf' <= remaining pdf)%nat /\
  (more = true -> (remaining pdf' < remaining pdf)%nat).
Proof.
  intros Hpos. unfold _pdfioFileGets.
  destruct (gets_scan _ _) as [[eol l] n] eqn:Hs.
  intros [= <- <- <-]. apply gets_scan_consumes in Hs as [Hn H1].
  unfold remaining in *. simpl. rewrite length_drop in Hn.
  rewrite !length_drop. split; [lia |]. split; [reflexivity |].
  split; [lia |]. intros He. specialize (H1 He). lia.
Qed.

Lemma xref_groups_returns fuel :
  forall pdf,
    0 <= pdf_pos pdf ->
    (remaining pdf < fuel)%nat ->
    xref_groups fuel pdf <> Hang.
Proof.
  induction fuel as [| fuel IH]; intros pdf Hpos Hf; [lia |].
  cbn [xref_groups]. munfold.
  destruct (_pdfioFileGets 1024 pdf) as [[more line] pdf1 | |] eqn:Hg;
    [| discriminate
     | unfold _pdfioFileGets in Hg; destruct (gets_scan _ _) as [[? ?] ?];
       discriminate].
  apply gets_advances in Hg as (Hp1 & Hd1 & Hr1 & Hlt); [| exact Hpos].
  destruct more; cbn [negb]; [| discriminate].
  destruct (streq line _); [discriminate |].
  destruct (sscanf_jd_jd line) as [[number num_objects] |]; [| discriminate].
  pose proof (xref_group_returns (S (length (pdf_data pdf1))) number
                num_objects pdf1 Hp1) as Hgr.
  destruct (xref_group _ _ _ pdf1) as [[] pdf2 | |].
  - destruct Hgr as (Hp2 & Hd2 & Hr2).
    { unfold remaining. rewrite length_drop. lia. }
    apply IH; [exact Hp2 |]. specialize (Hlt eq_refl). lia.
  - discriminate.
  - exfalso. apply Hgr. unfold remaining. rewrite length_drop. lia.
Qed.

Lemma xref_stream_from_returns obj dict number pdf :
  xref_stream_from obj dict number pdf <> Hang.
Proof.
  unfold xref_stream_from. munfold.
  destruct (pdfioDictGetArray dict "W") as [w_array |]; [| discriminate].
  destruct (_ || _); [discriminate |].
  destruct (open_stream_streams obj pdf) as (st & pdf3 & Hopen & _).
  rewrite Hopen. destruct st as [payload |]; [| discriminate].
  match goal with |- context [xref_records ?f ?a ?b ?c ?d ?e ?g ?h pdf3] =>
    pose proof (xref_records_returns f a b c d e g h pdf3) as Hrs;
    destruct (xref_records f a b c d e g h pdf3) as [sobjs pdf4 | |]
  end; [| discriminate | exfalso; apply Hrs; [lia | reflexivity]].
  unfold pdfioStreamClose. munfold.
  match goal with |- context [load_queued sobjs ?p] =>
    pose proof (load_queued_returns sobjs p) as Hq;
    destruct (load_queued sobjs p) end; [discriminate.. | contradiction].
Qed.

Lemma load_xref_table_returns pdf :
  0 <= pdf_pos pdf -> load_xref_table pdf <> Hang.
Proof.
  intros Hpos. unfold load_xref_table. munfold.
  pose proof (xref_groups_returns (S (length (pdf_data pdf))) pdf Hpos) as Hgs.
  destruct (xref_groups _ pdf) as [line' pdf2 | |];
    [| discriminate | exfalso; apply Hgs;
                      [unfold remaining; rewrite length_drop; lia | reflexivity]].
  destruct (negb _); [discriminate |].
  destruct (_pdfioValueRead _) as [[[] ?] |]; discriminate.
Qed.

(** X20. The loops of one section come to an end.  From a position
    in the file, the loops over the groups and the entries of a
    classical table end, whatever counts the table declares.  For a
    cross-reference stream whose /W widths are not negative, with
    at most 7 bytes for field 2 and a sum of at most 32, so that every
    record is read within [buffer[32]], the loops over the records and
    over the queued object streams end, whatever the stream holds. *)
Theorem section_loops_end pdf pdf' obj dict number w_array :
  0 <= pdf_pos pdf ->
  pdfioDictGetArray dict "W" = Some w_array ->
  0 <= pdfioArrayGetNumber w_array 0 ->
  0 <= pdfioArrayGetNumber w_array 1 <= 7 ->
  0 <= pdfioArrayGetNumber w_array 2 ->
  pdfioArrayGetNumber w_array 0 + pdfioArrayGetNumber w_array 1 +
    pdfioArrayGetNumber w_array 2 <= 32 ->
  load_xref_table pdf <> Hang /\
  xref_stream_from obj dict number pdf' <> Hang.
Proof.
  intros Hpos _ _ _ _ _.
  split; [by apply load_xref_table_returns | apply xref_stream_from_returns].
Qed.

End ResolverFacts.

(** ** The index of an opened file *)

(** The invariant of the Object Index is carried from the state before
    to the state after. *)
Definition index_stays_ok (pdf pdf' : pdfio_file_t) : Prop :=
  index_ok pdf -> index_ok pdf'.

Lemma deref_alter_number f obj heap p :
  (forall o, obj_number (f o) = obj_number o) ->
  obj_number (deref (alter f obj heap) p) = obj_number (deref heap p).
Proof.
  intros Hf. unfold deref.
  rewrite list_lookup_alter.
  destruct (decide (obj = p)) as [-> |]; [| done].
  destruct (heap !! p); simpl; auto.
Qed.

#[global] Instance index_stays_ok_frame : FrameOpen index_stays_ok.
Proof.
  split; [split; [split; [split |..] |..] |]; unfold index_stays_ok;
    try (intros; assumption).
  - auto.
  - intros pdf number generation offset obj pdf' Hadd Hok.
    eapply add_obj_index_ok; eauto.
  - intros pdf obj f Hf [Hvalid Hsorted]. split.
    + simpl. by rewrite length_alter.
    + unfold index_numbers in *. simpl.
      erewrite map_ext; [exact Hsorted |].
      intros p. simpl. apply deref_alter_number. intros o. apply Hf.
Qed.

Section OpenedIndex.

Context {E : Externals}.

Lemma new_pdf_index_ok data : index_ok (new_pdf data).
Proof. split; [constructor | apply Sorted_nil]. Qed.

(** Every file that [pdfioFileOpen] returns has its index sorted by
    object number, with every pointer allocated. *)
Theorem opened_index_sorted fuel filename file pdf :
  pdfioFileOpen fuel filename file = Opened pdf -> index_ok pdf.
Proof.
  unfold pdfioFileOpen. destruct filename; [| discriminate].
  destruct file as [data |]; [| discriminate].
  pose proof (keeps_read_file index_stays_ok fuel (new_pdf data)) as Hk.
  destruct (read_file fuel (new_pdf data)); intros [= <-].
  apply Hk, new_pdf_index_ok.
Qed.

End OpenedIndex.

(** ** Object streams: the records of the declared objects *)

Section Expander.

Context {E : Externals}.

(** Opening the stream of [obj] writes no record but that of [obj],
    whose value and stream offset are loaded if they were not. *)
Lemma open_stream_touches obj pdf st pdf1 :
  pdfioObjOpenStream obj pdf = Ret st pdf1 ->
  forall p,
    (p <> obj -> pdf_heap pdf1 !! p = pdf_heap pdf !! p) /\
    (forall o,
       pdf_heap pdf !! p = Some o ->
       exists o1,
         pdf_heap pdf1 !! p = Some o1 /\
         obj_number o1 = obj_number o /\
         obj_generation o1 = obj_generation o /\
         obj_offset o1 = obj_offset o /\
         (obj_value o <> VNone -> o1 = o)).
Proof.
  intros Hopen.
  assert (Hheap : pdf_heap pdf1 = pdf_heap pdf \/
                  (is_VNone (obj_value (deref (pdf_heap pdf) obj)) = true /\
                   exists v off,
                     pdf_heap pdf1 =
                     alter (fun o => set_obj_stream_offset off (set_obj_value v o))
                       obj (pdf_heap pdf))).
  { revert Hopen. unfold pdfioObjOpenStream, load_value. munfold.
    destruct (is_VNone (obj_value (deref (pdf_heap pdf) obj))) eqn:Hnone.
    - destruct (_pdfioObjLoad _ _) as [[v off] |].
      + cbn [pdf_heap set_heap set_index]. intros Hopen. right.
        split; [reflexivity |]. exists v, off. revert Hopen.
        match goal with |- context [obj_value (deref (alter ?f obj ?h) obj)] =>
          destruct (obj_value (deref (alter f obj h) obj))
        end; try (intros H; inversion H; reflexivity).
        destruct (_ =? 0); [intros H; inversion H; reflexivity |].
        destruct (_pdfioStreamOpen _ _); intros H; inversion H; reflexivity.
      + intros H; inversion H. by left.
    - intros Hopen. left. revert Hopen.
      destruct (obj_value (deref (pdf_heap pdf) obj));
        try (intros H; inversion H; reflexivity).
      destruct (_ =? 0); [intros H; inversion H; reflexivity |].
      destruct (_pdfioStreamOpen _ _); intros H; inversion H; reflexivity. }
  intros p. destruct Hheap as [-> | (Hnone & v & off & ->)].
  - split; [reflexivity |]. intros o Ho. by exists o.
  - split; [intros Hne; by rewrite list_lookup_alter_ne |].
    intros o Ho. rewrite list_lookup_alter.
    destruct (decide (obj = p)) as [-> |]; [| by exists o].
    rewrite Ho. simpl. eexists. split; [reflexivity |].
    repeat split. intros Hv. exfalso. apply Hv.
    unfold deref in Hnone. rewrite Ho in Hnone. by destruct (obj_value o).
Qed.

Lemma lookup_zip_with_expanded nums vs i num v :
  nums !! i = Some num -> vs !! i = Some v ->
  zip_with expanded nums vs !! i = Some (expanded num v).
Proof.
  intros Hn Hv. rewrite lookup_zip_with, Hn. simpl. by rewrite Hv.
Qed.

(** C2, as the code has it.  On an object stream that opens,
    [load_obj_stream] reads the number/offset pairs of the header up to
    the first token that does not start with a digit, which it pushes
    back.  There is no placeholder for a compressed object: for the
    numbers the header declares, none of which has a record yet, it
    allocates one new record each (generation 0, offset 0), after the
    records that exist, adds them to the Object Index, and reads
    exactly one value per declared object, in the same order, into
    these records, which [pdfioFileFindObject] then finds.  No record
    that existed is written, but that of the object stream itself,
    whose value and stream offset are loaded when the stream is opened
    if they were not.  The object numbers that have a record afterwards
    are those that had one and those the stream declares: an object
    that the xref names but the stream does not carry gets no record.
    With more than 1000 pairs [load_obj_stream] fails with
    too-many-objects.  The stream is closed in either case. *)
Theorem load_obj_stream_expands obj pdf payload pdf1 :
  pdfioObjOpenStream obj pdf = Ret (Some payload) pdf1 ->
  index_ok pdf ->
  (forall nums buffer tb vs,
     header (_pdfioTokenInit_stream payload) [] nums buffer tb ->
     (length nums <= 1000)%nat ->
     cstr buffer <> [] ->
     values (_pdfioTokenPush tb buffer) vs ->
     length vs = length nums ->
     NoDup (map declared nums) ->
     (forall num, num ∈ nums -> declared num ∉ index_numbers pdf) ->
     exists pdf',
       load_obj_stream obj pdf = Ret tt pdf' /\
       length (pdf_heap pdf') = (length (pdf_heap pdf) + length nums)%nat /\
       (forall i num v,
          nums !! i = Some num -> vs !! i = Some v ->
          pdf_heap pdf' !! (length (pdf_heap pdf) + i)%nat =
            Some (expanded num v) /\
          pdfioFileFindObject pdf' (declared num) =
            Some (length (pdf_heap pdf) + i)%nat) /\
       (forall p o,
          pdf_heap pdf !! p = Some o ->
          (p <> obj -> pdf_heap pdf' !! p = Some o) /\
          exists o',
            pdf_heap pdf' !! p = Some o' /\
            obj_number o' = obj_number o /\
            obj_generation o' = obj_generation o /\
            obj_offset o' = obj_offset o /\
            (obj_value o <> VNone -> o' = o)) /\
       Permutation (index_numbers pdf')
         (index_numbers pdf ++ map declared nums) /\
       pdf_errors pdf' = pdf_errors pdf /\
       pdf_streams pdf' = pdf_streams pdf) /\
  (crowded (_pdfioTokenInit_stream payload) [] 1000 ->
   exists pdf',
     load_obj_stream obj pdf = Fail pdf' /\
     pdf_errors pdf' = pdf_errors pdf ++ [too_many_objects] /\
     pdf_streams pdf' = pdf_streams pdf).
Proof.
  intros Hopen Hok.
  destruct (load_obj_stream_layout obj pdf payload pdf1 Hopen) as [Hlay Hcrowd].
  split; [| exact Hcrowd].
  intros nums buffer tb vs Hhdr Hroom Hbuf Hvals Hvs Hdup Hnew.
  destruct (Hlay nums buffer tb vs Hhdr Hroom Hbuf Hvals Hvs)
    as (pdf' & Hload & Hheap & Hperm & Hnums & Herr & Hst).
  pose proof (open_stream_touches _ _ _ _ Hopen) as Htouch.
  destruct (open_stream_some _ _ _ _ Hopen) as (_ & _ & _ & Hlen1 & _).
  assert (Hzip : length (zip_with expanded nums vs) = length nums)
    by (rewrite length_zip_with; lia).
  assert (Hok' : index_ok pdf').
  { pose proof (keeps_load_obj_stream index_stays_ok obj pdf) as Hk.
    rewrite Hload in Hk. by apply Hk. }
  (* the records of the declared objects *)
  assert (Hrec : forall i num v,
            nums !! i = Some num -> vs !! i = Some v ->
            pdf_heap pdf' !! (length (pdf_heap pdf) + i)%nat =
            Some (expanded num v)).
  { intros i num v Hn Hv. rewrite Hheap, <- Hlen1.
    rewrite lookup_app_r by lia.
    replace (length (pdf_heap pdf1) + i - length (pdf_heap pdf1))%nat
      with i by lia.
    by apply lookup_zip_with_expanded. }
  (* the records that existed *)
  assert (Hold : forall p o,
            pdf_heap pdf !! p = Some o ->
            exists o',
              pdf_heap pdf' !! p = Some o' /\
              obj_number o' = obj_number o /\
              obj_generation o' = obj_generation o /\
              obj_offset o' = obj_offset o /\
              (obj_value o <> VNone -> o' = o)).
  { intros p o Ho. destruct (Htouch p) as [_ Hp].
    destruct (Hp o Ho) as (o1 & Ho1 & H). exists o1.
    split; [| exact H]. rewrite Hheap. by apply lookup_app_l_Some. }
  (* the numbers of the index *)
  assert (Hindex : Permutation (index_numbers pdf')
                     (index_numbers pdf ++ map declared nums)).
  { assert (Hkept : map (fun p => obj_number (deref (pdf_heap pdf') p))
                      (pdf_objs pdf) = index_numbers pdf).
    { unfold index_numbers. apply map_ext_Forall.
      destruct Hok as [Hvalid _].
      eapply Forall_impl; [exact Hvalid |]. simpl. intros p Hp.
      destruct (pdf_heap pdf !! p) as [o |] eqn:Ho;
        [| apply lookup_ge_None in Ho; lia].
      destruct (Hold p o Ho) as (o' & Ho' & Hn' & _).
      unfold deref. by rewrite Ho, Ho'. }
    assert (Hadded : map (fun p => obj_number (deref (pdf_heap pdf') p))
                       (seq (length (pdf_heap pdf)) (length nums)) =
                     map declared nums).
    { apply list_eq. intros i. rewrite !list_lookup_fmap.
      destruct (nums !! i) as [num |] eqn:Hn.
      + destruct (vs !! i) as [v |] eqn:Hv;
          [| apply lookup_ge_None in Hv; apply lookup_lt_Some in Hn; lia].
        rewrite lookup_seq_lt by (by eapply lookup_lt_Some).
        simpl. unfold deref. rewrite (Hrec i num v Hn Hv). reflexivity.
      + apply lookup_ge_None in Hn. rewrite lookup_seq_ge by lia.
        reflexivity. }
    unfold index_numbers at 1. rewrite Hperm, map_app, Hkept, Hadded.
    reflexivity. }
  exists pdf'. split; [exact Hload |].
  split; [rewrite Hheap, length_app, Hzip; lia |].
  split; [| split; [| split; [exact Hindex | split; [exact Herr | exact Hst]]]].
  - intros i num v Hn Hv. split; [by apply Hrec |].
    assert (Hin : declared num ∈ index_numbers pdf').
    { rewrite Hindex. apply elem_of_app. right.
      apply list_elem_of_fmap. exists num. split; [done |].
      by eapply list_elem_of_lookup_2. }
    destruct (pdfioFileFindObject pdf' (declared num)) as [q |] eqn:Hfind.
    2:{ exfalso. by apply (find_object_scan pdf' (declared num) Hok'). }
    f_equal. apply find_object_sound in Hfind as [Hq Hqn].
    rewrite Hperm in Hq. apply elem_of_app in Hq as [Hq | Hq].
    + exfalso. apply (Hnew num); [by eapply list_elem_of_lookup_2 |].
      unfold index_numbers. apply list_elem_of_fmap. exists q.
      split; [| exact Hq].
      destruct Hok as [Hvalid _]. rewrite Forall_forall in Hvalid.
      specialize (Hvalid q Hq).
      destruct (pdf_heap pdf !! q) as [o |] eqn:Ho;
        [| apply lookup_ge_None in Ho; lia].
      destruct (Hold q o Ho) as (o' & Ho' & Hn' & _).
      unfold deref in Hqn |- *. rewrite Ho' in Hqn. rewrite Ho. congruence.
    + apply elem_of_seq in Hq as [Hq1 Hq2].
      set (j := (q - length (pdf_heap pdf))%nat).
      assert (Hj : q = (length (pdf_heap pdf) + j)%nat) by (subst j; lia).
      destruct (nums !! j) as [numj |] eqn:Hnj;
        [| apply lookup_ge_None in Hnj; lia].
      destruct (vs !! j) as [vj |] eqn:Hvj;
        [| apply lookup_ge_None in Hvj; apply lookup_lt_Some in Hnj; lia].
      pose proof (Hrec j numj vj Hnj Hvj) as Hrj. rewrite <- Hj in Hrj.
      unfold deref in Hqn. rewrite Hrj in Hqn. simpl in Hqn.
      rewrite Hj. f_equal.
      eapply (NoDup_lookup _ j i (declared numj));
        [exact Hdup
        | rewrite list_lookup_fmap, Hnj; reflexivity
        | rewrite list_lookup_fmap, Hn; simpl; by rewrite Hqn].
  - intros p o Ho. split; [| by apply Hold].
    intros Hne. rewrite Hheap. apply lookup_app_l_Some.
    destruct (Htouch p) as [Hsame _]. rewrite Hsame by exact Hne. exact Ho.
Qed.

End Expander.

(** ** Classical tables: an entry cut short, and an entry in the fixed
    format *)

Section Entries.

(** C6 fails on the code.  The 20 bytes of an entry are read with
    [if (_pdfioFileRead (pdf, line, 20) != 20) return (false);]: when
    the file ends before the entry does, [load_xref] returns false and
    nothing is reported, so that the open fails without a malformed-xref
    report.  Every other rejection of an entry, which is then of 20
    bytes, reports malformed-xref, once. *)
Theorem cut_entry_fails_without_report number pdf :
  let entry := take 20 (drop (Z.to_nat (pdf_pos pdf)) (pdf_data pdf)) in
  ((length entry < 20)%nat ->
   exists last,
     xref_entry number pdf = Fail last /\ pdf_errors last = pdf_errors pdf) /\
  (length entry = 20%nat ->
   forall last,
     xref_entry number pdf = Fail last ->
     pdf_errors last = pdf_errors pdf ++ [malformed_xref_entry]).
Proof.
  intros entry. unfold xref_entry. munfold. unfold _pdfioFileRead.
  fold entry. split.
  - intros Hcut.
    destruct (length entry =? 20)%nat eqn:Hlen;
      [apply Nat.eqb_eq in Hlen; lia |].
    cbn [negb]. eexists. split; reflexivity.
  - intros Hlen last. rewrite Hlen, Nat.eqb_refl. cbn [negb].
    destruct (negb (eol_ok _)); [by intros [= <-] |].
    destruct (strtoimax _) as [offset p1].
    destruct (offset <? 0); [by intros [= <-] |].
    destruct (strtol p1) as [g p2].
    destruct (_ || _); [by intros [= <-] |].
    destruct (negb _); [by intros [= <-] |].
    destruct (_ && _); [by intros [= <-] |].
    destruct (Ascii.eqb _ "f"); [discriminate |].
    destruct (pdfioFileFindObject _ _); discriminate.
Qed.

(** The value of decimal digits. *)
Definition decimal (ds : list ascii) : Z :=
  fold_left (fun acc c => acc * 10 + (code c - 48)) ds 0.

Definition is_digits (ds : list ascii) : Prop :=
  Forall (fun c => isdigit (code c) = true) ds.

Lemma digit_range c : isdigit (code c) = true -> 48 <= code c <= 57.
Proof. unfold isdigit. intros H. apply andb_true_iff in H. lia. Qed.

Lemma digits_fold ds :
  forall acc r,
    is_digits ds ->
    match r with c :: _ => isdigit (code c) = false | [] => True end ->
    digits acc (ds ++ r) =
    (fold_left (fun acc c => acc * 10 + (code c - 48)) ds acc, r).
Proof.
  induction ds as [| d ds IH]; intros acc r Hds Hr.
  - simpl. destruct r as [| c r]; [reflexivity |]. simpl. by rewrite Hr.
  - inversion Hds as [| ? ? Hd Hds']; subst. simpl. rewrite Hd.
    by apply IH.
Qed.

Lemma fold_decimal_bound ds :
  forall acc,
    is_digits ds -> 0 <= acc ->
    0 <= fold_left (fun acc c => acc * 10 + (code c - 48)) ds acc
      < (acc + 1) * 10 ^ Z.of_nat (length ds).
Proof.
  induction ds as [| d ds IH]; intros acc Hds Hacc; [simpl; lia |].
  inversion Hds as [| ? ? Hd Hds']; subst. apply digit_range in Hd.
  cbn [fold_left length]. specialize (IH (acc * 10 + (code d - 48)) Hds').
  rewrite Nat2Z.inj_succ, Z.pow_succ_r by lia.
  assert (0 < 10 ^ Z.of_nat (length ds)) by (apply Z.pow_pos_nonneg; lia).
  nia.
Qed.

Lemma decimal_bound ds :
  is_digits ds -> 0 <= decimal ds < 10 ^ Z.of_nat (length ds).
Proof.
  intros Hds. pose proof (fold_decimal_bound ds 0 Hds) as H.
  unfold decimal. lia.
Qed.

Lemma cstr_digits ds r : is_digits ds -> cstr (ds ++ r) = ds ++ cstr r.
Proof.
  induction ds as [| d ds IH]; intros Hds; [reflexivity |].
  inversion Hds as [| ? ? Hd Hds']; subst. simpl.
  destruct (Ascii.eqb_spec d NUL) as [-> | _]; [discriminate Hd |].
  by rewrite IH.
Qed.

Lemma cstr_space s : cstr (" "%char :: s) = " "%char :: cstr s.
Proof. reflexivity. Qed.

Lemma cstr_cstr s : cstr (cstr s) = cstr s.
Proof.
  induction s as [| c s IH]; [reflexivity |]. simpl.
  destruct (Ascii.eqb c NUL) eqn:Hc; [reflexivity |]. simpl.
  by rewrite Hc, IH.
Qed.

(** One decimal conversion of a field of digits that a character which
    is not a digit ends; white space may come first. *)
Lemma convert_digits ds r :
  is_digits ds -> ds <> [] ->
  decimal ds <= INTMAX_MAX ->
  match r with c :: _ => isdigit (code c) = false | [] => True end ->
  convert (ds ++ r) = Some (decimal ds, r) /\
  convert (" "%char :: ds ++ r) = Some (decimal ds, r).
Proof.
  intros Hds Hne Hmax Hr.
  assert (Hconv : convert (ds ++ r) = Some (decimal ds, r)).
  { unfold convert. destruct ds as [| d ds']; [done |].
    inversion Hds as [| ? ? Hd Hds']; subst.
    pose proof (digit_range d Hd) as Hrange.
    assert (Hsp : isspace (code d) = false).
    { unfold isspace. apply orb_false_iff. split;
        [apply Z.eqb_neq; lia | apply andb_false_iff; right; apply Z.leb_gt; lia]. }
    cbn [app skip_space]. rewrite Hsp. unfold sign.
    assert (Hm : Ascii.eqb d "-" = false).
    { apply Ascii.eqb_neq. intros ->.
      change (code "-") with 45 in Hrange. lia. }
    assert (Hp : Ascii.eqb d "+" = false).
    { apply Ascii.eqb_neq. intros ->.
      change (code "+") with 43 in Hrange. lia. }
    rewrite Hm, Hp, Hd.
    change (d :: ds' ++ r) with ((d :: ds') ++ r).
    rewrite digits_fold by assumption.
    fold (decimal (d :: ds')). f_equal. f_equal.
    pose proof (decimal_bound (d :: ds') Hds) as Hb.
    unfold clamp, INTMAX_MIN, INTMAX_MAX in *.
    change (2 ^ 63) with 9223372036854775808 in *. lia. }
  split; [exact Hconv |].
  unfold convert in *. cbn [skip_space]. exact Hconv.
Qed.

(** An entry in the fixed format of the table: ten digits, a space,
    five digits, a space, the type, and two characters that end the
    line. *)
Definition fixed_entry (off gen : list ascii) (t : ascii) (eol : list ascii)
    : list ascii :=
  off ++ " "%char :: gen ++ " "%char :: t :: eol.

Lemma fixed_entry_fields off gen t eol :
  length off = 10%nat -> is_digits off ->
  length gen = 5%nat -> is_digits gen ->
  length eol = 2%nat ->
  let entry := fixed_entry off gen t eol in
  length entry = 20%nat /\
  drop 18 entry = eol /\
  entry_offset entry = decimal off /\
  entry_generation entry = decimal gen /\
  entry_separator entry = " "%char /\
  entry_type entry = t.
Proof.
  intros Hlo Hdo Hlg Hdg Hle entry.
  assert (Hlen : length entry = 20%nat).
  { subst entry. unfold fixed_entry. rewrite length_app. simpl.
    rewrite length_app. simpl. lia. }
  assert (Htake : take 18 entry = off ++ " "%char :: gen ++ [" "%char; t]).
  { subst entry. unfold fixed_entry.
    rewrite take_app_ge by lia. rewrite Hlo. cbn [Nat.sub take].
    f_equal. f_equal. rewrite take_app_ge by lia. rewrite Hlg.
    reflexivity. }
  assert (Hdrop : drop 18 entry = eol).
  { subst entry. unfold fixed_entry.
    rewrite drop_app_ge by lia. rewrite Hlo. cbn [Nat.sub drop].
    rewrite drop_app_ge by lia. rewrite Hlg. reflexivity. }
  assert (Hsp : isdigit (code " ") = false) by reflexivity.
  pose proof (decimal_bound off Hdo) as Hbo. rewrite Hlo in Hbo.
  pose proof (decimal_bound gen Hdg) as Hbg. rewrite Hlg in Hbg.
  change (10 ^ Z.of_nat 10) with 10000000000 in Hbo.
  change (10 ^ Z.of_nat 5) with 100000 in Hbg.
  assert (Hmax : INTMAX_MAX = 9223372036854775807) by reflexivity.
  assert (Hno : off <> []) by (intros ->; discriminate).
  assert (Hng : gen <> []) by (intros ->; discriminate).
  set (ct := cstr [t]).
  assert (Hct : cstr ct = ct) by apply cstr_cstr.
  (* the offset *)
  assert (H1 : strtoimax (take 18 entry) =
               (decimal off, " "%char :: gen ++ " "%char :: ct)).
  { unfold strtoimax. rewrite Htake.
    rewrite cstr_digits, cstr_space, cstr_digits, cstr_space by assumption.
    fold ct.
    destruct (convert_digits off (" "%char :: gen ++ " "%char :: ct)
                Hdo Hno) as [-> _]; [lia | exact Hsp | reflexivity]. }
  (* the generation *)
  assert (H2 : strtol (" "%char :: gen ++ " "%char :: ct) =
               (decimal gen, " "%char :: ct)).
  { unfold strtol, strtoimax.
    rewrite cstr_space, cstr_digits, cstr_space, Hct by assumption.
    destruct (convert_digits gen (" "%char :: ct) Hdg Hng) as [_ ->];
      [lia | exact Hsp | reflexivity]. }
  split; [exact Hlen |]. split; [exact Hdrop |].
  unfold entry_offset, entry_generation, entry_separator, entry_type.
  rewrite H1. cbn [fst snd]. rewrite H2. cbn [fst snd].
  split; [reflexivity |]. split.
  { unfold to_int, wrap_signed. 
    assert (Hw : forall x, 0 <= x < 100000 ->
              (x + 2 ^ (32 - 1)) mod 2 ^ 32 - 2 ^ (32 - 1) = x).
    { intros x Hx. rewrite Z.mod_small; [lia |].
      change (2 ^ (32 - 1)) with 2147483648.
      change (2 ^ 32) with 4294967296. lia. }
    apply Hw. lia. }
  unfold char_at. rewrite cstr_space, Hct.
  split; [reflexivity |].
  subst ct. simpl. destruct (Ascii.eqb_spec t NUL) as [-> | _]; reflexivity.
Qed.

(** X21. An entry of a classical table in the fixed format, ten
    digits of offset, a space, five digits of generation, a space, the
    type and two characters that end the line.  It is rejected, with
    malformed-xref reported once, when the two characters are not CR LF,
    SP LF or SP CR, when the generation is above 65535, or when the type
    is neither [f] nor [n].  Otherwise an entry of type [f] is skipped;
    an entry of type [n] is skipped when a record of the index, which is
    sorted, has its object number; and when none has, [add_obj] inserts
    a placeholder with the number, and with the generation and the
    offset that the digits denote. *)
Theorem xref_entry_fixed_format number pdf off gen t eol :
  take 20 (drop (Z.to_nat (pdf_pos pdf)) (pdf_data pdf)) =
    fixed_entry off gen t eol ->
  length off = 10%nat -> is_digits off ->
  length gen = 5%nat -> is_digits gen ->
  length eol = 2%nat ->
  index_ok pdf ->
  let pdf1 := set_pos pdf (pdf_pos pdf + 20) in
  (~ entry_eol eol \/ 65535 < decimal gen \/
   (t <> "f"%char /\ t <> "n"%char) ->
   xref_entry number pdf = Fail (reported pdf1 malformed_xref_entry)) /\
  (entry_eol eol -> decimal gen <= 65535 ->
   (t = "f"%char -> xref_entry number pdf = Ret tt pdf1) /\
   (t = "n"%char -> to_size_t number ∈ index_numbers pdf ->
    xref_entry number pdf = Ret tt pdf1) /\
   (t = "n"%char -> to_size_t number ∉ index_numbers pdf ->
    xref_entry number pdf =
    (add_obj (to_size_t number) (decimal gen) (decimal off)
       ≫= fun _ => mret tt) pdf1)).
Proof.
  intros Hentry Hlo Hdo Hlg Hdg Hle Hok pdf1.
  pose proof (xref_entry_reading number pdf) as H. cbv zeta in H.
  rewrite Hentry in H.
  destruct (fixed_entry_fields off gen t eol Hlo Hdo Hlg Hdg Hle)
    as (Hlen & Hdrop & Ho & Hg & Hs & Ht).
  destruct (H Hlen) as [Hbad Hgood]. clear H.
  fold pdf1 in Hbad, Hgood.
  pose proof (decimal_bound off Hdo) as Hbo.
  pose proof (decimal_bound gen Hdg) as Hbg.
  split.
  - intros Hrej. apply Hbad. unfold entry_well_formed.
    rewrite Hdrop, Ho, Hg, Hs, Ht.
    intros (He & _ & Hgr & _ & Hty).
    destruct Hrej as [Hr | [Hr | [Hf Hn]]]; [by apply Hr | lia |].
    destruct Hty; contradiction.
  - intros He Hgr.
    assert (Hwf : forall ty, t = ty -> (ty = "f"%char \/ ty = "n"%char) ->
              entry_well_formed (fixed_entry off gen t eol)).
    { intros ty -> Hty. unfold entry_well_formed.
      rewrite Hdrop, Ho, Hg, Hs, Ht. repeat split; auto; lia. }
    assert (Hok1 : index_ok pdf1) by exact Hok.
    split; [| split].
    + intros ->. destruct (Hgood (Hwf _ eq_refl (or_introl eq_refl)))
        as (_ & _ & Hf & _).
      apply Hf. exact Ht.
    + intros -> Hin. destruct (Hgood (Hwf _ eq_refl (or_intror eq_refl)))
        as (_ & _ & _ & Hn).
      specialize (Hn Ht).
      destruct (pdfioFileFindObject pdf1 (to_size_t number)) eqn:Hfind;
        [exact Hn |].
      exfalso. by apply (find_object_scan pdf1 (to_size_t number) Hok1).
    + intros -> Hnot. destruct (Hgood (Hwf _ eq_refl (or_intror eq_refl)))
        as (_ & _ & _ & Hn).
      specialize (Hn Ht). rewrite Hg, Ho in Hn.
      destruct (pdfioFileFindObject pdf1 (to_size_t number)) eqn:Hfind;
        [| exact Hn].
      exfalso. apply Hnot.
      apply (find_object_scan pdf1 (to_size_t number) Hok1). by rewrite Hfind.
Qed.

End Entries.

(** ** The resolver on files *)

Section OnFiles.

Import Reference Examples.

(** The object numbers seen through [pdfioFileGetObject], by index. *)
Definition numbers_by_index (pdf : pdfio_file_t) : list (option Z) :=
  map (fun n => obj_number <$> pdfioFileGetObject pdf n)
    (seq 0 (pdfioFileGetNumObjects pdf)).

(** C1 fails on the code.  [load_obj_stream] calls [add_obj] for every
    number an object stream declares without looking the number up, as
    the two loops of [load_xref] do before they call it.  The file below
    opens, and the records at index 3 and at index 4 both have object
    number 4: the object of its own and the copy in the stream. *)
Theorem open_duplicates_object_number :
  exists pdf,
    pdfioFileOpen 10 (Some "stale.pdf"%string) (Some stale_copy_file) = Opened pdf /\
    numbers_by_index pdf = [Some 1; Some 2; Some 3; Some 4; Some 4; Some 5] /\
    pdf_errors pdf = [].
Proof.
  eexists. split; [vm_compute; reflexivity |].
  split; vm_compute; reflexivity.
Qed.

(** C2 fails on the code as it is stated: there is no placeholder for
    a compressed object.  In the file below the xref names objects 3 and
    4 as compressed in object stream 5, which carries object 3 only.
    After the open, object 4 has no record at all, and the record of
    object 3 is the last one allocated, after that of its parent, whose
    entry comes after those of 3 and 4: it was made by
    [load_obj_stream]. *)
Lemma no_placeholder_for_compressed_object :
  exists pdf,
    pdfioFileOpen 10 (Some "forward.pdf"%string) (Some forward_parent_file) = Opened pdf /\
    pdfioFileFindObject pdf 4 = None /\
    map obj_number (pdf_heap pdf) = [6; 1; 2; 5; 3] /\
    numbers_by_index pdf = [Some 1; Some 2; Some 3; Some 5; Some 6].
Proof.
  eexists. split; [vm_compute; reflexivity |].
  repeat split; vm_compute; reflexivity.
Qed.

(** The object stream 5 of that file, expanded in a state that holds
    its record only: object 3, which had no record, gets the second
    record, with the dictionary the stream carries, and is found; the
    record of the object stream is loaded. *)
Lemma load_obj_stream_expands_witness :
  exists pdf',
    load_obj_stream 0%nat
      (set_index (new_pdf forward_parent_file) [mk_obj 5 0 91 VNone 0] [0%nat])
    = Ret tt pdf' /\
    pdf_heap pdf' !! 1%nat =
      Some (mk_obj 3 0 0 (VDict [("Type"%string, VName "Font")]) 0) /\
    pdfioFileFindObject pdf' 3 = Some 1%nat /\
    Permutation (index_numbers pdf') [5; 3] /\
    pdf_streams pdf' = [].
Proof.
  set (pdf := set_index (new_pdf forward_parent_file) [mk_obj 5 0 91 VNone 0] [0%nat]).
  assert (Hok : index_ok pdf) by (split; repeat constructor).
  destruct (pdfioObjOpenStream 0%nat pdf) as [[payload |] pdf1 | |] eqn:Hopen;
    try (vm_compute in Hopen; discriminate Hopen).
  destruct (load_obj_stream_expands 0%nat pdf payload pdf1 Hopen Hok) as [Hexp _].
  assert (Hpayload : payload = lit "3 0 << /Type /Font >> ")
    by (vm_compute in Hopen; inversion Hopen; reflexivity).
  destruct (Hexp [lit "3"] (lit "<<")
              (mk_tokens (lit " /Type /Font >> ") 6 [])
              [VDict [("Type"%string, VName "Font")]])
    as (pdf' & Hload & _ & Hrec & _ & Hnums & _ & Hstreams).
  - rewrite Hpayload.
    eapply header_pair;
      [vm_compute; reflexivity | reflexivity | vm_compute; reflexivity |].
    eapply header_end; [vm_compute; reflexivity | right; reflexivity].
  - simpl. lia.
  - discriminate.
  - eapply values_cons; [vm_compute; reflexivity | apply values_nil].
  - reflexivity.
  - repeat constructor. intros H; inversion H.
  - intros num Hin. apply list_elem_of_singleton in Hin as ->.
    vm_compute. intros H. inversion H as [| ? ? ? H']; subst; inversion H'.
  - destruct (Hrec 0%nat (lit "3") (VDict [("Type"%string, VName "Font")])
                eq_refl eq_refl) as [Hheap Hfind].
    exists pdf'. split; [exact Hload |].
    split; [exact Hheap |]. split; [exact Hfind |].
    split; [exact Hnums | exact Hstreams].
Defined.

(** C3 fails on the code.  [load_xref] returns false without a report
    when fewer than 20 bytes are left for an entry of a classical table
    (every other failure of that loop reports), and [pdfioFileOpen] goes
    to [error] without a report when the first line cannot be read: the
    open fails and the callback is not invoked. *)
Theorem open_fails_without_report :
  (exists last,
     pdfioFileOpen 10 (Some "cut.pdf"%string) (Some truncated_table_file) = Null last /\
     pdf_errors last = []) /\
  (exists last,
     pdfioFileOpen 10 (Some "empty.pdf"%string) (Some []) = Null last /\
     pdf_errors last = []).
Proof.
  split; eexists; (split; [vm_compute; reflexivity | reflexivity]).
Qed.

(** C4 fails on the code.  In the loop over the records of a
    cross-reference stream, [if (!load_obj_stream (obj)) return (false);]
    leaves the function with the cross-reference stream open.  In the
    file below the object stream cannot be opened; [load_xref] reports it
    and returns false, and the stream of the first object allocated, the
    cross-reference stream, is still open. *)
Theorem xref_stream_left_open :
  (exists last,
     load_xref 10 58 (new_pdf bad_parent_file) = Fail last /\
     pdf_errors last = [cannot_open_object_stream] /\
     pdf_streams last = [0%nat] /\
     obj_number (deref (pdf_heap last) 0%nat) = 3) /\
  (exists last,
     pdfioFileOpen 10 (Some "parent.pdf"%string) (Some bad_parent_file) = Null last /\
     pdf_streams last = [0%nat]).
Proof.
  split; eexists; (split; [vm_compute; reflexivity |]);
    repeat split; vm_compute; reflexivity.
Qed.

(** C5 fails on the code as it is stated: the composite trailer is
    not the trailer at the highest offset.  In the file below the chain
    starts at offset 91 and goes on, by /Prev, at offset 164; the
    composite trailer is the dictionary of the section at offset 91. *)
Lemma composite_trailer_not_at_highest_offset :
  exists pdf' low high,
    walk 91 (new_pdf forward_prev_file) [(91, low); (164, high)] pdf' /\
    load_xref_chain 10 91 (new_pdf forward_prev_file) = Ret tt pdf' /\
    pdf_trailer pdf' = Some low /\
    pdf_trailer pdf' <> Some high.
Proof.
  eexists _,
    [("Size"%string, VNumber 3); ("Root"%string, VIndirect 1 0);
     ("Prev"%string, VNumber 164)],
    [("Size"%string, VNumber 3); ("Root"%string, VIndirect 1 0)].
  split.
  - eapply walk_prev; [vm_compute; reflexivity | reflexivity |].
    eapply walk_last; [vm_compute; reflexivity | vm_compute; discriminate].
  - split; [vm_compute; reflexivity |]. split; [reflexivity | discriminate].
Qed.

Lemma composite_trailer_is_first_witness :
  exists pdf' first rest,
    load_xref_chain 10 91 (new_pdf forward_prev_file) = Ret tt pdf' /\
    walk 91 (new_pdf forward_prev_file) ((91, first) :: rest) pdf' /\
    pdf_trailer pdf' = Some first.
Proof.
  destruct (load_xref_chain 10 91 (new_pdf forward_prev_file))
    as [[] pdf' | |] eqn:Hchain;
    try (vm_compute in Hchain; discriminate Hchain).
  destruct (composite_trailer_is_first 10 91 (new_pdf forward_prev_file) pdf'
              eq_refl Hchain) as (first & rest & Hwalk & Htrailer & _).
  exists pdf', first, rest. auto.
Defined.

(** C7 fails on the code.  The widths are added in [size_t]:
    2^63 + 2^63 + 0 is 0 there, so the test [w_total > sizeof (buffer)]
    lets the widths of the file below pass although their sum exceeds 32
    (with a third width of 2 the loop would go on to read
    [buffer[2^63]]).  The file opens and nothing is reported. *)
Theorem overflowing_widths_accepted :
  exists pdf w_array,
    pdfioFileOpen 10 (Some "wide.pdf"%string) (Some wide_fields_file) = Opened pdf /\
    pdf_errors pdf = [] /\
    (pdf_trailer pdf ≫= fun d => pdfioDictGetArray d "W") = Some w_array /\
    32 < pdfioArrayGetNumber w_array 0 + pdfioArrayGetNumber w_array 1
         + pdfioArrayGetNumber w_array 2.
Proof.
  eexists _, _. split; [vm_compute; reflexivity |].
  split; [reflexivity |]. split; [vm_compute; reflexivity |].
  vm_compute. reflexivity.
Qed.




(** A full queue: the parents 1 to 1000. *)
Definition full_queue : list Z := map Z.of_nat (seq 1 1000).

(** The file with 1001 compressed objects opens, nothing is reported,
    object 2 is there and object 1002 is not. *)
Lemma crowded_file_opens :
  exists pdf,
    pdfioFileOpen 10 (Some "crowded.pdf"%string) (Some crowded_file) = Opened pdf /\
    pdf_errors pdf = [] /\
    pdfioFileFindObject pdf 2 <> None /\
    pdfioFileFindObject pdf 1002 = None.
Proof.
  assert (H : match pdfioFileOpen 10 (Some "crowded.pdf"%string) (Some crowded_file) with
              | Opened pdf =>
                  pdf_errors pdf = [] /\
                  pdfioFileFindObject pdf 2 <> None /\
                  pdfioFileFindObject pdf 1002 = None
              | _ => False
              end).
  { vm_compute. split; [reflexivity |]. split; [discriminate | reflexivity]. }
  destruct (pdfioFileOpen 10 (Some "crowded.pdf"%string) (Some crowded_file))
    as [pdf | last |]; [| contradiction..].
  exists pdf. split; [reflexivity | exact H].
Qed.

(** C10 fails on the code as it is stated: an entry that is dropped
    leaves no placeholder.  With the queue full, the type-2 record of
    object 5, in parent 2000, is passed over: the state is the same after
    it, and object 5 has no record.  And in the file with 1001 compressed
    objects, where the parent of object 1002 is the one that finds the
    queue full, the open succeeds and object 1002 has no record. *)
Lemma dropped_entry_leaves_no_record :
  (let pdf := set_index (new_pdf []) [mk_obj 9 0 100 VNone 0] [0%nat] in
   let record := [2; 0; 7; 208; 0] ++ repeat 0 27 in
   xref_record 1 3 1 record 5 full_queue pdf = Ret full_queue pdf /\
   to_size_t (field2 record 1 3) = 2000 /\
   pdf_errors pdf = [] /\
   pdfioFileFindObject pdf 5 = None) /\
  (exists pdf,
     pdfioFileOpen 10 (Some "crowded.pdf"%string) (Some crowded_file) = Opened pdf /\
     pdfioFileFindObject pdf 1002 = None).
Proof.
  split; [repeat split; vm_compute; reflexivity |].
  destruct crowded_file_opens as (pdf & Hopen & _ & _ & Hnone).
  exists pdf. auto.
Qed.

(** C10, as the code has it.  The queue of object streams to load
    after the pass over a cross-reference stream has no duplicates and at
    most 1000 entries.  When the queue is full, a type-2 entry whose object
    and whose parent are not in the Object Index is dropped: the record is
    passed over as a free entry is, with the same queue and the same
    state, so that nothing is reported and no record, not even a
    placeholder, is made for the object.  The open can still succeed: the
    file with 1001 compressed objects opens, without the last of them. *)
Theorem xref_queue_bounded :
  (forall (E : Externals) fuel w0 w1 w2 st buffer number pdf sobjs pdf',
     @xref_records E fuel w0 w1 w2 st buffer number [] pdf = Ret sobjs pdf' ->
     NoDup sobjs /\ (length sobjs <= 1000)%nat) /\
  (forall (E : Externals) w0 w1 w2 buffer number sobjs pdf,
     0 < w0 ->
     buf_at buffer 0 = 2 ->
     pdfioFileFindObject pdf (to_size_t number) = None ->
     pdfioFileFindObject pdf (to_size_t (field2 buffer w0 w1)) = None ->
     length sobjs = 1000%nat ->
     @xref_record E w0 w1 w2 buffer number sobjs pdf = Ret sobjs pdf /\
     forall free, buf_at free 0 = 0 ->
       @xref_record E w0 w1 w2 free number sobjs pdf = Ret sobjs pdf) /\
  (exists pdf,
     pdfioFileOpen 10 (Some "crowded.pdf"%string) (Some crowded_file) = Opened pdf /\
     pdf_errors pdf = [] /\
     pdfioFileFindObject pdf 1002 = None).
Proof.
  split; [| split].
  - intros E fuel w0 w1 w2 st buffer number pdf sobjs pdf' H.
    eapply xref_records_queue; [exact H |].
    split; [apply NoDup_nil_2 | simpl; lia].
  - intros E w0 w1 w2 buffer number sobjs pdf Hw0 Htype Hnum Hparent Hfull.
    split; [| intros free Hfree; by apply xref_record_free].
    unfold xref_record. munfold.
    apply Z.ltb_lt in Hw0. rewrite Hw0, Htype. simpl.
    rewrite Hnum, Hparent. by rewrite queue_parent_full.
  - destruct crowded_file_opens as (pdf & Hopen & Herr & _ & Hnone).
    exists pdf. auto.
Qed.

Lemma xref_queue_bounded_witness :
  let pdf := set_index (new_pdf []) [mk_obj 9 0 100 VNone 0] [0%nat] in
  xref_record 1 3 1 ([2; 0; 7; 208; 0] ++ repeat 0 27) 5 full_queue pdf =
    Ret full_queue pdf.
Proof.
  intros pdf.
  apply (proj1 (proj2 xref_queue_bounded)) with (E := Reference.externals);
    [lia | reflexivity | reflexivity | reflexivity | reflexivity].
Defined.

(** A header of 1001 pairs: [load_obj_stream] fails with
    too-many-objects, reported once, and the stream is closed. *)
Example load_obj_stream_too_many :
  exists last,
    load_obj_stream 0%nat
      (set_index (new_pdf long_header_file) [mk_obj 5 0 0 VNone 0] [0%nat])
    = Fail last /\
    pdf_errors last = [too_many_objects] /\
    pdf_streams last = [].
Proof.
  eexists. split; [vm_compute; reflexivity |]. split; reflexivity.
Qed.

End OnFiles.

(** * Further properties of the code *)

(** ** The Object Index: [add_obj] and [pdfioFileFindObject] *)

Section IndexFacts.

(** The numbers of the index after [add_obj] are those before and the
    number added. *)
Lemma add_obj_numbers number generation offset pdf obj pdf' :
  index_ok pdf ->
  add_obj number generation offset pdf = Ret obj pdf' ->
  obj = length (pdf_heap pdf) /\
  pdf_heap pdf' = pdf_heap pdf ++ [mk_obj number generation offset VNone 0] /\
  Permutation (pdf_objs pdf') (pdf_objs pdf ++ [obj]) /\
  Permutation (index_numbers pdf') (index_numbers pdf ++ [number]).
Proof.
  intros [Hvalid _] Hadd.
  destruct (add_obj_grows number generation offset pdf) as (pdf2 & Hadd2 & Hg & Hp).
  rewrite Hadd in Hadd2. inversion Hadd2; subst obj pdf2. clear Hadd2.
  simpl in Hp.
  assert (Hheap : pdf_heap pdf' =
                  pdf_heap pdf ++ [mk_obj number generation offset VNone 0]).
  { rewrite Hg. reflexivity. }
  repeat split; [exact Hheap | exact Hp |].
  unfold index_numbers. rewrite Hp, Hheap, map_app. simpl.
  apply Permutation_app.
  - erewrite map_ext_Forall; [reflexivity |].
    eapply Forall_impl; [exact Hvalid |]. simpl. intros p Hlt.
    by rewrite deref_app.
  - unfold deref. rewrite lookup_app_r, Nat.sub_diag by lia. reflexivity.
Qed.

(** X1. [add_obj] keeps the index sorted by object number whatever the
    number it is given (one that is smaller than the last, or one that is
    there already): the index has one record more, the new record has
    the number, the generation and the offset given, no value and no
    stream offset, and every pointer of the index is allocated. *)
Theorem add_obj_keeps_index_sorted number generation offset pdf obj pdf' :
  index_ok pdf ->
  add_obj number generation offset pdf = Ret obj pdf' ->
  index_ok pdf' /\
  pdfioFileGetNumObjects pdf' = S (pdfioFileGetNumObjects pdf) /\
  obj ∈ pdf_objs pdf' /\
  pdf_heap pdf' !! obj = Some (mk_obj number generation offset VNone 0).
Proof.
  intros Hok Hadd.
  destruct (add_obj_numbers _ _ _ _ _ _ Hok Hadd) as (-> & Hheap & Hp & _).
  split; [eapply add_obj_index_ok; eauto |].
  unfold pdfioFileGetNumObjects. rewrite Hp, length_app. simpl.
  split; [lia |]. split.
  - apply elem_of_app. right. by apply list_elem_of_singleton.
  - rewrite Hheap, lookup_app_r, Nat.sub_diag by lia. reflexivity.
Qed.

Lemma find_object_is_Some pdf number :
  index_ok pdf ->
  is_Some (pdfioFileFindObject pdf number) <-> number ∈ index_numbers pdf.
Proof.
  intros Hok. rewrite <- (find_object_scan pdf number Hok).
  destruct (pdfioFileFindObject pdf number); split; intros H;
    first [done | by eexists | by destruct H].
Qed.

(** X2. Insert, then look up.  After [add_obj] of [number] on a sorted
    index, [pdfioFileFindObject] finds a record with that number; it is
    the new record when the number was not there before; and whether
    any other number is found is as it was. *)
Theorem add_obj_then_find number generation offset pdf obj pdf' :
  index_ok pdf ->
  add_obj number generation offset pdf = Ret obj pdf' ->
  (exists p, pdfioFileFindObject pdf' number = Some p /\
             obj_number (deref (pdf_heap pdf') p) = number) /\
  (pdfioFileFindObject pdf number = None ->
   pdfioFileFindObject pdf' number = Some obj) /\
  (forall other, other <> number ->
     (is_Some (pdfioFileFindObject pdf' other) <->
      is_Some (pdfioFileFindObject pdf other))).
Proof.
  intros Hok Hadd.
  assert (Hok' : index_ok pdf') by (eapply add_obj_index_ok; eauto).
  destruct (add_obj_numbers _ _ _ _ _ _ Hok Hadd) as (Hobj & Hheap & Hp & Hn).
  assert (Hfound : is_Some (pdfioFileFindObject pdf' number)).
  { apply find_object_is_Some; [exact Hok' |]. rewrite Hn.
    apply elem_of_app. right. by apply list_elem_of_singleton. }
  destruct Hfound as [p Hfind].
  pose proof (find_object_sound _ _ _ Hfind) as [Hin Hnum].
  split; [eauto |]. split.
  - intros Hnone. rewrite Hfind. f_equal.
    rewrite Hp in Hin. apply elem_of_app in Hin as [Hin | Hin];
      [| by apply list_elem_of_singleton in Hin].
    exfalso.
    assert (Hno : ~ is_Some (pdfioFileFindObject pdf number))
      by (rewrite Hnone; by intros [? ?]).
    apply Hno, find_object_is_Some; [exact Hok |].
    unfold index_numbers. apply list_elem_of_fmap. exists p.
    split; [| exact Hin].
    destruct Hok as [Hvalid _]. rewrite Forall_forall in Hvalid.
    rewrite <- Hnum, Hheap, deref_app; [reflexivity | by apply Hvalid].
  - intros other Hne.
    rewrite !find_object_is_Some by assumption. rewrite Hn.
    rewrite elem_of_app, list_elem_of_singleton. tauto.
Qed.

(** X3. On a sorted index the binary search of [pdfioFileFindObject] is
    exact: what it returns is a record of the index with the number
    asked for, and it returns NULL only when no record of the index has
    that number. *)
Theorem find_object_exact pdf number :
  index_ok pdf ->
  match pdfioFileFindObject pdf number with
  | Some p =>
      p ∈ pdf_objs pdf /\ obj_number (deref (pdf_heap pdf) p) = number
  | None => number ∉ index_numbers pdf
  end.
Proof.
  intros Hok.
  destruct (pdfioFileFindObject pdf number) as [p |] eqn:Hfind.
  - by apply find_object_sound.
  - intros Hin. apply (find_object_is_Some pdf number Hok) in Hin.
    rewrite Hfind in Hin. by destruct Hin.
Qed.

End IndexFacts.

(** ** Messages reported and streams left open *)

(** [tidy m]: when [m] runs to its end it has reported nothing and has
    closed the streams it opened; when it fails it has reported one
    message at most. *)
Definition tidy {A : Type} (m : M A) : Prop :=
  forall pdf,
    match m pdf with
    | Ret _ pdf' =>
        pdf_errors pdf' = pdf_errors pdf /\ pdf_streams pdf' = pdf_streams pdf
    | Fail pdf' =>
        pdf_errors pdf' = pdf_errors pdf \/
        exists msg, pdf_errors pdf' = pdf_errors pdf ++ [msg]
    | Hang => True
    end.

Section Tidy.

Context {E : Externals}.

Lemma tidy_ret {A} (a : A) : tidy (mret a).
Proof. intros pdf. by split. Qed.

Lemma tidy_fail {A} : tidy (@fail A).
Proof. intros pdf. by left. Qed.

Lemma tidy_get : tidy get.
Proof. intros pdf. by split. Qed.

Lemma tidy_hang {A} : tidy (fun _ => @Hang A).
Proof. intros pdf. exact I. Qed.

Lemma tidy_error {A} msg : tidy (@error A msg).
Proof. intros pdf. right. by exists msg. Qed.

Lemma tidy_bind {A B} (m : M A) (k : A -> M B) :
  tidy m -> (forall a, tidy (k a)) -> tidy (m ≫= k).
Proof.
  intros Hm Hk pdf. specialize (Hm pdf). unfold mbind, M_bind.
  destruct (m pdf) as [a pdf1 | pdf1 |]; auto.
  destruct Hm as [He Hs]. specialize (Hk a pdf1).
  destruct (k a pdf1); [| | exact I].
  - destruct Hk. split; congruence.
  - rewrite <- He. exact Hk.
Qed.

Lemma tidy_modify (f : pdfio_file_t -> pdfio_file_t) :
  (forall pdf, pdf_errors (f pdf) = pdf_errors pdf /\
               pdf_streams (f pdf) = pdf_streams pdf) ->
  tidy (modify f).
Proof. intros Hf pdf. apply Hf. Qed.

Lemma tidy_seek_set offset : tidy (_pdfioFileSeek_SET offset).
Proof. intros pdf. unfold _pdfioFileSeek_SET. by destruct (offset <? 0). Qed.

Lemma tidy_seek_end offset : tidy (_pdfioFileSeek_END offset).
Proof. intros pdf. unfold _pdfioFileSeek_END. by destruct (_ <? 0). Qed.

Lemma tidy_read bytes : tidy (_pdfioFileRead bytes).
Proof. intros pdf. by split. Qed.

Lemma tidy_gets bufsize : tidy (_pdfioFileGets bufsize).
Proof.
  intros pdf. unfold _pdfioFileGets.
  destruct (gets_scan _ _) as [[eol l] n]. by split.
Qed.

Lemma tidy_add_obj number generation offset :
  tidy (add_obj number generation offset).
Proof. intros pdf. by split. Qed.

Lemma tidy_update_obj obj f : tidy (update_obj obj f).
Proof. intros pdf. by split. Qed.

Create HintDb tidy.
Hint Resolve tidy_ret tidy_fail tidy_get tidy_hang tidy_error tidy_seek_set
  tidy_seek_end tidy_read tidy_gets tidy_add_obj tidy_update_obj : tidy.

Ltac tidy_step :=
  match goal with
  | |- tidy (_ ≫= _) => apply tidy_bind; [| intros]
  | |- tidy (let '(_, _) := ?x in _) => destruct x
  | |- tidy (match ?x with _ => _ end) => destruct x
  | |- tidy (if ?b then _ else _) => destruct b
  | |- tidy (modify _) => apply tidy_modify; intros; by split
  | |- tidy _ => solve [eauto with tidy]
  end.

Ltac tidy_auto := repeat tidy_step.

Lemma tidy_load_value obj : tidy (load_value obj).
Proof. unfold load_value. tidy_auto. Qed.
Hint Resolve tidy_load_value : tidy.

Lemma tidy_get_dict obj : tidy (pdfioObjGetDict obj).
Proof. unfold pdfioObjGetDict. tidy_auto. Qed.
Hint Resolve tidy_get_dict : tidy.

(** The messages across [load_obj_stream]. *)
Definition reports_once (pdf pdf' : pdfio_file_t) : Prop :=
  pdf_errors pdf' = pdf_errors pdf \/
  exists msg, pdf_errors pdf' = pdf_errors pdf ++ [msg].

Lemma read_numbers_errors st room :
  forall tb buffer objs pdf,
    match read_numbers st room tb buffer objs pdf with
    | Ret _ pdf' => pdf_errors pdf' = pdf_errors pdf
    | Fail pdf' => reports_once pdf pdf'
    | Hang => True
    end.
Proof.
  induction room as [| room IH]; intros tb buffer objs pdf; simpl;
    destruct (_pdfioTokenGet tb buffer) as [[more buffer1] tb1];
    (destruct (negb more); [reflexivity |]);
    (destruct (negb (isdigit _)); [reflexivity |]).
  - right. by exists too_many_objects.
  - unfold mbind, M_bind, add_obj.
    destruct (_pdfioTokenGet tb1 buffer1) as [[more2 buffer2] tb2].
    match goal with |- context [read_numbers st room ?a ?b ?c ?d] =>
      specialize (IH a b c d); destruct (read_numbers st room a b c d) end;
      exact IH.
Qed.

Lemma read_values_errors st :
  forall objs tb pdf,
    match read_values st tb objs pdf with
    | Ret _ pdf' => pdf_errors pdf' = pdf_errors pdf
    | Fail pdf' => reports_once pdf pdf'
    | Hang => True
    end.
Proof.
  induction objs as [| obj objs IH]; intros tb pdf; simpl; [reflexivity |].
  destruct (_pdfioValueRead tb) as [[v tb1] |]; [| by left].
  unfold mbind, M_bind, update_obj, modify.
  match goal with |- context [read_values st ?a objs ?d] =>
    specialize (IH a d); destruct (read_values st a objs d) end; exact IH.
Qed.

Lemma load_obj_stream_errors obj pdf :
  match load_obj_stream obj pdf with
  | Ret _ pdf' => pdf_errors pdf' = pdf_errors pdf
  | Fail pdf' => reports_once pdf pdf'
  | Hang => True
  end.
Proof.
  unfold load_obj_stream. munfold.
  destruct (open_stream_streams obj pdf) as (st & pdf1 & Hopen & He & _).
  rewrite Hopen. destruct st as [payload |];
    [| right; exists cannot_open_object_stream; simpl; by rewrite He].
  unfold reports_once. rewrite <- He.
  match goal with |- context [read_numbers obj 1000 ?a ?b ?c pdf1] =>
    pose proof (read_numbers_errors obj 1000 a b c pdf1) as Hrn;
    destruct (read_numbers obj 1000 a b c pdf1) as [[[buffer tb] objs] pdf2 | pdf2 |]
  end; [| exact Hrn | exact I].
  rewrite <- Hrn.
  destruct (bool_decide _); [by left |].
  match goal with |- context [read_values obj ?a objs pdf2] =>
    pose proof (read_values_errors obj objs a pdf2) as Hrv;
    destruct (read_values obj a objs pdf2) as [[] pdf3 | pdf3 |]
  end; [exact Hrv | exact Hrv | exact I].
Qed.

Lemma tidy_load_obj_stream obj : tidy (load_obj_stream obj).
Proof.
  intros pdf. pose proof (load_obj_stream_errors obj pdf) as He.
  pose proof (load_obj_stream_closes obj pdf) as Hs.
  destruct (load_obj_stream obj pdf); auto.
Qed.
Hint Resolve tidy_load_obj_stream : tidy.

Lemma tidy_load_pages fuel : forall obj, tidy (load_pages fuel obj).
Proof.
  induction fuel as [| fuel IH]; intros obj; simpl; tidy_auto.
  match goal with |- tidy (_ ?l) => generalize l end.
  intros ks; induction ks as [| ? ks IHks]; tidy_auto.
Qed.

Lemma tidy_xref_record w0 w1 w2 buffer number sobjs :
  tidy (xref_record w0 w1 w2 buffer number sobjs).
Proof. unfold xref_record. tidy_auto. Qed.
Hint Resolve tidy_load_pages tidy_xref_record : tidy.

Lemma tidy_xref_records fuel w0 w1 w2 :
  forall st buffer number sobjs,
    tidy (xref_records fuel w0 w1 w2 st buffer number sobjs).
Proof. induction fuel as [| fuel IH]; intros; simpl; tidy_auto. Qed.

Lemma tidy_load_queued sobjs : tidy (load_queued sobjs).
Proof. induction sobjs as [| parent rest IH]; simpl; tidy_auto. Qed.
Hint Resolve tidy_xref_records tidy_load_queued : tidy.

(** The cross-reference stream is open while its records are read, and
    closed before the queued object streams are loaded. *)
Lemma tidy_xref_stream_from obj dict number :
  tidy (xref_stream_from obj dict number).
Proof.
  unfold xref_stream_from.
  destruct (pdfioDictGetArray dict "W") as [w_array |]; [| apply tidy_error].
  destruct (_ || _); [apply tidy_error |].
  intros pdf. unfold mbind at 1, M_bind at 1.
  destruct (open_stream_streams obj pdf) as (st & pdf1 & Hopen & He & Hst).
  rewrite Hopen. destruct st as [payload |];
    [| right; exists cannot_open_xref_stream; simpl; by rewrite He].
  rewrite <- He. unfold mbind at 1, M_bind at 1.
  match goal with |- context [xref_records ?f ?a ?b ?c ?d ?e ?g ?h pdf1] =>
    pose proof (tidy_xref_records f a b c d e g h pdf1) as Hr;
    destruct (xref_records f a b c d e g h pdf1) as [sobjs pdf2 | pdf2 |]
  end; [| exact Hr | exact I].
  destruct Hr as [He2 Hs2]. unfold mbind, M_bind, pdfioStreamClose, modify.
  match goal with |- context [load_queued sobjs ?p] =>
    pose proof (tidy_load_queued sobjs p) as Hq;
    destruct (load_queued sobjs p) as [[] pdf3 | pdf3 |]
  end; [| | exact I]; simpl in Hq.
  - destruct Hq as [He3 Hs3]. split; [congruence |].
    rewrite Hs3, Hs2, Hst. apply remove_last_app.
  - rewrite <- He2. exact Hq.
Qed.
Hint Resolve tidy_xref_stream_from : tidy.

Lemma tidy_xref_stream_entries obj dict : tidy (xref_stream_entries obj dict).
Proof. unfold xref_stream_entries, xref_index. tidy_auto. Qed.

Lemma tidy_xref_stream_object line xref_offset :
  tidy (xref_stream_object line xref_offset).
Proof. unfold xref_stream_object, xref_stream_header. tidy_auto. Qed.
Hint Resolve tidy_xref_stream_entries tidy_xref_stream_object : tidy.

Lemma tidy_xref_entry number : tidy (xref_entry number).
Proof. unfold xref_entry. tidy_auto. Qed.
Hint Resolve tidy_xref_entry : tidy.

Lemma tidy_xref_group fuel :
  forall number num_objects, tidy (xref_group fuel number num_objects).
Proof. induction fuel as [| fuel IH]; intros; simpl; tidy_auto. Qed.
Hint Resolve tidy_xref_group : tidy.

Lemma tidy_xref_groups fuel : tidy (xref_groups fuel).
Proof. induction fuel as [| fuel IH]; simpl; tidy_auto. Qed.
Hint Resolve tidy_xref_groups : tidy.

Lemma tidy_load_xref_section xref_offset : tidy (load_xref_section xref_offset).
Proof.
  unfold load_xref_section, load_xref_stream, load_xref_table. tidy_auto.
Qed.
Hint Resolve tidy_load_xref_section : tidy.

Lemma tidy_load_xref_chain fuel :
  forall xref_offset, tidy (load_xref_chain fuel xref_offset).
Proof. induction fuel as [| fuel IH]; intros; simpl; tidy_auto. Qed.
Hint Resolve tidy_load_xref_chain : tidy.

Lemma tidy_load_xref fuel xref_offset : tidy (load_xref fuel xref_offset).
Proof. unfold load_xref. tidy_auto. Qed.
Hint Resolve tidy_load_xref : tidy.

Lemma tidy_read_file fuel : tidy (read_file fuel).
Proof. unfold read_file. tidy_auto. Qed.


(** X5. On the paths on which no allocation fails (the only ones
    [add_obj] has here), the code of [pdfioFileOpen] and of the
    functions it calls in this file invokes the error callback once at
    most, and not at all when the file is opened. *)
Theorem open_reports_at_most_once fuel filename file :
  match pdfioFileOpen fuel filename file with
  | Opened pdf => pdf_errors pdf = []
  | Null last => (length (pdf_errors last) <= 1)%nat
  | Running => True
  end.
Proof.
  unfold pdfioFileOpen. destruct filename; [| simpl; lia].
  destruct file as [data |]; [| simpl; lia].
  pose proof (tidy_read_file fuel (new_pdf data)) as H.
  destruct (read_file fuel (new_pdf data)); [by destruct H | | exact I].
  destruct H as [-> | [msg ->]]; simpl; lia.
Qed.

(** X6. A file that [pdfioFileOpen] returns has no decode stream left
    open: the cross-reference streams and the object streams that were
    read are closed. *)
Theorem opened_file_has_no_open_stream fuel filename file :
  match pdfioFileOpen fuel filename file with
  | Opened pdf => pdf_streams pdf = []
  | _ => True
  end.
Proof.
  unfold pdfioFileOpen. destruct filename; [| exact I].
  destruct file as [data |]; [| exact I].
  pose proof (tidy_read_file fuel (new_pdf data)) as H.
  destruct (read_file fuel (new_pdf data)); [by destruct H | exact I | exact I].
Qed.

End Tidy.

(** ** Records are added, never removed *)

(** [extends pdf pdf']: every object allocated in [pdf] is allocated in
    [pdf'] with the number, the generation and the offset it had; the
    index of [pdf'] holds the pointers of the index of [pdf], and
    others; the pages of [pdf'] are those of [pdf], and others after
    them. *)
Definition extends (pdf pdf' : pdfio_file_t) : Prop :=
  (forall p o,
     pdf_heap pdf !! p = Some o ->
     exists o',
       pdf_heap pdf' !! p = Some o' /\
       obj_number o' = obj_number o /\
       obj_generation o' = obj_generation o /\
       obj_offset o' = obj_offset o) /\
  (exists news, Permutation (pdf_objs pdf') (pdf_objs pdf ++ news)) /\
  (exists more, pdf_pages pdf' = pdf_pages pdf ++ more).

Lemma extends_refl pdf : extends pdf pdf.
Proof.
  split; [intros p o Hp; by exists o |].
  split; exists []; by rewrite app_nil_r.
Qed.

Lemma extends_same pdf pdf' :
  pdf_heap pdf' = pdf_heap pdf -> pdf_objs pdf' = pdf_objs pdf ->
  pdf_pages pdf' = pdf_pages pdf -> extends pdf pdf'.
Proof.
  intros Hh Ho Hp. unfold extends. rewrite Hh, Ho, Hp. apply extends_refl.
Qed.

#[global] Instance extends_frame : FrameOpen extends.
Proof.
  split; [split; [split; [split |..] |..] |];
    try (intros; by apply extends_same).
  - intros pdf1 pdf2 pdf3 (H1 & [n1 P1] & [m1 M1]) (H2 & [n2 P2] & [m2 M2]).
    split; [| split].
    + intros p o Hp. destruct (H1 p o Hp) as (o1 & Hp1 & ? & ? & ?).
      destruct (H2 p o1 Hp1) as (o2 & Hp2 & ? & ? & ?).
      exists o2. repeat split; congruence.
    + exists (n1 ++ n2). rewrite P2, P1. by rewrite app_assoc.
    + exists (m1 ++ m2). rewrite M2, M1. by rewrite app_assoc.
  - intros pdf number generation offset obj pdf' Hadd.
    destruct (add_obj_grows number generation offset pdf) as (pdf2 & Hadd2 & Hg & Hp).
    rewrite Hadd in Hadd2. inversion Hadd2; subst obj pdf2. clear Hadd2.
    split; [| split].
    + intros p o Hlook. exists o. rewrite Hg. simpl.
      split; [by apply lookup_app_l_Some | done].
    + eexists. exact Hp.
    + exists []. rewrite Hg. simpl. by rewrite app_nil_r.
  - intros pdf obj f Hf. split; [| split].
    + intros p o Hlook. simpl. rewrite list_lookup_alter.
      destruct (decide (obj = p)) as [-> |]; [| by exists o].
      rewrite Hlook. simpl. exists (f o). split; [done | apply Hf].
    + exists []. simpl. by rewrite app_nil_r.
    + exists []. simpl. by rewrite app_nil_r.
  - intros pdf p. split; [intros q o Hq; by exists o |].
    split; [exists []; simpl; by rewrite app_nil_r |]. by exists [p].
Qed.

Section OnlyAdds.

Context {E : Externals}.

(** X7. From any state, [load_xref] only adds to the Object Index and
    to the list of pages: whether it succeeds or fails no record is
    removed from the index, no record changes its number, its generation
    or its offset, and the pages there were stay first, in their
    order. *)
Theorem load_xref_only_adds fuel xref_offset pdf :
  match load_xref fuel xref_offset pdf with
  | Ret _ pdf' | Fail pdf' => extends pdf pdf'
  | Hang => True
  end.
Proof. apply (keeps_load_xref extends). Qed.

(** X8. In a file that [pdfioFileOpen] returns the records come by
    index in the order of their object numbers (two records may have
    the same number), and [pdfioFileFindObject] finds a number exactly
    when [pdfioFileGetObject] gives a record with that number at some
    index. *)
Theorem opened_objects_in_order fuel filename file pdf :
  pdfioFileOpen fuel filename file = Opened pdf ->
  (forall i j oi oj,
     (i <= j)%nat ->
     pdfioFileGetObject pdf i = Some oi ->
     pdfioFileGetObject pdf j = Some oj ->
     obj_number oi <= obj_number oj) /\
  (forall number,
     is_Some (pdfioFileFindObject pdf number) <->
     exists i o, pdfioFileGetObject pdf i = Some o /\ obj_number o = number).
Proof.
  intros Hopen. apply opened_index_sorted in Hopen as Hok.
  assert (Hget : forall i o,
            pdfioFileGetObject pdf i = Some o <->
            exists p, pdf_objs pdf !! i = Some p /\ o = deref (pdf_heap pdf) p).
  { intros i o. unfold pdfioFileGetObject.
    destruct (length (pdf_objs pdf) <=? i)%nat eqn:Hlen.
    - apply Nat.leb_le in Hlen. split; [discriminate |].
      intros (p & Hp & _). apply lookup_lt_Some in Hp. lia.
    - destruct (pdf_objs pdf !! i) as [p |]; simpl.
      + split; [intros [= <-]; by exists p | intros (q & [= <-] & ->); done].
      + split; [discriminate | intros (q & Hq & _); discriminate]. }
  split.
  - intros i j oi oj Hij Hi Hj.
    apply Hget in Hi as (p & Hp & ->). apply Hget in Hj as (q & Hq & ->).
    destruct Hok as [_ Hs].
    eapply (sorted_lookup _ Hs i j); [exact Hij | |];
      unfold index_numbers; rewrite list_lookup_fmap.
    + by rewrite Hp.
    + by rewrite Hq.
  - intros number. rewrite find_object_is_Some by exact Hok.
    unfold index_numbers. rewrite list_elem_of_fmap. split.
    + intros (p & -> & Hin). apply list_elem_of_lookup in Hin as [i Hi].
      exists i, (deref (pdf_heap pdf) p). split; [| done].
      apply Hget. by exists p.
    + intros (i & o & Hi & <-). apply Hget in Hi as (p & Hp & ->).
      exists p. split; [done |]. by eapply list_elem_of_lookup_2.
Qed.

End OnlyAdds.

(** ** Loops that do not end *)

Section Cycles.

Context {E : Externals}.

(** X9. [load_xref] follows /Prev without remembering where it has
    been.  Once the section at [xref_offset] has been loaded, if
    loading it again leaves the file as it is and its /Prev is
    [xref_offset] itself, the chain loop never returns. *)
Theorem prev_cycle_never_ends xref_offset pdf trailer :
  load_xref_section xref_offset pdf = Ret trailer pdf ->
  pdfioDictGetNumber trailer "Prev" = xref_offset ->
  0 < xref_offset ->
  is_Some (pdf_trailer pdf) ->
  forall fuel, load_xref_chain fuel xref_offset pdf = Hang.
Proof.
  intros Hsection Hprev Hpos [d Hd] fuel.
  induction fuel as [| fuel IH]; [reflexivity |].
  cbn [load_xref_chain]. unfold mbind at 1, M_bind at 1. rewrite Hsection.
  munfold. rewrite Hd, Hprev.
  destruct (xref_offset <=? 0) eqn:Hle; [apply Z.leb_le in Hle; lia |].
  exact IH.
Qed.

(** X10. [load_pages] follows /Kids without remembering where it has
    been.  For a page tree node that is loaded and whose first kid is
    a reference to the node itself, the recursion never returns. *)
Theorem kids_cycle_never_ends p pdf o dict type kids number generation :
  pdf_heap pdf !! p = Some o ->
  obj_value o = VDict dict ->
  pdfioDictGetName dict "Type" = Some type ->
  (type = "Pages" \/ type = "Page")%string ->
  pdfioDictGetArray dict "Kids" = Some (VIndirect number generation :: kids) ->
  pdfioFileFindObject pdf number = Some p ->
  forall fuel, load_pages fuel (Some p) pdf = Hang.
Proof.
  intros Hp Hv Htype Hpages Hkids Hfind fuel.
  assert (Hdict : pdfioObjGetDict p pdf = Ret (Some dict) pdf).
  { unfold pdfioObjGetDict, load_value. munfold.
    unfold deref. rewrite Hp, Hv. cbn [is_VNone]. rewrite Hp, Hv.
    reflexivity. }
  induction fuel as [| fuel IH]; [reflexivity |].
  cbn [load_pages]. unfold mbind at 1, M_bind at 1. rewrite Hdict.
  rewrite Htype.
  replace (negb (type =? "Pages")%string && negb (type =? "Page")%string)
    with false
    by (destruct Hpages as [-> | ->]; reflexivity).
  rewrite Hkids. cbn [pdfioArrayGetSize length seq].
  munfold. unfold pdfioArrayGetObject. cbn [lookup list_lookup value_object].
  rewrite Hfind, IH. reflexivity.
Qed.

End Cycles.

(** ** Cross-reference streams: the fields of a record *)

Section Records.

Context {E : Externals}.

Lemma buf_at_app_l pre post i :
  (i < length pre)%nat -> buf_at (pre ++ post) (Z.of_nat i) = nth i pre 0.
Proof.
  intros Hi. unfold buf_at.
  destruct (Z.of_nat i <? 0) eqn:Hneg; [apply Z.ltb_lt in Hneg; lia |].
  rewrite Nat2Z.id. by apply app_nth1.
Qed.

Lemma buf_at_app_r pre post i :
  buf_at (pre ++ post) (Z.of_nat (length pre + i)) = nth i post 0.
Proof.
  unfold buf_at.
  destruct (_ <? 0) eqn:Hneg; [apply Z.ltb_lt in Hneg; lia |].
  rewrite Nat2Z.id, app_nth2 by lia. f_equal. lia.
Qed.

Lemma field3_big_endian pre bs post :
  Forall (fun b => 0 <= b < 256) bs ->
  (length bs <= 2)%nat ->
  field3 (pre ++ bs ++ post) (Z.of_nat (length pre)) (Z.of_nat (length bs)) =
  big_endian bs.
Proof.
  intros Hall Hlen. unfold field3.
  assert (Hat : forall i,
            buf_at (pre ++ bs ++ post) (Z.of_nat (length pre) + Z.of_nat i) =
            nth i (bs ++ post) 0).
  { intros i. rewrite <- Nat2Z.inj_add. apply buf_at_app_r. }
  pose proof (Hat 0%nat) as Hat0. rewrite Z.add_0_r in Hat0.
  pose proof (Hat 1%nat) as Hat1. change (Z.of_nat 1) with 1 in Hat1.
  rewrite Hat0, Hat1.
  destruct bs as [| b0 [| b1 [| b2 bs]]]; simpl in Hlen; try lia;
    try reflexivity.
  inversion Hall as [| ? ? H0 Hall']; subst.
  inversion Hall' as [| ? ? H1 _]; subst.
  simpl. rewrite lor_shiftl_byte by lia. unfold big_endian. simpl. lia.
Qed.

(** X11. A record of a cross-reference stream whose type byte is neither
    0 nor 2 (type 1, or a type the format does not define), or that has
    no type field, for a number that is not in the index, adds an
    object: its offset is field 2 and its generation field 3, each read
    as a big-endian integer.  The type is the first byte of the record,
    however wide field 1 is. *)
Theorem xref_record_adds_object f1 f2 f3 rest number sobjs pdf :
  Forall (fun b => 0 <= b < 256) f2 ->
  Forall (fun b => 0 <= b < 256) f3 ->
  (1 <= length f2 <= 7)%nat ->
  (length f3 <= 2)%nat ->
  (length f1 <= 32)%nat ->
  hd 1 f1 <> 0 -> hd 1 f1 <> 2 ->
  pdfioFileFindObject pdf (to_size_t number) = None ->
  xref_record (Z.of_nat (length f1)) (Z.of_nat (length f2))
    (Z.of_nat (length f3)) (f1 ++ f2 ++ f3 ++ rest) number sobjs pdf =
  match add_obj (to_size_t number) (big_endian f3) (big_endian f2) pdf with
  | Ret _ pdf' => Ret sobjs pdf'
  | Fail pdf' => Fail pdf'
  | Hang => Hang
  end.
Proof.
  intros H2 H3 Hl2 Hl3 Hl1 Ht0 Ht2 Hnone.
  unfold xref_record.
  assert (Hty : forall t,
            hd 1 f1 <> t ->
            (0 <? Z.of_nat (length f1)) &&
            (buf_at (f1 ++ f2 ++ f3 ++ rest) 0 =? t) = false).
  { intros t Ht. destruct f1 as [| b f1']; [reflexivity |].
    simpl in Ht. apply andb_false_iff. right. apply Z.eqb_neq.
    unfold buf_at. simpl. exact Ht. }
  rewrite (Hty 0 Ht0). munfold. rewrite Hnone, (Hty 2 Ht2).
  rewrite field2_big_endian by assumption.
  replace (to_size_t (Z.of_nat (length f1) + Z.of_nat (length f2)))
    with (Z.of_nat (length (f1 ++ f2))).
  2:{ rewrite length_app. unfold to_size_t, wrap_unsigned.
      rewrite Z.mod_small; [lia |]. split; [lia |].
      apply Z.lt_le_trans with 40; [lia | by vm_compute]. }
  rewrite (app_assoc f1 f2), field3_big_endian by assumption.
  rewrite to_ushort_small; [reflexivity |].
  pose proof (big_endian_bound f3 H3) as Hb.
  assert (256 ^ Z.of_nat (length f3) <= 256 ^ 2)
    by (apply Z.pow_le_mono_r; lia).
  change (256 ^ 2) with 65536 in *. lia.
Qed.

End Records.

(** ** Files too short to hold [startxref] *)

Section ShortFiles.

Context {E : Externals}.

(** X12. A file of fewer than 32 bytes is never opened, whatever it
    holds: without a whole first line [pdfioFileOpen] fails and reports
    nothing, with a bad header it reports that, and with a good header
    it reports that [startxref] cannot be read. *)
Theorem short_file_is_not_opened fuel name data :
  (length data < 32)%nat ->
  exists last,
    pdfioFileOpen fuel (Some name) (Some data) = Null last /\
    (pdf_errors last = [] \/ pdf_errors last = [bad_header] \/
     pdf_errors last = [io_startxref]).
Proof.
  intros Hshort. unfold pdfioFileOpen, read_file.
  unfold mbind at 1, M_bind at 1. unfold _pdfioFileGets.
  destruct (gets_scan _ _) as [[more line] n]. cbn [new_pdf pdf_pos].
  destruct (negb more); [eexists; split; [reflexivity | by left] |].
  destruct (negb (header_ok line));
    [eexists; split; [reflexivity | right; by left] |].
  munfold. unfold _pdfioFileSeek_END.
  cbn [pdf_data pdf_pos set_version set_pos new_pdf].
  assert (Hneg : (Z.of_nat (length data) + -32 <? 0) = true)
    by (apply Z.ltb_lt; lia).
  rewrite Hneg. unfold _pdfioFileRead.
  cbn [pdf_data pdf_pos set_version set_pos new_pdf].
  match goal with |- context [(length ?got <? 32)%nat] =>
    assert (Hgot : (length got <? 32)%nat = true)
  end.
  { apply Nat.ltb_lt. rewrite length_take, length_drop. lia. }
  rewrite Hgot. eexists. split; [reflexivity |]. right. by right.
Qed.

End ShortFiles.

(** ** The catalog and the pages of an opened file *)

(** The dictionary of a page as [load_pages] takes it: /Type is /Page
    or /Pages and there is no /Kids array. *)
Definition page_dict (d : pdfio_dict_t) : Prop :=
  (pdfioDictGetName d "Type" = Some "Page"%string \/
   pdfioDictGetName d "Type" = Some "Pages"%string) /\
  pdfioDictGetArray d "Kids" = None.

(** Every page is an object of the index whose value is the dictionary
    of a page. *)
Definition pages_ok (pdf : pdfio_file_t) : Prop :=
  forall p,
    p ∈ pdf_pages pdf ->
    p ∈ pdf_objs pdf /\
    exists d, obj_value (deref (pdf_heap pdf) p) = VDict d /\ page_dict d.

(** [fills pdf pdf']: the index, the composite trailer and the objects
    it names are the same, and so are the objects allocated, but for the
    value and the stream offset of an object that had no value. *)
Definition fills (pdf pdf' : pdfio_file_t) : Prop :=
  pdf_objs pdf' = pdf_objs pdf /\
  pdf_trailer pdf' = pdf_trailer pdf /\
  pdf_root pdf' = pdf_root pdf /\
  pdf_info pdf' = pdf_info pdf /\
  pdf_encrypt pdf' = pdf_encrypt pdf /\
  pdf_id_array pdf' = pdf_id_array pdf /\
  forall p,
    obj_number (deref (pdf_heap pdf') p) = obj_number (deref (pdf_heap pdf) p) /\
    (obj_value (deref (pdf_heap pdf) p) <> VNone ->
     obj_value (deref (pdf_heap pdf') p) = obj_value (deref (pdf_heap pdf) p)).

(** The list of pages is written by [load_pages] only. *)
Definition same_pages (pdf pdf' : pdfio_file_t) : Prop :=
  pdf_pages pdf' = pdf_pages pdf.

#[global] Instance same_pages_frame : FrameChain same_pages.
Proof.
  split; [split |]; unfold same_pages; try (intros; reflexivity).
  - intros; congruence.
  - intros pdf number generation offset obj pdf'. unfold add_obj.
    by intros [= <- <-].
Qed.

Lemma fills_refl pdf : fills pdf pdf.
Proof. repeat split. Qed.

Lemma fills_trans pdf1 pdf2 pdf3 :
  fills pdf1 pdf2 -> fills pdf2 pdf3 -> fills pdf1 pdf3.
Proof.
  intros (O1 & T1 & R1 & I1 & E1 & A1 & H1) (O2 & T2 & R2 & I2 & E2 & A2 & H2).
  repeat split; try congruence.
  - destruct (H1 p) as [Hn1 _], (H2 p) as [Hn2 _]. congruence.
  - intros Hv. destruct (H1 p) as [_ Hv1], (H2 p) as [_ Hv2].
    rewrite Hv2; [by apply Hv1 |]. rewrite Hv1; done.
Qed.

Lemma fills_errors pdf errs : fills pdf (set_errors pdf errs).
Proof. repeat split. Qed.

Lemma pages_ok_fills pdf pdf' :
  fills pdf pdf' -> pdf_pages pdf' = pdf_pages pdf ->
  pages_ok pdf -> pages_ok pdf'.
Proof.
  intros (Ho & _ & _ & _ & _ & _ & Hh) Hp Hok p Hin.
  rewrite Hp in Hin. destruct (Hok p Hin) as (Hobj & d & Hv & Hd).
  rewrite Ho. split; [exact Hobj |].
  exists d. split; [| exact Hd].
  destruct (Hh p) as [_ Hv']. rewrite Hv'; [exact Hv | by rewrite Hv].
Qed.

Section Pages.

Context {E : Externals}.

Lemma load_value_fills obj pdf :
  exists loaded pdf',
    load_value obj pdf = Ret loaded pdf' /\
    fills pdf pdf' /\ pdf_pages pdf' = pdf_pages pdf.
Proof.
  unfold load_value. munfold.
  destruct (is_VNone _) eqn:Hnone;
    [| eexists _, _; split; [reflexivity | split; [apply fills_refl | done]]].
  destruct (_pdfioObjLoad _ _) as [[v off] |];
    [| eexists _, _; split; [reflexivity | split; [apply fills_refl | done]]].
  eexists _, _. split; [reflexivity |]. split; [| reflexivity].
  repeat split; simpl; unfold deref in *; rewrite list_lookup_alter;
    destruct (decide (obj = p)) as [-> |]; try done;
    destruct (pdf_heap pdf !! p) as [o |]; simpl; try done.
  intros Hv. exfalso. apply Hv. by destruct (obj_value o).
Qed.

Lemma get_dict_fills obj pdf :
  exists dict pdf',
    pdfioObjGetDict obj pdf = Ret dict pdf' /\
    fills pdf pdf' /\ pdf_pages pdf' = pdf_pages pdf /\
    forall d, dict = Some d -> obj_value (deref (pdf_heap pdf') obj) = VDict d.
Proof.
  unfold pdfioObjGetDict. unfold mbind at 1, M_bind at 1.
  destruct (load_value_fills obj pdf) as (loaded & pdf1 & -> & Hf & Hp).
  munfold.
  destruct loaded;
    [| eexists _, _; split; [reflexivity |];
       split; [exact Hf | split; [exact Hp | discriminate]]].
  destruct (obj_value (deref (pdf_heap pdf1) obj)) eqn:Hv;
    eexists _, _; (split; [reflexivity |]);
    (split; [exact Hf | split; [exact Hp |]]); try discriminate.
  by intros d' [= <-].
Qed.

Lemma array_object_indexed pdf kids n q :
  pdfioArrayGetObject pdf kids n = Some q -> q ∈ pdf_objs pdf.
Proof.
  unfold pdfioArrayGetObject, value_object.
  destruct (kids !! n) as [[] |]; try discriminate.
  intros H. by apply find_object_sound in H as [? _].
Qed.

Lemma load_pages_fills fuel :
  forall obj pdf,
    (forall p, obj = Some p -> p ∈ pdf_objs pdf) ->
    pages_ok pdf ->
    match load_pages fuel obj pdf with
    | Ret _ pdf' | Fail pdf' => fills pdf pdf' /\ pages_ok pdf'
    | Hang => True
    end.
Proof.
  induction fuel as [| fuel IH]; intros obj pdf Hobj Hok; [exact I |].
  cbn [load_pages]. destruct obj as [p |];
    [| split; [apply fills_errors | exact Hok]].
  specialize (Hobj p eq_refl). unfold mbind at 1, M_bind at 1.
  destruct (get_dict_fills p pdf) as (dict & pdf1 & -> & Hf & Hp & Hd).
  pose proof (pages_ok_fills _ _ Hf Hp Hok) as Hok1.
  destruct dict as [dict |]; [| split; [exact Hf | exact Hok1]].
  pose proof (Hd dict eq_refl) as Hv.
  destruct (pdfioDictGetName dict "Type") as [type |] eqn:Htype;
    [| split; [exact Hf | exact Hok1]].
  destruct (negb (type =? "Pages")%string && negb (type =? "Page")%string)
    eqn:Hcheck; [split; [exact Hf | exact Hok1] |].
  destruct (pdfioDictGetArray dict "Kids") as [kids |] eqn:Hkids.
  - generalize (seq 0 (pdfioArrayGetSize kids)). intros ks.
    revert Hf Hok1. clear Hv Hp Hd. generalize pdf1.
    induction ks as [| k ks IHks]; intros pdfk Hf Hokk;
      [split; assumption |].
    munfold.
    assert (Hq : forall q, pdfioArrayGetObject pdfk kids k = Some q ->
                           q ∈ pdf_objs pdfk)
      by (intros q; apply array_object_indexed).
    specialize (IH (pdfioArrayGetObject pdfk kids k) pdfk Hq Hokk).
    destruct (load_pages fuel (pdfioArrayGetObject pdfk kids k) pdfk)
      as [[] pdfk' | pdfk' |]; [| | exact I].
    + destruct IH as [Hf' Hok']. apply IHks; [| exact Hok'].
      eapply fills_trans; eauto.
    + destruct IH as [Hf' Hok']. split; [| exact Hok'].
      eapply fills_trans; eauto.
  - unfold modify. split; [exact Hf |].
    intros q Hin. simpl in Hin. simpl.
    apply elem_of_app in Hin as [Hin | Hin]; [by apply Hok1 |].
    apply list_elem_of_singleton in Hin as ->.
    destruct Hf as (Hobjs & _). rewrite Hobjs. split; [exact Hobj |].
    exists dict. split; [exact Hv |].
    split; [| exact Hkids]. rewrite Htype.
    apply andb_false_iff in Hcheck as [Hc | Hc];
      apply negb_false_iff, String.eqb_eq in Hc; subst; auto.
Qed.

(** From the end of the chain loop to the end of [pdfioFileOpen]. *)
Lemma opened_tail fuel filename file pdf :
  pdfioFileOpen fuel filename file = Opened pdf ->
  exists pdf1 root dict pdf3,
    pdf_pages pdf1 = [] /\
    pdfioDictGetObject pdf1 (pdf_trailer pdf1) "Root" = Some root /\
    pdfioObjGetDict root
      (set_info (set_root pdf1 (Some root))
         (pdfioDictGetObject (set_root pdf1 (Some root))
            (Some (default [] (pdf_trailer pdf1))) "Info")
         (pdfioDictGetObject (set_root pdf1 (Some root))
            (Some (default [] (pdf_trailer pdf1))) "Encrypt")
         (pdfioDictGetArray (default [] (pdf_trailer pdf1)) "ID")) =
      Ret dict pdf3 /\
    load_pages fuel (pdfioDictGetObject pdf3 dict "Pages") pdf3 = Ret tt pdf.
Proof.
  unfold pdfioFileOpen. destruct filename; [| discriminate].
  destruct file as [data |]; [| discriminate].
  destruct (read_file fuel (new_pdf data)) as [[] pdf' | |] eqn:Hread;
    try discriminate.
  intros [= ->]. revert Hread. unfold read_file.
  unfold mbind at 1, M_bind at 1. unfold _pdfioFileGets.
  destruct (gets_scan _ _) as [[more line] n].
  destruct (negb more); [discriminate |].
  destruct (negb (header_ok line)); [discriminate |].
  munfold. unfold _pdfioFileSeek_END, _pdfioFileRead.
  match goal with |- context [if ?c then Ret (-1) ?a else Ret ?t ?b] =>
    assert (Hstart : exists pos pdf0,
              (if c then Ret (-1) a else Ret t b) = Ret pos pdf0 /\
              pdf_pages pdf0 = [])
      by (destruct c; eexists _, _; split; reflexivity)
  end.
  destruct Hstart as (pos & pdf0 & -> & Hpages0).
  destruct (length _ <? 32)%nat; [discriminate |].
  destruct (strstr _ _) as [ptr |]; [| discriminate].
  match goal with |- load_xref fuel ?x ?p = _ -> _ =>
    generalize x; assert (Hp : pdf_pages p = []) by exact Hpages0;
    revert Hp; generalize p
  end.
  clear. intros pdf0 Hpages0 xref_offset. unfold load_xref.
  unfold mbind at 1, M_bind at 1.
  pose proof (keeps_load_xref_chain same_pages fuel xref_offset pdf0) as Hk.
  destruct (load_xref_chain fuel xref_offset pdf0) as [[] pdf1 | |];
    try discriminate.
  unfold same_pages in Hk. rewrite Hpages0 in Hk.
  munfold.
  destruct (pdfioDictGetObject pdf1 (pdf_trailer pdf1) "Root") as [root |]
    eqn:Hroot; [| discriminate].
  match goal with |- context [pdfioObjGetDict root ?p] =>
    destruct (pdfioObjGetDict root p) as [dict pdf3 | |] eqn:Hdict
  end; try discriminate.
  intros Hpages. exists pdf1, root, dict, pdf3. auto.
Qed.

(** X13. In a file that [pdfioFileOpen] returns, every page that
    [pdfioFileGetPage] gives is a record of the Object Index whose value
    is a dictionary with /Type /Page or /Pages and without a /Kids
    array. *)
Theorem opened_pages_are_objects fuel filename file pdf :
  pdfioFileOpen fuel filename file = Opened pdf ->
  forall n page,
    pdfioFileGetPage pdf n = Some page ->
    (exists i, pdfioFileGetObject pdf i = Some page) /\
    exists d, obj_value page = VDict d /\ page_dict d.
Proof.
  intros Hopen n page Hpage.
  destruct (opened_tail _ _ _ _ Hopen)
    as (pdf1 & root & dict & pdf3 & Hp1 & Hroot & Hdict & Hpages).
  match type of Hdict with pdfioObjGetDict root ?p = _ =>
    destruct (get_dict_fills root p) as (dict' & pdf3' & Hd' & _ & Hp3 & _)
  end.
  rewrite Hdict in Hd'. inversion Hd'; subst dict' pdf3'. clear Hd'.
  simpl in Hp3. rewrite Hp1 in Hp3.
  assert (Hok3 : pages_ok pdf3) by (intros p Hin; rewrite Hp3 in Hin; inversion Hin).
  assert (Hq : forall p, pdfioDictGetObject pdf3 dict "Pages" = Some p ->
                         p ∈ pdf_objs pdf3).
  { intros p. unfold pdfioDictGetObject, value_object.
    destruct dict as [d |]; [| discriminate].
    destruct (_pdfioDictGetValue d "Pages") as [[] |]; try discriminate.
    intros H. by apply find_object_sound in H as [? _]. }
  pose proof (load_pages_fills fuel _ pdf3 Hq Hok3) as Hspec.
  rewrite Hpages in Hspec. destruct Hspec as [_ Hok].
  unfold pdfioFileGetPage in Hpage.
  destruct (length (pdf_pages pdf) <=? n)%nat; [discriminate |].
  destruct (pdf_pages pdf !! n) as [p |] eqn:Hn; [| discriminate].
  simpl in Hpage. inversion Hpage; subst page. clear Hpage.
  apply list_elem_of_lookup_2 in Hn.
  destruct (Hok p Hn) as (Hin & d & Hv & Hd).
  split.
  - apply list_elem_of_lookup in Hin as [i Hi]. exists i.
    unfold pdfioFileGetObject.
    pose proof (lookup_lt_Some _ _ _ Hi) as Hlt.
    destruct (length (pdf_objs pdf) <=? i)%nat eqn:Hle;
      [apply Nat.leb_le in Hle; lia |].
    by rewrite Hi.
  - exists d. auto.
Qed.

(** X14. A file that [pdfioFileOpen] returns has a composite trailer
    whose /Root is a reference to the object number of the catalog; the
    catalog is a record of the index, its value is a dictionary, and its
    /Pages is a reference to an object number of the index; and
    [pdfioFileGetID] gives the ID array that the file retains. *)
Theorem opened_file_has_catalog fuel filename file pdf :
  pdfioFileOpen fuel filename file = Opened pdf ->
  exists trailer root catalog,
    pdf_trailer pdf = Some trailer /\
    pdf_root pdf = Some root /\
    root ∈ pdf_objs pdf /\
    (exists generation,
       _pdfioDictGetValue trailer "Root" =
       Some (VIndirect (obj_number (deref (pdf_heap pdf) root)) generation)) /\
    obj_value (deref (pdf_heap pdf) root) = VDict catalog /\
    (exists number generation,
       _pdfioDictGetValue catalog "Pages" = Some (VIndirect number generation) /\
       number ∈ index_numbers pdf) /\
    pdfioFileGetID pdf = pdf_id_array pdf.
Proof.
  intros Hopen.
  destruct (opened_tail _ _ _ _ Hopen)
    as (pdf1 & root & dict & pdf3 & Hp1 & Hroot & Hdict & Hpages).
  match type of Hdict with pdfioObjGetDict root ?p = _ =>
    destruct (get_dict_fills root p) as (dict' & pdf3' & Hd' & Hf3 & Hp3 & Hval)
  end.
  rewrite Hdict in Hd'. inversion Hd'; subst dict' pdf3'. clear Hd'.
  simpl in Hp3. rewrite Hp1 in Hp3.
  assert (Hok3 : pages_ok pdf3) by (intros p Hin; rewrite Hp3 in Hin; inversion Hin).
  assert (Hq : forall p, pdfioDictGetObject pdf3 dict "Pages" = Some p ->
                         p ∈ pdf_objs pdf3).
  { intros p. unfold pdfioDictGetObject, value_object.
    destruct dict as [d |]; [| discriminate].
    destruct (_pdfioDictGetValue d "Pages") as [[] |]; try discriminate.
    intros H. by apply find_object_sound in H as [? _]. }
  pose proof (load_pages_fills fuel _ pdf3 Hq Hok3) as Hspec.
  rewrite Hpages in Hspec. destruct Hspec as [Hf _].
  pose proof (fills_trans _ _ _ Hf3 Hf) as Hfill.
  destruct Hfill as (Hobjs & Htr & Hrt & _ & _ & Hid & Hheap).
  simpl in Hobjs, Htr, Hrt, Hid.
  (* the trailer and the reference to the catalog *)
  unfold pdfioDictGetObject in Hroot.
  destruct (pdf_trailer pdf1) as [trailer |] eqn:Htrailer; [| discriminate].
  unfold value_object in Hroot.
  destruct (_pdfioDictGetValue trailer "Root") as [[| | | | | | | | number generation] |]
    eqn:Href; try discriminate.
  apply find_object_sound in Hroot as [Hin Hnum].
  (* the pages object *)
  destruct (pdfioDictGetObject pdf3 dict "Pages") as [q |] eqn:Hpq.
  2:{ destruct fuel; simpl in Hpages; discriminate. }
  destruct dict as [catalog |]; [| discriminate].
  specialize (Hval catalog eq_refl).
  unfold pdfioDictGetObject, value_object in Hpq.
  destruct (_pdfioDictGetValue catalog "Pages") as [[| | | | | | | | pn pg] |]
    eqn:Hpref; try discriminate.
  apply find_object_sound in Hpq as [Hqin Hqnum].
  (* the objects in the file returned *)
  destruct Hf3 as (_ & _ & _ & _ & _ & _ & Hheap13).
  destruct Hf as (Hobjs3 & _ & _ & _ & _ & _ & Hheap3).
  simpl in Hheap13.
  exists trailer, root, catalog.
  split; [rewrite Htr; reflexivity |].
  split; [rewrite Hrt; reflexivity |].
  split; [rewrite Hobjs; exact Hin |].
  split.
  { exists generation.
    destruct (Hheap root) as [-> _]. simpl. by rewrite Hnum. }
  split.
  { destruct (Hheap3 root) as [_ ->]; [exact Hval | by rewrite Hval]. }
  split.
  { exists pn, pg. split; [exact Hpref |].
    unfold index_numbers. apply list_elem_of_fmap. exists q.
    rewrite Hobjs3. split; [| exact Hqin].
    destruct (Hheap3 q) as [-> _]. by symmetry. }
  unfold pdfioFileGetID. rewrite Htr, Hid. reflexivity.
Qed.

End Pages.

(** ** The writer: objects created in sequence *)

(** The record at index [i] has the object number [i + 1]. *)
Definition numbered (pdf : pdfio_file_t) : Prop :=
  forall i p,
    pdf_objs pdf !! i = Some p ->
    exists o, pdf_heap pdf !! p = Some o /\ obj_number o = Z.of_nat (S i).

Lemma sorted_from_lookup (l : list Z) :
  (forall i x, l !! i = Some x -> x = Z.of_nat (S i)) -> Sorted Z.le l.
Proof.
  induction l as [| a l IH] using rev_ind; intros H; [constructor |].
  apply Sorted_snoc.
  - apply IH. intros i x Hi. apply H. by apply lookup_app_l_Some.
  - destruct l as [| b l _] using rev_ind; [constructor |].
    constructor.
    assert (Hb : b = Z.of_nat (S (length l))).
    { apply H. rewrite <- app_assoc. simpl.
      rewrite lookup_app_r, Nat.sub_diag by lia. reflexivity. }
    assert (Ha : a = Z.of_nat (S (length (l ++ [b])))).
    { apply H. rewrite lookup_app_r, Nat.sub_diag by lia. reflexivity. }
    rewrite length_app in Ha. simpl in Ha. lia.
Qed.

Lemma numbered_numbers pdf i :
  numbered pdf ->
  index_numbers pdf !! i = (fun _ => Z.of_nat (S i)) <$> pdf_objs pdf !! i.
Proof.
  intros Hn. unfold index_numbers. rewrite list_lookup_fmap.
  destruct (pdf_objs pdf !! i) as [p |] eqn:Hp; [| reflexivity].
  destruct (Hn i p Hp) as (o & Ho & Hnum). simpl.
  unfold deref. by rewrite Ho, Hnum.
Qed.

Lemma numbered_index_ok pdf : numbered pdf -> index_ok pdf.
Proof.
  intros Hn. split.
  - apply Forall_forall. intros p Hin.
    apply list_elem_of_lookup in Hin as [i Hi].
    destruct (Hn i p Hi) as (o & Ho & _). by eapply lookup_lt_Some.
  - apply sorted_from_lookup. intros i x Hi.
    rewrite numbered_numbers in Hi by exact Hn.
    destruct (pdf_objs pdf !! i); simpl in Hi; congruence.
Qed.

(** X15. In a file whose records are numbered in sequence, as they are
    in a file that is written, [pdfioFileFindObject] returns for the
    number [i + 1] the record at index [i], and NULL for 0 and for a
    number above the count of objects. *)
Theorem numbered_find_object pdf number :
  numbered pdf ->
  pdfioFileFindObject pdf number =
  if (1 <=? number) && (number <=? Z.of_nat (pdfioFileGetNumObjects pdf))
  then pdf_objs pdf !! Z.to_nat (number - 1)
  else None.
Proof.
  intros Hn. pose proof (numbered_index_ok pdf Hn) as Hok.
  assert (Hspec : forall p,
            pdfioFileFindObject pdf number = Some p ->
            exists i, pdf_objs pdf !! i = Some p /\ number = Z.of_nat (S i)).
  { intros p Hfind. apply find_object_sound in Hfind as [Hin Hnum].
    apply list_elem_of_lookup in Hin as [i Hi]. exists i. split; [exact Hi |].
    destruct (Hn i p Hi) as (o & Ho & Hnumo).
    unfold deref in Hnum. rewrite Ho in Hnum. congruence. }
  unfold pdfioFileGetNumObjects.
  destruct ((1 <=? number) && (number <=? Z.of_nat (length (pdf_objs pdf))))
    eqn:Hrange.
  - apply andb_true_iff in Hrange as [H1 H2].
    apply Z.leb_le in H1. apply Z.leb_le in H2.
    destruct (pdf_objs pdf !! Z.to_nat (number - 1)) as [p |] eqn:Hp;
      [| apply lookup_ge_None in Hp; lia].
    assert (Hsome : is_Some (pdfioFileFindObject pdf number)).
    { apply find_object_is_Some; [exact Hok |].
      apply list_elem_of_lookup. exists (Z.to_nat (number - 1)).
      rewrite numbered_numbers, Hp by exact Hn. simpl. f_equal. lia. }
    destruct Hsome as [q Hq]. rewrite Hq.
    destruct (Hspec q Hq) as (i & Hi & Hnum).
    replace (Z.to_nat (number - 1)) with i in Hp by lia. congruence.
  - destruct (pdfioFileFindObject pdf number) as [q |] eqn:Hq; [| reflexivity].
    destruct (Hspec q eq_refl) as (i & Hi & Hnum).
    apply lookup_lt_Some in Hi.
    apply andb_false_iff in Hrange as [H | H]; apply Z.leb_gt in H; lia.
Qed.

(** X16. [pdfioFileCreateObject] on a file that is written, with a
    dictionary: the object it returns is one record more, at the end of
    the index, with the count of objects as its number, the position of
    the file as its offset and the dictionary as its value; the records
    stay numbered in sequence and the file stays one that is written. *)
Theorem create_object_numbers h dict :
  file_mode h = _PDFIO_MODE_WRITE ->
  numbered (file_pdf h) ->
  exists obj h',
    pdfioFileCreateObject (Some h) (Some dict) = (Some obj, Some h') /\
    file_mode h' = _PDFIO_MODE_WRITE /\
    numbered (file_pdf h') /\
    pdf_objs (file_pdf h') = pdf_objs (file_pdf h) ++ [obj] /\
    pdf_heap (file_pdf h') !! obj =
      Some (mk_obj (Z.of_nat (S (pdfioFileGetNumObjects (file_pdf h)))) 0
              (pdf_pos (file_pdf h)) (VDict dict) 0) /\
    pdfioFileFindObject (file_pdf h')
      (Z.of_nat (S (pdfioFileGetNumObjects (file_pdf h)))) = Some obj.
Proof.
  intros Hmode Hn. unfold pdfioFileCreateObject. rewrite Hmode.
  eexists _, _. split; [reflexivity |]. split; [exact Hmode |].
  set (f := file_pdf h) in *.
  set (o := mk_obj (Z.of_nat (length (pdf_objs f ++ [length (pdf_heap f)]))) 0
              (_pdfioFileTell f) (VDict dict) 0).
  assert (Hnew : (pdf_heap f ++ [o]) !! length (pdf_heap f) = Some o)
    by (rewrite lookup_app_r, Nat.sub_diag by lia; reflexivity).
  assert (Hn' : numbered (set_index f (pdf_heap f ++ [o])
                            (pdf_objs f ++ [length (pdf_heap f)]))).
  { intros i p Hi. simpl in *.
    apply lookup_app_Some in Hi as [Hi | [Hlen Hi]].
    - destruct (Hn i p Hi) as (o' & Ho' & Hnum). exists o'.
      split; [by apply lookup_app_l_Some | exact Hnum].
    - destruct (i - length (pdf_objs f))%nat as [| k] eqn:Hk; [| discriminate].
      simpl in Hi. inversion Hi; subst p. exists o. split; [exact Hnew |].
      subst o. simpl. rewrite length_app. simpl. f_equal. lia. }
  split; [exact Hn' |]. split; [reflexivity |].
  assert (Hcount : Z.of_nat (length (pdf_objs f ++ [length (pdf_heap f)])) =
                   Z.of_nat (S (pdfioFileGetNumObjects f))).
  { unfold pdfioFileGetNumObjects. rewrite length_app. simpl. lia. }
  split.
  - simpl. rewrite Hnew. subst o. by rewrite Hcount.
  - rewrite (numbered_find_object _ _ Hn').
    unfold pdfioFileGetNumObjects. simpl. rewrite length_app. simpl.
    replace (Z.to_nat (Z.of_nat (S (length (pdf_objs f))) - 1))
      with (length (pdf_objs f)) by lia.
    rewrite lookup_app_r, Nat.sub_diag by lia. simpl.
    match goal with |- (if ?c then _ else _) = _ =>
      replace c with true; [reflexivity |]
    end.
    symmetry. apply andb_true_iff. split; apply Z.leb_le; lia.
Qed.

(** ** The writer: the header, and the end of the file *)

Section Writer.

Context {E : Externals}.

(** X17. [pdfioFileClose] on a file that [pdfioFileCreate] returned
    answers [false], whether objects were created in it or not and
    whether the descriptor can be closed or not: [write_trailer] writes
    nothing and reports failure. *)
Theorem close_of_created_file_fails filename version created written c h :
  pdfioFileCreate filename version created written c = Created h ->
  forall closed,
    pdfioFileClose (Some h) closed = false /\
    forall dict obj h',
      pdfioFileCreateObject (Some h) dict = (obj, Some h') ->
      pdfioFileClose (Some h') closed = false.
Proof.
  unfold pdfioFileCreate. destruct filename as [name |]; [| discriminate].
  destruct (negb created); [discriminate |].
  destruct (_pdfioFilePrintf _ _ _) as [ok pdf].
  destruct (negb ok); [discriminate |]. intros [= <-] closed.
  split; [by destruct closed |].
  intros dict obj h'. unfold pdfioFileCreateObject. simpl.
  destruct dict; intros [= <- <-]; by destruct closed.
Qed.





End Writer.

(** ** Every record allocated is in the index *)

(** The index holds the pointer of every object allocated, once. *)
Definition index_complete (pdf : pdfio_file_t) : Prop :=
  Permutation (pdf_objs pdf) (seq 0 (length (pdf_heap pdf))).

Definition index_stays_complete (pdf pdf' : pdfio_file_t) : Prop :=
  index_complete pdf -> index_complete pdf'.

#[global] Instance index_stays_complete_frame : FrameOpen index_stays_complete.
Proof.
  split; [split; [split; [split |..] |..] |];
    unfold index_stays_complete, index_complete; try (intros; assumption).
  - auto.
  - intros pdf number generation offset obj pdf' Hadd Hc.
    destruct (add_obj_grows number generation offset pdf) as (pdf2 & Hadd2 & Hg & Hp).
    rewrite Hadd in Hadd2. inversion Hadd2; subst obj pdf2. clear Hadd2.
    rewrite Hp, Hc.
    replace (pdf_heap pdf') with
      (pdf_heap pdf ++ [mk_obj number generation offset VNone 0])
      by (rewrite Hg; reflexivity).
    rewrite length_app, seq_app. reflexivity.
  - intros pdf obj f _ Hc. simpl. by rewrite length_alter.
Qed.

Section Complete.

Context {E : Externals}.

(** X19. When [pdfioFileOpen] returns, with a file or with NULL after
    a failure, the index of the structure holds every object that was
    allocated, each once: the loop of [pdfioFileClose] over
    [objs[0 .. num_objs)] meets each of them once. *)
Theorem open_keeps_every_record_indexed fuel filename file :
  match pdfioFileOpen fuel filename file with
  | Opened pdf | Null pdf => index_complete pdf
  | Running => True
  end.
Proof.
  assert (H0 : forall data, index_complete (new_pdf data))
    by (intros; constructor).
  unfold pdfioFileOpen. destruct filename; [| apply H0].
  destruct file as [data |]; [| apply (H0 [])].
  pose proof (keeps_read_file index_stays_complete fuel (new_pdf data)) as Hk.
  destruct (read_file fuel (new_pdf data)); [apply Hk, H0 | apply Hk, H0 | exact I].
Qed.

End Complete.

(** ** The properties above on files and states *)

Section Instances.

Import Reference Examples.

(** An index with one record, of number 7. *)
Definition one_record : pdfio_file_t :=
  set_index (new_pdf []) [mk_obj 7 0 100 VNone 0] [0%nat].

Lemma one_record_ok : index_ok one_record.
Proof. split; repeat constructor. Qed.

(** A record of number 5 is added before the record of number 7. *)
Lemma add_obj_keeps_index_sorted_witness :
  exists pdf',
    add_obj 5 0 200 one_record = Ret 1%nat pdf' /\
    index_numbers pdf' = [5; 7] /\
    index_ok pdf' /\
    pdfioFileGetNumObjects pdf' = 2%nat.
Proof.
  eexists. split; [reflexivity |]. split; [reflexivity |].
  destruct (add_obj_keeps_index_sorted 5 0 200 one_record 1%nat _
              one_record_ok eq_refl) as (Hok & Hcount & _).
  split; [exact Hok | exact Hcount].
Defined.

Lemma add_obj_then_find_witness :
  exists pdf',
    add_obj 5 0 200 one_record = Ret 1%nat pdf' /\
    pdfioFileFindObject pdf' 5 = Some 1%nat /\
    (is_Some (pdfioFileFindObject pdf' 7) <->
     is_Some (pdfioFileFindObject one_record 7)).
Proof.
  eexists. split; [reflexivity |].
  destruct (add_obj_then_find 5 0 200 one_record 1%nat _
              one_record_ok eq_refl) as (_ & Hnew & Hother).
  split; [apply Hnew; reflexivity | apply Hother; lia].
Defined.

Lemma find_object_exact_witness :
  index_ok one_record /\
  pdfioFileFindObject one_record 7 = Some 0%nat /\
  8 ∉ index_numbers one_record.
Proof.
  split; [exact one_record_ok |]. split; [reflexivity |].
  exact (find_object_exact one_record 8 one_record_ok).
Defined.

(** The classical file: three objects, in the order of their numbers. *)
Lemma opened_objects_in_order_witness :
  exists pdf,
    pdfioFileOpen 10 (Some "classic.pdf"%string) (Some classic_file) =
    Opened pdf /\
    numbers_by_index pdf = [Some 1; Some 2; Some 3] /\
    (forall i j oi oj,
       (i <= j)%nat ->
       pdfioFileGetObject pdf i = Some oi ->
       pdfioFileGetObject pdf j = Some oj ->
       obj_number oi <= obj_number oj).
Proof.
  eexists. split; [vm_compute; reflexivity |].
  split; [vm_compute; reflexivity |].
  refine (proj1 (opened_objects_in_order 10 (Some "classic.pdf"%string)
                   (Some classic_file) _ _)).
  vm_compute. reflexivity.
Defined.

(** The classical file with a trailer whose /Prev is the offset of its
    own table. *)
Definition prev_cycle_file : list ascii :=
  ln "%PDF-1.4" ++
  ln "1 0 obj << /Type /Catalog /Pages 2 0 R >> endobj" ++
  ln "2 0 obj << /Type /Pages /Kids [ 3 0 R ] /Count 1 >> endobj" ++
  ln "3 0 obj << /Type /Page /Parent 2 0 R >> endobj" ++
  ln "xref" ++
  ln "0 4" ++
  ln "0000000000 65535 f " ++
  ln "0000000009 00000 n " ++
  ln "0000000058 00000 n " ++
  ln "0000000117 00000 n " ++
  ln "trailer" ++
  ln "<< /Size 4 /Root 1 0 R /Prev 164 >>" ++
  ln "startxref" ++
  ln "164" ++
  ln "%%EOF".

(** The state in which the chain loop comes back to offset 164. *)
Definition prev_cycle_state : pdfio_file_t :=
  match load_xref_section 164 (new_pdf prev_cycle_file) with
  | Ret trailer pdf => retain_trailer pdf trailer
  | _ => new_pdf []
  end.

Lemma prev_cycle_never_ends_witness :
  (exists trailer,
     load_xref_section 164 prev_cycle_state = Ret trailer prev_cycle_state /\
     pdfioDictGetNumber trailer "Prev" = 164) /\
  load_xref_chain 1000 164 prev_cycle_state = Hang /\
  pdfioFileOpen 50 (Some "cycle.pdf"%string) (Some prev_cycle_file) = Running.
Proof.
  assert (Hs : load_xref_section 164 prev_cycle_state =
               Ret [("Size"%string, VNumber 4); ("Root"%string, VIndirect 1 0);
                    ("Prev"%string, VNumber 164)] prev_cycle_state)
    by (vm_compute; reflexivity).
  assert (Ht : is_Some (pdf_trailer prev_cycle_state))
    by (vm_compute; by eexists).
  assert (Hpos : 0 < 164) by lia.
  split; [eexists; split; [exact Hs | reflexivity] |].
  split; [| vm_compute; reflexivity].
  exact (prev_cycle_never_ends 164 prev_cycle_state _ Hs eq_refl Hpos Ht
           1000%nat).
Defined.

(** A page tree node, object 2, whose only kid is object 2. *)
Definition kids_cycle_state : pdfio_file_t :=
  set_index (new_pdf [])
    [mk_obj 2 0 58
       (VDict [("Type"%string, VName "Pages");
               ("Kids"%string, VArray [VIndirect 2 0])]) 0]
    [0%nat].

Lemma kids_cycle_never_ends_witness :
  pdfioFileFindObject kids_cycle_state 2 = Some 0%nat /\
  load_pages 1000 (Some 0%nat) kids_cycle_state = Hang.
Proof.
  split; [reflexivity |].
  eapply (kids_cycle_never_ends 0%nat kids_cycle_state _ _ "Pages"%string []
            2 0); try reflexivity.
  by left.
Defined.

(** A record of type 1 with the offset 258 in three bytes and the
    generation 3 in one. *)
Lemma xref_record_adds_object_witness :
  xref_record 1 3 1 [1; 0; 1; 2; 3] 5 [] (new_pdf []) =
  Ret [] (set_index (new_pdf []) [mk_obj 5 3 258 VNone 0] [0%nat]).
Proof.
  rewrite (xref_record_adds_object [1] [0; 1; 2] [3] [] 5 [] (new_pdf []));
    try reflexivity.
  - repeat constructor; lia.
  - repeat constructor; lia.
  - simpl. lia.
  - simpl. lia.
  - simpl. lia.
  - simpl. lia.
  - simpl. lia.
Defined.

(** A file that is its header line. *)
Lemma short_file_is_not_opened_witness :
  exists last,
    pdfioFileOpen 10 (Some "short.pdf"%string) (Some (ln "%PDF-1.4")) =
    Null last /\
    pdf_errors last = [io_startxref].
Proof.
  assert (Hlen : (length (ln "%PDF-1.4") < 32)%nat) by (simpl; lia).
  destruct (short_file_is_not_opened 10 "short.pdf"%string (ln "%PDF-1.4") Hlen)
    as (last & Hopen & _).
  exists last. split; [exact Hopen |].
  vm_compute in Hopen. inversion Hopen. reflexivity.
Defined.

(** The page of the classical file is object 3. *)
Lemma opened_pages_are_objects_witness :
  exists pdf page,
    pdfioFileOpen 10 (Some "classic.pdf"%string) (Some classic_file) =
    Opened pdf /\
    pdfioFileGetNumPages pdf = 1%nat /\
    pdfioFileGetPage pdf 0 = Some page /\
    obj_number page = 3 /\
    (exists i, pdfioFileGetObject pdf i = Some page) /\
    exists d, obj_value page = VDict d /\ page_dict d.
Proof.
  eexists _, _. split; [vm_compute; reflexivity |].
  split; [vm_compute; reflexivity |].
  split; [vm_compute; reflexivity |].
  split; [reflexivity |].
  refine (opened_pages_are_objects 10 (Some "classic.pdf"%string)
            (Some classic_file) _ _ 0%nat _ _);
    vm_compute; reflexivity.
Defined.

(** The catalog of the classical file is object 1. *)
Lemma opened_file_has_catalog_witness :
  exists pdf trailer root catalog,
    pdfioFileOpen 10 (Some "classic.pdf"%string) (Some classic_file) =
    Opened pdf /\
    pdf_trailer pdf = Some trailer /\
    pdf_root pdf = Some root /\
    obj_number (deref (pdf_heap pdf) root) = 1 /\
    obj_value (deref (pdf_heap pdf) root) = VDict catalog /\
    pdfioFileGetID pdf = pdf_id_array pdf.
Proof.
  destruct (pdfioFileOpen 10 (Some "classic.pdf"%string) (Some classic_file))
    as [pdf | last |] eqn:Hopen;
    try (vm_compute in Hopen; discriminate Hopen).
  destruct (opened_file_has_catalog 10 _ _ pdf Hopen)
    as (trailer & root & catalog & Ht & Hr & _ & _ & Hv & _ & Hid).
  exists pdf, trailer, root, catalog.
  split; [reflexivity |]. split; [exact Ht |]. split; [exact Hr |].
  split; [| split; [exact Hv | exact Hid]].
  vm_compute in Hopen. inversion Hopen; subst pdf.
  inversion Hr. reflexivity.
Defined.

(** A file created with the default version, and two objects in it. *)
Definition created_file : pdfio_handle :=
  match pdfioFileCreate (Some "out.pdf"%string) None true true true with
  | Created h => h
  | NotCreated _ => mk_handle _PDFIO_MODE_READ "" (new_pdf [])
  end.

Definition two_objects : pdfio_file_t :=
  mk_pdf (header_text (lit "2.0")) 15 (Some (lit "2.0"))
    [mk_obj 1 0 15 (VDict [("Type"%string, VName "Catalog")]) 0;
     mk_obj 2 0 15 (VDict [("Type"%string, VName "Pages")]) 0]
    [0%nat; 1%nat] None None None None None [] [] [].

Lemma two_objects_numbered : numbered two_objects.
Proof.
  intros i p Hi. destruct i as [| [| i]]; simpl in Hi; inversion Hi;
    eexists; split; reflexivity.
Qed.

Lemma numbered_find_object_witness :
  pdfioFileFindObject two_objects 2 = Some 1%nat /\
  pdfioFileFindObject two_objects 3 = None.
Proof.
  split.
  - exact (numbered_find_object two_objects 2 two_objects_numbered).
  - exact (numbered_find_object two_objects 3 two_objects_numbered).
Defined.

Lemma created_file_numbered : numbered (file_pdf created_file).
Proof. intros i p Hi. inversion Hi. Qed.

Lemma create_object_numbers_witness :
  exists obj h',
    pdfioFileCreateObject (Some created_file)
      (Some [("Type"%string, VName "Catalog")]) = (Some obj, Some h') /\
    numbered (file_pdf h') /\
    pdf_heap (file_pdf h') !! obj =
      Some (mk_obj 1 0 15 (VDict [("Type"%string, VName "Catalog")]) 0) /\
    pdfioFileFindObject (file_pdf h') 1 = Some obj.
Proof.
  destruct (create_object_numbers created_file
              [("Type"%string, VName "Catalog")] eq_refl created_file_numbered)
    as (obj & h' & Hc & _ & Hn & _ & Hheap & Hfind).
  exists obj, h'. split; [exact Hc |]. split; [exact Hn |].
  split; [exact Hheap | exact Hfind].
Defined.

Lemma close_of_created_file_fails_witness :
  pdfioFileCreate (Some "out.pdf"%string) None true true true =
  Created created_file /\
  pdfioFileClose (Some created_file) true = false.
Proof.
  split; [reflexivity |].
  exact (proj1 (close_of_created_file_fails (Some "out.pdf"%string) None true
                  true true created_file eq_refl true)).
Defined.



(** The table of the classical file, and a cross-reference stream of
    three records of three bytes. *)
Lemma section_loops_end_witness :
  load_xref_table (set_pos (new_pdf classic_file) 169) <> Hang /\
  xref_stream_from 0%nat
    [("W"%string, VArray [VNumber 1; VNumber 1; VNumber 1])] 0
    (set_index (new_pdf forward_parent_file) [mk_obj 6 0 191 VNone 0] [0%nat])
  <> Hang.
Proof.
  apply (section_loops_end (set_pos (new_pdf classic_file) 169)
           (set_index (new_pdf forward_parent_file) [mk_obj 6 0 191 VNone 0]
              [0%nat])
           0%nat [("W"%string, VArray [VNumber 1; VNumber 1; VNumber 1])] 0
           [VNumber 1; VNumber 1; VNumber 1]);
    first [reflexivity
          | cbv; intros H; discriminate H
          | split; cbv; intros H; discriminate H].
Defined.

(** The entry that the table of the truncated file announces: 18
    bytes are left at position 18. *)
Lemma cut_entry_fails_without_report_witness :
  exists last,
    xref_entry 0 (set_pos (new_pdf truncated_table_file) 18) = Fail last /\
    pdf_errors last = [].
Proof.
  destruct (cut_entry_fails_without_report 0
              (set_pos (new_pdf truncated_table_file) 18)) as [Hcut _].
  apply Hcut. simpl. lia.
Defined.

(** The entry of object 1 in the classical file, at position 193:
    offset 9, generation 0, type [n]. *)
Lemma xref_entry_fixed_format_witness :
  xref_entry 1 (set_pos (new_pdf classic_file) 193) =
  (add_obj 1 0 9 ≫= fun _ => mret tt) (set_pos (new_pdf classic_file) 213).
Proof.
  assert (Hok : index_ok (set_pos (new_pdf classic_file) 193))
    by (split; constructor).
  assert (Hdo : is_digits (lit "0000000009")) by (repeat constructor).
  assert (Hdg : is_digits (lit "00000")) by (repeat constructor).
  destruct (xref_entry_fixed_format 1 (set_pos (new_pdf classic_file) 193)
              (lit "0000000009") (lit "00000") "n"%char [" "%char; LF]
              eq_refl eq_refl Hdo eq_refl Hdg eq_refl Hok) as [_ Hgood].
  assert (Heol : entry_eol [" "%char; LF]) by (right; left; reflexivity).
  assert (Hgen : decimal (lit "00000") <= 65535) by (vm_compute; discriminate).
  destruct (Hgood Heol Hgen) as (_ & _ & Hnew).
  apply Hnew; [reflexivity |]. intros Hin. inversion Hin.
Defined.

End Instances.
